(** * URDF viewer: the Xacro include resolver and the asset path matcher

    A shallow embedding of two utilities of the repository:

    - [findFileInMap] (client side, file-utilities module): the heuristic
      that looks a URDF mesh reference up in the map of dropped files;
    - [processIncludes] and the [/api/xacro-to-urdf] handler (server side):
      the recursive textual expansion of [<xacro:include .../>] directives.

    JavaScript strings are modelled by [string]: a sequence of code units,
    restricted here to the range 0..255.  A JavaScript [Map] is modelled by
    an association list in insertion order, which is the order in which
    [entries()] enumerates it. *)

From Stdlib Require Import String Ascii List Bool Arith Lia.
Import ListNotations.
Open Scope list_scope.
Open Scope string_scope.

Set Implicit Arguments.

(** ** JavaScript string primitives *)

Module JsString.

(** [strip_prefix p s] is [Some r] exactly when [s = p ++ r]
    ([s.startsWith(p)], returning what follows). *)
Fixpoint strip_prefix (p s : string) : option string :=
  match p with
  | EmptyString => Some s
  | String a p' =>
      match s with
      | EmptyString => None
      | String b s' => if Ascii.eqb a b then strip_prefix p' s' else None
      end
  end.

Definition startsWith (s p : string) : bool :=
  match strip_prefix p s with Some _ => true | None => false end.

(** [s.endsWith(suffix)] *)
Fixpoint endsWith (s suffix : string) : bool :=
  if String.eqb s suffix then true
  else match s with
       | EmptyString => false
       | String _ s' => endsWith s' suffix
       end.

(** [s.includes(needle)] *)
Fixpoint includes (s needle : string) : bool :=
  if startsWith s needle then true
  else match s with
       | EmptyString => false
       | String _ s' => includes s' needle
       end.

(** [s.split(sep)] for a one-character separator; the array is never
    empty. *)
Fixpoint split (sep : ascii) (s : string) : list string :=
  match s with
  | EmptyString => [EmptyString]
  | String c s' =>
      if Ascii.eqb c sep then EmptyString :: split sep s'
      else match split sep s' with
           | seg :: segs => String c seg :: segs
           | [] => [String c EmptyString]
           end
  end.

(** [s.split(sep).pop()]: the last element of the array. *)
Definition split_pop (sep : ascii) (s : string) : string :=
  List.last (split sep s) EmptyString.

(** Truthiness of a string value: only the empty string is falsy. *)
Definition truthy (s : string) : bool :=
  match s with EmptyString => false | String _ _ => true end.

Fixpoint drop (n : nat) (s : string) : string :=
  match n with
  | 0 => s
  | S n' => match s with EmptyString => EmptyString | String _ s' => drop n' s' end
  end.

Fixpoint take (n : nat) (s : string) : string :=
  match n with
  | 0 => EmptyString
  | S n' => match s with
            | EmptyString => EmptyString
            | String c s' => String c (take n' s')
            end
  end.

Fixpoint has_char (c : ascii) (s : string) : bool :=
  match s with
  | EmptyString => false
  | String a s' => Ascii.eqb a c || has_char c s'
  end.

(** Every character of [s] is in the class [cls]. *)
Fixpoint all_chars (cls : ascii -> bool) (s : string) : bool :=
  match s with
  | EmptyString => true
  | String c s' => cls c && all_chars cls s'
  end.

End JsString.

Import JsString.

(** ** The asset path matcher (client side) *)

Module Matcher.

Section WithFile.

(** The browser's [File] objects are opaque to the matcher. *)
Variable File : Type.

(** [Map<string, File>], in insertion order. *)
Definition FileMap : Type := list (string * File).

(** [fileMap.get(key)] *)
Fixpoint map_get (key : string) (fileMap : FileMap) : option File :=
  match fileMap with
  | [] => None
  | (k, v) :: rest => if String.eqb k key then Some v else map_get key rest
  end.

(** [fileMap.has(key)] *)
Definition map_has (key : string) (fileMap : FileMap) : bool :=
  match map_get key fileMap with Some _ => true | None => false end.

(** [targetPath.replace(/^(package:\/\/|file:\/\/)/, '')]: the pattern is
    anchored at the start and not global, so at most one prefix goes; the
    alternatives are tried in the order written. *)
Definition strip_scheme (targetPath : string) : string :=
  match strip_prefix "package://" targetPath with
  | Some rest => rest
  | None =>
      match strip_prefix "file://" targetPath with
      | Some rest => rest
      | None => targetPath
      end
  end.

(** The first [for] loop ("Strategy A"), with its three early returns. *)
Fixpoint strategyA (normalizedTarget : string) (entries : FileMap)
  : option File :=
  match entries with
  | [] => None
  | (path, file) :: rest =>
      if String.eqb path normalizedTarget then Some file
      else if endsWith path ("/" ++ normalizedTarget) then Some file
      else if endsWith normalizedTarget ("/" ++ path) then Some file
      else strategyA normalizedTarget rest
  end.

(** The second [for] loop ("Strategy C"). *)
Fixpoint strategyC (targetFileName : string) (entries : FileMap)
  : option File :=
  match entries with
  | [] => None
  | (path, file) :: rest =>
      if endsWith path ("/" ++ targetFileName) || String.eqb path targetFileName
      then Some file
      else strategyC targetFileName rest
  end.

Definition findFileInMap (targetPath : string) (fileMap : FileMap)
  : option File :=
  if map_has targetPath fileMap then map_get targetPath fileMap
  else
    let normalizedTarget := strip_scheme targetPath in
    match strategyA normalizedTarget fileMap with
    | Some file => Some file
    | None =>
        let targetFileName := split_pop "/" normalizedTarget in
        if truthy targetFileName then strategyC targetFileName fileMap
        else None
    end.

(** *** The strategies as the specification words them *)

(** The text after the last ['/'] (the whole string when there is none). *)
Fixpoint final_segment (s : string) : string :=
  match s with
  | EmptyString => EmptyString
  | String c s' =>
      if has_char "/" s' then final_segment s'
      else if Ascii.eqb c "/" then s' else s
  end.

(** Strategy 2 accepts a key equal to the normalized target, a key ending
    with ['/' + target], or a key the target ends with after a ['/']. *)
Definition accepts_scheme_stripped (normalizedTarget key : string) : bool :=
  String.eqb key normalizedTarget
  || endsWith key ("/" ++ normalizedTarget)
  || endsWith normalizedTarget ("/" ++ key).

(** Strategy 3 accepts a key equal to the file name or ending with
    ['/' + file name]. *)
Definition accepts_filename (fileName key : string) : bool :=
  String.eqb key fileName || endsWith key ("/" ++ fileName).

(** The handle of the first entry whose key is accepted. *)
Definition first_accepted (accepts : string -> bool) (fileSet : FileMap)
  : option File :=
  option_map snd (List.find (fun entry => accepts (fst entry)) fileSet).

Definition exact_key (target : string) (fileSet : FileMap) : option File :=
  map_get target fileSet.

Definition scheme_stripped_scan (target : string) (fileSet : FileMap)
  : option File :=
  first_accepted (accepts_scheme_stripped (strip_scheme target)) fileSet.

Definition filename_fallback (target : string) (fileSet : FileMap)
  : option File :=
  first_accepted (accepts_filename (final_segment (strip_scheme target)))
                 fileSet.

(** Strategies in priority order: the first one that yields a match wins. *)
Fixpoint first_match (strategies : list (option File)) : option File :=
  match strategies with
  | [] => None
  | Some f :: _ => Some f
  | None :: rest => first_match rest
  end.

(** The matcher as the specification states it. *)
Definition match_by_priority (target : string) (fileSet : FileMap)
  : option File :=
  first_match [ exact_key target fileSet;
                scheme_stripped_scan target fileSet;
                filename_fallback target fileSet ].

(** The same, with the file-name fallback tried only for a non-empty final
    segment. *)
Definition match_by_priority_guarded (target : string) (fileSet : FileMap)
  : option File :=
  first_match [ exact_key target fileSet;
                scheme_stripped_scan target fileSet;
                if truthy (final_segment (strip_scheme target))
                then filename_fallback target fileSet
                else None ].

(** A key that names a file: not empty and not ending with a slash. *)
Definition file_key (key : string) : bool :=
  truthy key && negb (endsWith key "/").

(** A key matches the target under some strategy. *)
Definition matches_some_strategy (target key : string) : bool :=
  String.eqb key target
  || accepts_scheme_stripped (strip_scheme target) key
  || accepts_filename (final_segment (strip_scheme target)) key.

End WithFile.

(** Two file handles for the examples. *)
Inductive handle : Type := F1 | F2.

End Matcher.

(** ** Regular expressions, as a backtracking matcher

    Each regular expression of the source is written with the combinators
    below, in continuation-passing style: a matcher takes the input that is
    left and the continuation that matches the remainder of the pattern, so
    that a quantifier can give characters back when the remainder fails. *)

Module Regex.

(** [\s] on code units below 256. *)
Definition is_space (c : ascii) : bool :=
  let n := nat_of_ascii c in
  (((9 <=? n) && (n <=? 13)) || (n =? 32) || (n =? 160))%nat.

(** Line terminators, which [.] does not match. *)
Definition is_line_terminator (c : ascii) : bool :=
  let n := nat_of_ascii c in ((n =? 10) || (n =? 13))%nat.

(** [.] *)
Definition dot (c : ascii) : bool := negb (is_line_terminator c).

(** [[^x]] *)
Definition not_char (x c : ascii) : bool := negb (Ascii.eqb c x).

Section Combinators.

Variable A : Type.

Definition kont : Type := string -> option A.

(** A literal. *)
Definition lit (p : string) (k : kont) : kont :=
  fun s => match strip_prefix p s with Some r => k r | None => None end.

(** [C+], greedy: take one more character first, give it back if the rest
    of the pattern then fails. *)
Fixpoint plus (cls : ascii -> bool) (k : kont) (s : string) : option A :=
  match s with
  | EmptyString => None
  | String c s' =>
      if cls c then
        match plus cls k s' with
        | Some r => Some r
        | None => k s'
        end
      else None
  end.

(** [C*], greedy. *)
Definition star (cls : ascii -> bool) (k : kont) : kont :=
  fun s => match plus cls k s with Some r => Some r | None => k s end.

(** [C*?], lazy: try the rest of the pattern first. *)
Fixpoint star_lazy (cls : ascii -> bool) (k : kont) (s : string) : option A :=
  match k s with
  | Some r => Some r
  | None =>
      match s with
      | EmptyString => None
      | String c s' => if cls c then star_lazy cls k s' else None
      end
  end.

(** [(C+)], greedy, handing the captured text to the continuation. *)
Fixpoint plus_cap (cls : ascii -> bool) (k : string -> kont) (s : string)
  : option A :=
  match s with
  | EmptyString => None
  | String c s' =>
      if cls c then
        match plus_cap cls (fun cap => k (String c cap)) s' with
        | Some r => Some r
        | None => k (String c EmptyString) s'
        end
      else None
  end.

(** Leftmost match of an unanchored pattern ([String.prototype.match]
    without the [g] flag). *)
Fixpoint search (m : kont) (s : string) : option A :=
  match m s with
  | Some r => Some r
  | None =>
      match s with
      | EmptyString => None
      | String _ s' => search m s'
      end
  end.

End Combinators.

(** *** Global matching and replacement

    A pattern with the [g] flag is given as a function from the input at
    the current position to the capture and the input left after the
    match.  [String.prototype.replace] first collects the successive
    non-overlapping matches from left to right, then builds the result. *)

Inductive token (B : Type) : Type :=
| Lit (c : ascii)
| Hit (span : string) (capture : B).

Arguments Lit {B} c.
Arguments Hit {B} span capture.

Section Global.

Variable B : Type.
Variable m : string -> option (B * string).

(** [skip] counts the characters of the current match that are still to be
    passed over. *)
Fixpoint scan (skip : nat) (s : string) : list (token B) :=
  match s with
  | EmptyString => []
  | String c s' =>
      match skip with
      | S k => scan k s'
      | 0 =>
          match m s with
          | Some (b, rest) =>
              let len := String.length s - String.length rest in
              Hit (take len s) b :: scan (len - 1) s'
          | None => Lit c :: scan 0 s'
          end
      end
  end.

Definition tokens (s : string) : list (token B) := scan 0 s.

(** The input text a token stands for. *)
Definition token_source (t : token B) : string :=
  match t with
  | Lit c => String c EmptyString
  | Hit span _ => span
  end.

(** [s.replace(/.../g, replacement)] with a replacement text free of [$]. *)
Fixpoint substitute (replacement : string) (ts : list (token B)) : string :=
  match ts with
  | [] => EmptyString
  | Lit c :: ts' => String c (substitute replacement ts')
  | Hit _ _ :: ts' => replacement ++ substitute replacement ts'
  end.

Definition replace_all (replacement : string) (s : string) : string :=
  substitute replacement (tokens s).

End Global.

(** *** Matchers that consume their input *)

Section Consumption.

Variable B : Type.

(** A continuation that returns what is left of its input. *)
Definition shrinks (k : kont (B * string)) : Prop :=
  forall s b rest, k s = Some (b, rest) -> exists span, s = span ++ rest.

(** A pattern that consumes at least one character. *)
Definition advances (m : string -> option (B * string)) : Prop :=
  forall s b rest,
    m s = Some (b, rest) -> exists span, span <> "" /\ s = span ++ rest.

End Consumption.

End Regex.

Import Regex.

(** ** The include resolver (server side) *)

Module Resolver.

(** The double quote character. *)
Definition dq : string := String "034"%char EmptyString.

(** [/<xacro:include\s+filename=Q([^Q]+)Q\s*\/>/g], where Q stands for the
    double quote: the capture is the file name. *)
Definition includeRegex (s : string) : option (string * string) :=
  lit "<xacro:include"
    (plus is_space
       (lit ("filename=" ++ dq)
          (plus_cap (not_char "034")
             (fun filename =>
                lit dq
                  (star is_space
                     (lit "/>" (fun rest => Some (filename, rest))))))))
    s.

(** [filename.match(/\$\(find\s+([^)]+)\)/)], giving capture 1. *)
Definition pkgMatch (filename : string) : option string :=
  search
    (lit "$(find"
       (plus is_space
          (plus_cap (not_char ")")
             (fun pkgName => lit ")" (fun _ => Some pkgName)))))
    filename.

(** [/<\?xml.*\?>/g] *)
Definition xmlHeaderRegex (s : string) : option (unit * string) :=
  lit "<?xml" (star dot (lit "?>" (fun rest => Some (tt, rest)))) s.

(** [/<robot.*?>/g] *)
Definition robotOpenRegex (s : string) : option (unit * string) :=
  lit "<robot" (star_lazy dot (lit ">" (fun rest => Some (tt, rest)))) s.

(** [/<\/robot>/g] *)
Definition robotCloseRegex (s : string) : option (unit * string) :=
  lit "</robot>" (fun rest => Some (tt, rest)) s.

(** The end of the open-tag pattern: the character [x], then whatever
    follows. *)
Definition stop_at (A : Type) (x : ascii) (r : string -> A) : kont A :=
  lit (String x "") (fun rest => Some (r rest)).

(** The end of the prolog pattern: the mark [?>]. *)
Definition mark_k : kont (unit * string) :=
  lit "?>" (fun rest => Some (tt, rest)).

(** The three chained [replace] calls applied to an included file. *)
Definition strip_wrappers (includeContent : string) : string :=
  replace_all robotCloseRegex ""
    (replace_all robotOpenRegex ""
       (replace_all xmlHeaderRegex "" includeContent)).

(** The comment that stands for a file that was not found. *)
Definition placeholder (filename : string) : string :=
  "<!-- File not found: " ++ filename ++ " -->".

(** *** The host: Node's [path] and [fs] modules *)

Record Host : Type := {
  (** [path.join(a, b, c)] *)
  path_join : string -> string -> string -> string;
  (** [path.resolve(a, b)] *)
  path_resolve : string -> string -> string;
  (** [path.dirname(p)] *)
  path_dirname : string -> string;
  (** [fs.existsSync(p)] *)
  existsSync : string -> bool;
  (** [fs.readFileSync(p, 'utf8')]: the text, or the message of the error
      that is thrown *)
  readFileSync : string -> string + string
}.

(** *** Effects: console output, exceptions, unbounded recursion *)

Inductive event : Type :=
| Including (filePath : string)
| Not_found (filePath : string)
| Pre_assembling (fullPath : string)
| Backend_error (message : string).

Inductive outcome (A : Type) : Type :=
| Done (a : A)
| Thrown (message : string)
| Out_of_fuel.

Arguments Done {A} a.
Arguments Thrown {A} message.
Arguments Out_of_fuel {A}.

(** A computation yields the lines it printed and how it ended. *)
Definition M (A : Type) : Type := (list event * outcome A)%type.

Definition ret {A : Type} (a : A) : M A := ([], Done a).

Definition bind {A B : Type} (c : M A) (f : A -> M B) : M B :=
  match c with
  | (l, Done a) => let '(l', o) := f a in ((l ++ l')%list, o)
  | (l, Thrown e) => (l, Thrown e)
  | (l, Out_of_fuel) => (l, Out_of_fuel)
  end.

Definition print (e : event) : M unit := ([e], Done tt).

Definition throw {A : Type} (message : string) : M A := ([], Thrown message).

Definition diverge {A : Type} : M A := ([], Out_of_fuel).

(** [try { c } catch (err) { handler(err.message) }] *)
Definition try_catch {A : Type} (c : M A) (handler : string -> M A) : M A :=
  match c with
  | (l, Thrown e) => let '(l', o) := handler e in ((l ++ l')%list, o)
  | other => other
  end.

(** [c1] ran out of fuel, or ended as [c2] does. *)
Definition refines (A : Type) (c1 c2 : M A) : Prop :=
  snd c1 = Out_of_fuel \/ c1 = c2.

(** [c] ended within its fuel. *)
Definition finishes (A : Type) (c : M A) : Prop := snd c <> Out_of_fuel.

Notation "x <- c ;; k" := (bind c (fun x => k))
  (at level 61, c at next level, right associativity).
Notation "c ;;; k" := (bind c (fun _ => k))
  (at level 61, right associativity).

Section WithHost.

Variable host : Host.

(** The path a directive's file name stands for. *)
Definition target_path (filename workingDir publicDirPath : string) : string :=
  if includes filename "$(find " then
    match pkgMatch filename with
    | Some pkgName =>
        let rest := split_pop ")" filename in
        path_join host publicDirPath pkgName rest
    | None => filename
    end
  else path_resolve host workingDir filename.

(** The replacer function of [processIncludes]; [recurse] is the recursive
    call. *)
Definition include_callback
    (recurse : string -> string -> M string)
    (workingDir publicDirPath filename : string) : M string :=
  let filePath := target_path filename workingDir publicDirPath in
  if existsSync host filePath then
    print (Including filePath) ;;;
    match readFileSync host filePath with
    | inl includeContent =>
        recurse (strip_wrappers includeContent) (path_dirname host filePath)
    | inr message => throw message
    end
  else
    print (Not_found filePath) ;;;
    ret (placeholder filename).

(** [content.replace(includeRegex, callback)]: the replacer is called once
    per match, in order, and the results are spliced between the text that
    did not match. *)
Fixpoint splice (callback : string -> M string)
    (ts : list (token string)) : M string :=
  match ts with
  | [] => ret EmptyString
  | Lit c :: ts' =>
      t <- splice callback ts' ;; ret (String c t)
  | Hit _ filename :: ts' =>
      r <- callback filename ;;
      t <- splice callback ts' ;;
      ret (r ++ t)
  end.

(** [fuel] bounds the depth of the recursion, which the source does not
    bound: a nested call with no fuel left ends as [Out_of_fuel]. *)
Fixpoint processIncludes (fuel : nat)
    (content workingDir publicDirPath : string) : M string :=
  splice
    (include_callback
       (fun stripped dir =>
          match fuel with
          | 0 => diverge
          | S fuel' => processIncludes fuel' stripped dir publicDirPath
          end)
       workingDir publicDirPath)
    (tokens includeRegex content).

(** The call that the replacer of [processIncludes fuel] makes for an
    included file. *)
Definition nested_call (fuel : nat) (publicDirPath : string)
  : string -> string -> M string :=
  fun stripped dir =>
    match fuel with
    | 0 => diverge
    | S fuel' => processIncludes fuel' stripped dir publicDirPath
    end.

(** *** The HTTP handler of [/api/xacro-to-urdf] *)

Record response : Type := { status : nat; body : string }.

(** [req.query.file] as the query parser hands it over: absent, a string,
    or an array or object (as for [?file=a&file=b]), which is truthy and
    not a string. *)
Inductive query_value : Type :=
| QAbsent
| QString (s : string)
| QOther.

(** Stands for the message of the [TypeError] that [path.resolve] throws
    for an argument that is not a string. *)
Definition ERR_INVALID_ARG_TYPE : string := "ERR_INVALID_ARG_TYPE".

(** The handler.  [path.resolve] is called before the [try] block: what it
    throws is not caught. *)
Definition xacro_to_urdf (fuel : nat) (publicDirPath : string)
    (fileRelativePath : query_value) : M response :=
  match fileRelativePath with
  | QAbsent => ret {| status := 400; body := "No file specified" |}
  | QOther => throw ERR_INVALID_ARG_TYPE
  | QString file =>
      if negb (truthy file) then
        ret {| status := 400; body := "No file specified" |}
      else
        let fullPath := path_resolve host publicDirPath file in
        if negb (existsSync host fullPath) then
          ret {| status := 404; body := "File not found: " ++ file |}
        else
          try_catch
            (print (Pre_assembling fullPath) ;;;
             match readFileSync host fullPath with
             | inl content =>
                 assembled <-
                   processIncludes fuel content
                     (path_dirname host fullPath) publicDirPath ;;
                 ret {| status := 200; body := assembled |}
             | inr message => throw message
             end)
            (fun message =>
               print (Backend_error message) ;;;
               ret {| status := 500; body := message |})
  end.

End WithHost.

End Resolver.

(** ** The resolver, as the specification words it *)

Module ResolverSpec.
Import Resolver.

(** [Removed m s o]: [o] is [s] without the successive matches of [m],
    found from left to right, each search starting where the previous match
    ended. *)
Inductive Removed (B : Type) (m : string -> option (B * string))
  : string -> string -> Prop :=
| Removed_end : Removed m "" ""
| Removed_keep c s o :
    m (String c s) = None ->
    Removed m s o ->
    Removed m (String c s) (String c o)
| Removed_drop span b rest o :
    span <> "" ->
    m (span ++ rest) = Some (b, rest) ->
    Removed m rest o ->
    Removed m (span ++ rest) o.

(** [Spliced content out]: [out] is [content] in which the span of each
    include directive, found from left to right, is replaced by some text,
    and every other character is kept in place. *)
Inductive Spliced : string -> string -> Prop :=
| Spliced_end : Spliced "" ""
| Spliced_keep c s o :
    includeRegex (String c s) = None ->
    Spliced s o ->
    Spliced (String c s) (String c o)
| Spliced_replace span filename rest r o :
    span <> "" ->
    includeRegex (span ++ rest) = Some (filename, rest) ->
    Spliced rest o ->
    Spliced (span ++ rest) (r ++ o).

(** No include directive starts anywhere in the document. *)
Definition directive_free (content : string) : Prop :=
  forall pre suf, content = pre ++ suf -> includeRegex suf = None.

(** The same, as a test that runs. *)
Fixpoint no_directive (content : string) : bool :=
  match includeRegex content with
  | Some _ => false
  | None =>
      match content with
      | EmptyString => true
      | String _ s => no_directive s
      end
  end.

(** A package name of the macro form [$(find PACKAGE)REST]: not empty, not
    starting with white space, without a closing parenthesis. *)
Definition package_name (pkg : string) : bool :=
  match pkg with
  | EmptyString => false
  | String c _ => negb (is_space c) && negb (has_char ")" pkg)
  end.

(** [sub] occurs in [s]. *)
Definition occurs_in (sub s : string) : Prop :=
  exists pre post, s = pre ++ sub ++ post.


Section WithHost.

Variable host : Host.
Variable publicDirPath : string.

(** [Resolved content workingDir out]: every directive of [content] is
    replaced in place, by the resolved content of its file when the file
    exists, by the comment [<!-- File not found: FILENAME -->]
    otherwise. *)
Inductive Resolved : string -> string -> string -> Prop :=
| Resolved_end workingDir : Resolved "" workingDir ""
| Resolved_keep c s workingDir o :
    includeRegex (String c s) = None ->
    Resolved s workingDir o ->
    Resolved (String c s) workingDir (String c o)
| Resolved_found span filename rest workingDir includeContent r o :
    span <> "" ->
    includeRegex (span ++ rest) = Some (filename, rest) ->
    let filePath := target_path host filename workingDir publicDirPath in
    existsSync host filePath = true ->
    readFileSync host filePath = inl includeContent ->
    Resolved (strip_wrappers includeContent) (path_dirname host filePath) r ->
    Resolved rest workingDir o ->
    Resolved (span ++ rest) workingDir (r ++ o)
| Resolved_missing span filename rest workingDir o :
    span <> "" ->
    includeRegex (span ++ rest) = Some (filename, rest) ->
    existsSync host (target_path host filename workingDir publicDirPath)
    = false ->
    Resolved rest workingDir o ->
    Resolved (span ++ rest) workingDir
             (("<!-- File not found: " ++ filename ++ " -->") ++ o).

(** The paths of the files that the directives of [content] refer to. *)
Fixpoint hit_targets (workingDir : string) (ts : list (token string))
  : list string :=
  match ts with
  | [] => []
  | Lit _ :: ts' => hit_targets workingDir ts'
  | Hit _ filename :: ts' =>
      target_path host filename workingDir publicDirPath
      :: hit_targets workingDir ts'
  end.

Definition include_targets (content workingDir : string) : list string :=
  hit_targets workingDir (tokens includeRegex content).

(** [rank] decreases along every include edge between readable files: the
    include graph has no cycle. *)
Definition acyclic (rank : string -> nat) : Prop :=
  forall p includeContent q,
    existsSync host p = true ->
    readFileSync host p = inl includeContent ->
    In q (include_targets (strip_wrappers includeContent)
                          (path_dirname host p)) ->
    existsSync host q = true ->
    rank q < rank p.

End WithHost.

(** *** What the stripping patterns of the code match *)

(** [</robot>] *)
Definition close_tag (span : string) : Prop := span = "</robot>".

(** [<robot], then characters other than [>] on one line, then [>]. *)
Definition open_tag (span : string) : Prop :=
  exists attrs,
    span = "<robot" ++ attrs ++ ">"
    /\ all_chars dot attrs = true
    /\ has_char ">" attrs = false.

(** No [?>] occurs in [rest] before the end of its first line. *)
Definition no_later_mark (rest : string) : Prop :=
  forall u v, rest = u ++ "?>" ++ v -> all_chars dot u = false.

(** [<?xml], then the rest of the line up to its last [?>]; [rest] is what
    follows the span. *)
Definition xml_header (span rest : string) : Prop :=
  exists body,
    span = "<?xml" ++ body ++ "?>"
    /\ all_chars dot body = true
    /\ no_later_mark rest.

(** *** The wrappers, as markup

    The declaration prolog and the tags of the container element, read as
    XML writes them and not as the patterns of the code find them: a tag
    may run over several lines, and it ends at the first mark that closes
    it. *)

(** The first occurrence of [needle] in [s]: the text before it and the
    text after it. *)
Fixpoint cut (needle s : string) : option (string * string) :=
  match strip_prefix needle s with
  | Some rest => Some (EmptyString, rest)
  | None =>
      match s with
      | EmptyString => None
      | String c s' =>
          match cut needle s' with
          | Some (before, rest) => Some (String c before, rest)
          | None => None
          end
      end
  end.

(** [s] starts with a character of the class. *)
Definition starts_in (cls : ascii -> bool) (s : string) : bool :=
  match s with
  | EmptyString => false
  | String c _ => cls c
  end.

(** Where the name of an open tag ends: at white space or at [>]. *)
Definition name_end (c : ascii) : bool := is_space c || Ascii.eqb c ">".

(** An XML declaration at the start of [s]: [<?xml], white space, and the
    text up to the first [?>].  The result is the text that follows. *)
Definition xml_declaration (s : string) : option (unit * string) :=
  match strip_prefix "<?xml" s with
  | Some r =>
      if starts_in is_space r then
        match cut "?>" r with
        | Some (_, rest) => Some (tt, rest)
        | None => None
        end
      else None
  | None => None
  end.

(** Whether the text read so far in a tag has left an attribute value
    open, and with which quote. *)
Inductive quoting : Type := Unquoted | Double_quoted | Single_quoted.

Definition quote_step (q : quoting) (c : ascii) : quoting :=
  match q with
  | Unquoted =>
      if Ascii.eqb c "034" then Double_quoted
      else if Ascii.eqb c "039" then Single_quoted
           else Unquoted
  | Double_quoted => if Ascii.eqb c "034" then Unquoted else Double_quoted
  | Single_quoted => if Ascii.eqb c "039" then Unquoted else Single_quoted
  end.

Fixpoint quoting_after (q : quoting) (s : string) : quoting :=
  match s with
  | EmptyString => q
  | String c s' => quoting_after (quote_step q c) s'
  end.

(** No attribute value is left open at the end of [s]. *)
Definition unquoted (s : string) : bool :=
  match quoting_after Unquoted s with
  | Unquoted => true
  | _ => false
  end.

(** The text after the [>] that ends a tag: the first [>] that is not
    inside a quoted attribute value. *)
Fixpoint tag_end (q : quoting) (s : string) : option string :=
  match s with
  | EmptyString => None
  | String c s' =>
      match q with
      | Unquoted =>
          if Ascii.eqb c ">" then Some s' else tag_end (quote_step q c) s'
      | _ => tag_end (quote_step q c) s'
      end
  end.

(** An open tag of the element [robot] at the start of [s]: [<robot], the
    end of the name, and the text up to the [>] that ends the tag. *)
Definition robot_open_tag (s : string) : option (unit * string) :=
  match strip_prefix "<robot" s with
  | Some r =>
      if starts_in name_end r then
        match tag_end Unquoted r with
        | Some rest => Some (tt, rest)
        | None => None
        end
      else None
  | None => None
  end.

(** [s] without its leading white space. *)
Fixpoint skip_spaces (s : string) : string :=
  match s with
  | EmptyString => EmptyString
  | String c s' => if is_space c then skip_spaces s' else s
  end.

(** A close tag of the element [robot] at the start of [s]: [</robot],
    optional white space, and [>]. *)
Definition robot_close_tag (s : string) : option (unit * string) :=
  match strip_prefix "</robot" s with
  | Some r =>
      match skip_spaces r with
      | EmptyString => None
      | String c rest => if Ascii.eqb c ">" then Some (tt, rest) else None
      end
  | None => None
  end.

(** [without tag s]: [s] without any occurrence of the tag, found from left
    to right. *)
Definition without (tag : string -> option (unit * string)) (s : string)
  : string :=
  replace_all tag "" s.

(** Every declaration, then every open tag, then every close tag goes. *)
Definition strip_tags (includeContent : string) : string :=
  without robot_close_tag
    (without robot_open_tag (without xml_declaration includeContent)).

(** *** Stripping only the outermost wrapper *)

(** [s] without the first occurrence of the tag. *)
Fixpoint remove_first (tag : string -> option (unit * string)) (s : string)
  : string :=
  match tag s with
  | Some (_, rest) => rest
  | None =>
      match s with
      | EmptyString => EmptyString
      | String c s' => String c (remove_first tag s')
      end
  end.

(** The tag occurs somewhere in [s]. *)
Fixpoint occurs (tag : string -> option (unit * string)) (s : string)
  : bool :=
  match tag s with
  | Some _ => true
  | None =>
      match s with
      | EmptyString => false
      | String _ s' => occurs tag s'
      end
  end.

(** [s] without the last occurrence of the tag. *)
Fixpoint remove_last (tag : string -> option (unit * string)) (s : string)
  : string :=
  match s with
  | EmptyString => EmptyString
  | String c s' =>
      if occurs tag s' then String c (remove_last tag s')
      else match tag s with
           | Some (_, rest) => rest
           | None => s
           end
  end.

(** The first declaration, the first open tag and the last close tag go;
    any other occurrence stays. *)
Definition strip_outermost (includeContent : string) : string :=
  remove_last robot_close_tag
    (remove_first robot_open_tag
       (remove_first xml_declaration includeContent)).

(** *** Tags written plainly *)

(** The first line of [s]. *)
Fixpoint line_of (s : string) : string :=
  match s with
  | EmptyString => EmptyString
  | String c s' => if dot c then String c (line_of s') else EmptyString
  end.

(** If [s] starts with [<?xml], white space follows, and if a [?>] follows,
    the first one comes before the end of the line and is the only one of
    that line. *)
Definition declaration_on_one_line (s : string) : bool :=
  match strip_prefix "<?xml" s with
  | None => true
  | Some r =>
      starts_in is_space r
      && match cut "?>" r with
         | None => true
         | Some (body, rest) =>
             all_chars dot body && negb (includes (line_of rest) "?>")
         end
  end.

(** If [s] starts with [<robot], the name ends there, and if a [>]
    follows, the first one comes before the end of the line and outside
    the quotes of an attribute value. *)
Definition open_tag_on_one_line (s : string) : bool :=
  match strip_prefix "<robot" s with
  | None => true
  | Some r =>
      starts_in name_end r
      && match cut ">" r with
         | None => true
         | Some (attrs, _) => all_chars dot attrs && unquoted attrs
         end
  end.

(** If a close tag starts [s], it is written [</robot>], without white
    space. *)
Definition close_tag_plain (s : string) : bool :=
  match robot_close_tag s with
  | None => true
  | Some _ => startsWith s "</robot>"
  end.

(** The test holds at every position of [s]. *)
Fixpoint everywhere (test : string -> bool) (s : string) : bool :=
  test s
  && match s with
     | EmptyString => true
     | String _ s' => everywhere test s'
     end.

(** Every declaration of the content is on one line; so is every open tag
    of what is left without the declarations; and every close tag of what
    is left without the open tags is written without white space. *)
Definition plain_tags (includeContent : string) : bool :=
  everywhere declaration_on_one_line includeContent
  && everywhere open_tag_on_one_line
       (without xml_declaration includeContent)
  && everywhere close_tag_plain
       (without robot_open_tag (without xml_declaration includeContent)).

End ResolverSpec.

(** ** A concrete host for the examples

    Node's [path] module in its POSIX flavour, and a file system given by a
    table of paths. *)

Module Posix.

(** [normalizeString]: resolve [.] and [..] segments and drop empty ones. *)
Fixpoint normalize_segments (allowAboveRoot : bool)
    (kept_rev segments : list string) : list string :=
  match segments with
  | [] => List.rev kept_rev
  | seg :: rest =>
      if String.eqb seg "" || String.eqb seg "." then
        normalize_segments allowAboveRoot kept_rev rest
      else if String.eqb seg ".." then
        match kept_rev with
        | top :: kept' =>
            if String.eqb top ".." then
              normalize_segments allowAboveRoot (".." :: kept_rev) rest
            else normalize_segments allowAboveRoot kept' rest
        | [] =>
            if allowAboveRoot then
              normalize_segments allowAboveRoot [".."] rest
            else normalize_segments allowAboveRoot [] rest
        end
      else normalize_segments allowAboveRoot (seg :: kept_rev) rest
  end.

Definition normalizeString (path : string) (allowAboveRoot : bool) : string :=
  String.concat "/" (normalize_segments allowAboveRoot [] (split "/" path)).

Definition isAbsolute (path : string) : bool := startsWith path "/".

(** [path.normalize] *)
Definition normalize (path : string) : string :=
  match path with
  | EmptyString => "."
  | _ =>
      let trailingSeparator := endsWith path "/" in
      let res := normalizeString path (negb (isAbsolute path)) in
      match res with
      | EmptyString =>
          if isAbsolute path then "/"
          else if trailingSeparator then "./" else "."
      | _ =>
          let res' := if trailingSeparator then res ++ "/" else res in
          if isAbsolute path then "/" ++ res' else res'
      end
  end.

(** [path.join(a, b, c)] *)
Definition join (a b c : string) : string :=
  match List.filter truthy [a; b; c] with
  | [] => "."
  | parts => normalize (String.concat "/" parts)
  end.

(** [path.resolve(a, b)] in a process whose working directory is [cwd]. *)
Definition resolve (cwd a b : string) : string :=
  let step (path : string) (acc : string * bool) : string * bool :=
    let '(resolvedPath, resolvedAbsolute) := acc in
    if resolvedAbsolute then acc
    else if truthy path then (path ++ "/" ++ resolvedPath, isAbsolute path)
    else acc in
  let '(resolvedPath, resolvedAbsolute) :=
    step cwd (step a (step b (EmptyString, false))) in
  let res := normalizeString resolvedPath (negb resolvedAbsolute) in
  if resolvedAbsolute then "/" ++ res
  else if truthy res then res else ".".

(** [path.dirname(p)]: scanning from the end, trailing slashes are passed
    over, then the last segment, and the path is cut at the slash found
    there. *)
Fixpoint strip_trailing_slashes (rev_path : list ascii) : list ascii :=
  match rev_path with
  | c :: rest =>
      if Ascii.eqb c "/" then strip_trailing_slashes rest else rev_path
  | [] => []
  end.

Fixpoint skip_segment (rev_path : list ascii) : list ascii :=
  match rev_path with
  | c :: rest => if Ascii.eqb c "/" then rev_path else skip_segment rest
  | [] => []
  end.

Definition dirname (path : string) : string :=
  match path with
  | EmptyString => "."
  | String c body =>
      let hasRoot := Ascii.eqb c "/" in
      match skip_segment
              (strip_trailing_slashes (List.rev (list_ascii_of_string body)))
      with
      | [] => if hasRoot then "/" else "."
      | _ :: kept_rev =>
          match kept_rev with
          | [] => if hasRoot then "//" else String c EmptyString
          | _ => String c (string_of_list_ascii (List.rev kept_rev))
          end
      end
  end.

(** What a path of the table holds. *)
Inductive node : Type :=
| TextFile (content : string)
| Directory.

Fixpoint lookup (table : list (string * node)) (p : string) : option node :=
  match table with
  | [] => None
  | (q, n) :: rest => if String.eqb q p then Some n else lookup rest p
  end.

Definition exists_in (table : list (string * node)) (p : string) : bool :=
  match lookup table p with Some _ => true | None => false end.

Definition read_from (table : list (string * node)) (p : string)
  : string + string :=
  match lookup table p with
  | Some (TextFile content) => inl content
  | Some Directory => inr "EISDIR: illegal operation on a directory, read"
  | None => inr ("ENOENT: no such file or directory, open '" ++ p ++ "'")
  end.

(** The host whose working directory is [/srv] and whose files are those of
    [table]. *)
Definition host_of (table : list (string * node)) : Resolver.Host :=
  {| Resolver.path_join := join;
     Resolver.path_resolve := resolve "/srv";
     Resolver.path_dirname := dirname;
     Resolver.existsSync := exists_in table;
     Resolver.readFileSync := read_from table |}.

End Posix.

(** ** Example documents and file systems *)

Module Examples.
Import Resolver Posix.

(** The text of a directive. *)
Definition directive (filename : string) : string :=
  "<xacro:include filename=" ++ dq ++ filename ++ dq ++ "/>".

(** A robot description nested in another one. *)
Definition nested_robot : string :=
  "<robot name=a><robot name=b><link/></robot></robot>".

(** An included file as they are written: a declaration, a comment, and
    the container over several lines. *)
Definition arm_file : string :=
  "<?xml version=1?>" ++ String "010" ""
  ++ "<!-- arm -->" ++ String "010" ""
  ++ "<robot name=arm>" ++ String "010" ""
  ++ "  <link name=arm/>" ++ String "010" ""
  ++ "</robot>" ++ String "010" "".

(** An open tag that runs over two lines. *)
Definition two_line_tag : string :=
  "<robot" ++ String "010" "" ++ " name=arm><link/></robot>".

(** A document whose first directive names a directory. *)
Definition unreadable_then_sibling : string :=
  directive "meshes" ++ directive "parts/arm.xacro".

(** [main.xacro] includes [arm.xacro], which includes [hand.xacro] through
    the package macro; [meshes] is a directory, which [broken.xacro]
    includes. *)
Definition chain_table : list (string * node) :=
  [ ("/pub/main.xacro",
     TextFile ("<robot name=r>" ++ directive "parts/arm.xacro" ++ "</robot>"));
    ("/pub/parts/arm.xacro",
     TextFile ("<robot name=arm><link name=arm/>"
               ++ directive "$(find tools)/hand.xacro" ++ "</robot>"));
    ("/pub/tools/hand.xacro",
     TextFile "<?xml version=1?><robot name=hand><link name=hand/></robot>");
    ("/pub/meshes", Directory);
    ("/pub/broken.xacro", TextFile unreadable_then_sibling) ].

Definition chain_host : Host := host_of chain_table.

Definition chain_rank (p : string) : nat :=
  if String.eqb p "/pub/main.xacro" then 2
  else if String.eqb p "/pub/broken.xacro" then 2
  else if String.eqb p "/pub/parts/arm.xacro" then 1
  else 0.

(** A document with a directive that resolves and one whose file is
    missing. *)
Definition two_directives : string :=
  "<a/>" ++ directive "parts/arm.xacro" ++ "<b/>"
  ++ directive "gone.xacro" ++ "<c/>".

(** [loop.xacro] includes itself. *)
Definition loop_doc : string := directive "loop.xacro".

Definition loop_host : Host :=
  host_of [("/pub/loop.xacro", TextFile loop_doc)].

End Examples.

(** ** The matcher: which keys it can return *)

Module MatcherSpec.
Import Matcher.

(** A key matches the target under a strategy the code runs: the file-name
    test counts only for a non-empty file name. *)
Definition matches_guarded (target key : string) : bool :=
  String.eqb key target
  || accepts_scheme_stripped (strip_scheme target) key
  || (truthy (final_segment (strip_scheme target))
      && accepts_filename (final_segment (strip_scheme target)) key).

(** The keys of a map, in insertion order. *)
Definition keys (File : Type) (fileMap : FileMap File) : list string :=
  List.map fst fileMap.

End MatcherSpec.

(** ** The resolver: the syntax of a directive *)

Module DirectiveSyntax.
Import Resolver.

(** The text of an include directive with the given file name: the tag
    name, white space, the [filename] attribute in double quotes, optional
    white space, and the end of the tag. *)
Definition directive_span (span filename : string) : Prop :=
  exists ws1 ws2,
    span = "<xacro:include" ++ ws1 ++ "filename=" ++ dq ++ filename ++ dq
           ++ ws2 ++ "/>"
    /\ ws1 <> ""
    /\ all_chars is_space ws1 = true
    /\ all_chars is_space ws2 = true
    /\ filename <> ""
    /\ has_char "034" filename = false.

(** A text that does not start with a character of the class. *)
Definition starts_outside (cls : ascii -> bool) (t : string) : Prop :=
  match t with
  | EmptyString => True
  | String x _ => cls x = false
  end.


End DirectiveSyntax.

(** ** Collecting the dropped files (client side) *)

Module DropCollector.
Import Matcher Resolver.

(** [fileMap.set(key, value)]: a key already present keeps its place and
    takes the new value, a new key goes last. *)
Fixpoint map_set (File : Type) (key : string) (value : File)
    (fileMap : FileMap File) : FileMap File :=
  match fileMap with
  | [] => [(key, value)]
  | (k, v) :: rest =>
      if String.eqb k key then (k, value) :: rest
      else (k, v) :: map_set key value rest
  end.

Section WithFile.

Variable File : Type.

(** A [FileSystemEntry].  A file entry carries what [entry.file] calls back
    with: the file, or the error it rejects with.  A directory entry
    carries what the successive [readEntries] calls of its reader give: the
    batches in turn, then the rejection [failure] if there is one, then the
    empty array. *)
#[warnings="-register-all"]
Inductive entry : Type :=
| FileEntry (fullPath : string) (file : File + string)
| DirectoryEntry (fullPath : string) (batches : list (list entry))
                 (failure : option string)
| OtherEntry (fullPath : string).

(** [readAllEntries(dirReader)]: batches are read and appended until an
    empty one comes. *)
Fixpoint readAllEntries (batches : list (list entry))
    (failure : option string) : list entry + string :=
  match batches with
  | [] =>
      match failure with
      | Some message => inr message
      | None => inl []
      end
  | [] :: _ => inl []
  | (e :: es) :: rest =>
      match readAllEntries rest failure with
      | inl entries => inl ((e :: es) ++ entries)%list
      | inr message => inr message
      end
  end.

(** [entry.fullPath.startsWith('/') ? entry.fullPath.slice(1)
    : entry.fullPath] *)
Definition relative_key (fullPath : string) : string :=
  if startsWith fullPath "/" then drop 1 fullPath else fullPath.

(** The [while (queue.length > 0)] loop; [fuel] bounds the number of its
    iterations. *)
Fixpoint drain (fuel : nat) (queue : list entry) (fileMap : FileMap File)
  : outcome (FileMap File) :=
  match queue with
  | [] => Done fileMap
  | e :: queue' =>
      match fuel with
      | 0 => Out_of_fuel
      | S fuel' =>
          match e with
          | FileEntry fullPath (inl file) =>
              drain fuel' queue' (map_set (relative_key fullPath) file fileMap)
          | FileEntry _ (inr message) => Thrown message
          | DirectoryEntry _ batches failure =>
              match readAllEntries batches failure with
              | inl entries => drain fuel' (queue' ++ entries)%list fileMap
              | inr message => Thrown message
              end
          | OtherEntry _ => drain fuel' queue' fileMap
          end
      end
  end.

(** The first loop: the items whose [webkitGetAsEntry()] is not null. *)
Fixpoint initial_queue (items : list (option entry)) : list entry :=
  match items with
  | [] => []
  | Some e :: rest => e :: initial_queue rest
  | None :: rest => initial_queue rest
  end.

Definition getAllFiles (fuel : nat) (items : list (option entry))
  : outcome (FileMap File) :=
  drain fuel (initial_queue items) [].

(** *** Measures and predicates on a drop *)

(** The number of entries in the tree of an entry. *)
Fixpoint entry_size (e : entry) : nat :=
  match e with
  | DirectoryEntry _ batches _ =>
      S (list_sum
           (List.map (fun batch => list_sum (List.map entry_size batch))
                     batches))
  | _ => 1
  end.

Definition queue_size (queue : list entry) : nat :=
  list_sum (List.map entry_size queue).

(** Every file of the tree can be read and no listing fails. *)
Fixpoint readable (e : entry) : bool :=
  match e with
  | FileEntry _ (inl _) => true
  | FileEntry _ (inr _) => false
  | DirectoryEntry _ batches failure =>
      match failure with
      | Some _ => false
      | None => forallb (forallb readable) batches
      end
  | OtherEntry _ => true
  end.

(** [under e e']: the traversal that starts at [e] comes to [e']. *)
Inductive under : entry -> entry -> Prop :=
| under_self e : under e e
| under_listed fullPath batches failure entries e1 e2 :
    readAllEntries batches failure = inl entries ->
    In e1 entries ->
    under e1 e2 ->
    under (DirectoryEntry fullPath batches failure) e2.

(** A batch that holds at least one entry. *)
Definition nonempty (batch : list entry) : bool :=
  match batch with [] => false | _ :: _ => true end.

(** The keys of the files the traversal of a queue comes to. *)
Definition queue_key (queue : list entry) (key : string) : Prop :=
  exists e fullPath file,
    In e queue /\ under e (FileEntry fullPath (inl file))
    /\ key = relative_key fullPath.

(** The key under which the files of a drop are stored. *)
Definition dropped_key (items : list (option entry)) (key : string) : Prop :=
  exists top fullPath file,
    In (Some top) items
    /\ under top (FileEntry fullPath (inl file))
    /\ key = relative_key fullPath.

End WithFile.

(** A robot folder with a nested mesh folder, dropped beside a loose
    file. *)
Definition example_drop : list (option (entry handle)) :=
  [ Some (DirectoryEntry "/robot"
            [ [ FileEntry "/robot/robot.urdf" (inl F1);
                DirectoryEntry "/robot/meshes"
                  [ [ FileEntry "/robot/meshes/base.stl" (inl F2) ] ] None ] ]
            None);
    None;
    Some (FileEntry "/notes.txt" (inl F1)) ].

End DropCollector.

(** ** Listing the sample files (server and manifest script) *)

Module Listing.
Import Resolver.

(** What the listings use of Node's [fs] and [path] modules. *)
Record DirHost : Type := {
  (** [fs.existsSync(p)] *)
  fs_existsSync : string -> bool;
  (** [fs.readdirSync(p)]: the names, or the message of the error thrown *)
  fs_readdirSync : string -> list string + string;
  (** [fs.statSync(p).isDirectory()], or the message of the error thrown *)
  fs_isDirectory : string -> bool + string;
  (** [path.join(a, b)] *)
  path_join2 : string -> string -> string;
  (** [path.relative(from, to)] *)
  path_relative : string -> string -> string
}.

Definition backslash : ascii := "092"%char.

(** [res] is [acc] with entries appended that all satisfy [P]. *)
Definition extends (P : string -> Prop) (acc res : list string) : Prop :=
  exists added, res = (acc ++ added)%list /\ Forall P added.

(** [s.replace(/\\/g, '/')]: every backslash becomes a slash. *)
Definition backslashRegex (s : string) : option (unit * string) :=
  lit (String "092"%char EmptyString) (fun rest => Some (tt, rest)) s.

Definition to_slashes (s : string) : string :=
  replace_all backslashRegex "/" s.

(** [c.toLowerCase()] on a code unit below 256. *)
Definition lower_char (c : ascii) : ascii :=
  let n := nat_of_ascii c in
  if ((65 <=? n) && (n <=? 90))%nat then ascii_of_nat (n + 32)
  else if ((192 <=? n) && (n <=? 222) && negb (n =? 215))%nat
       then ascii_of_nat (n + 32)
       else c.

(** [s.toLowerCase()] *)
Fixpoint toLowerCase (s : string) : string :=
  match s with
  | EmptyString => EmptyString
  | String c s' => String (lower_char c) (toLowerCase s')
  end.

Section WithHost.

Variable host : DirHost.

(** The name filter of the server. *)
Definition server_accepts (file : string) : bool :=
  endsWith file ".urdf" || endsWith file ".xacro".

(** The name filter of the manifest script. *)
Definition manifest_accepts (file : string) : bool :=
  endsWith (toLowerCase file) ".urdf".

(** *** The server's [getFiles]

    The [forEach] over a directory listing.  [None] stands for a recursion
    cut by the lack of fuel.  An error thrown by [statSync] ends the loop:
    it is caught by the [try] of the enclosing call, which returns the
    array as it is then. *)
Fixpoint server_each
    (recurse : string -> list string -> option (list string))
    (publicPath dir : string) (files : list string) (allFiles : list string)
  : option (list string) :=
  match files with
  | [] => Some allFiles
  | file :: rest =>
      let name := path_join2 host dir file in
      match fs_isDirectory host name with
      | inr _ => Some allFiles
      | inl true =>
          match recurse name allFiles with
          | Some allFiles' => server_each recurse publicPath dir rest allFiles'
          | None => None
          end
      | inl false =>
          if server_accepts file then
            server_each recurse publicPath dir rest
              (allFiles
               ++ [to_slashes (path_relative host publicPath name)])%list
          else server_each recurse publicPath dir rest allFiles
      end
  end.

(** [getFiles(dir, allFiles)] of the server; [publicPath] is
    [path.resolve(__dirname, '..', 'public')]. *)
Fixpoint getFiles (fuel : nat) (publicPath dir : string)
    (allFiles : list string) : option (list string) :=
  if negb (fs_existsSync host dir) then Some allFiles
  else
    match fs_readdirSync host dir with
    | inr _ => Some allFiles
    | inl files =>
        server_each
          (fun name acc =>
             match fuel with
             | 0 => None
             | S fuel' => getFiles fuel' publicPath name acc
             end)
          publicPath dir files allFiles
    end.

(** The call that [getFiles fuel] makes for a sub-directory. *)
Definition server_nested (fuel : nat) (publicPath : string)
  : string -> list string -> option (list string) :=
  fun name acc =>
    match fuel with
    | 0 => None
    | S fuel' => getFiles fuel' publicPath name acc
    end.

(** *** The manifest script's [getFiles] and the manifest

    Nothing is caught here: an error of [readdirSync] or [statSync] ends
    the script. *)
Fixpoint manifest_each
    (recurse : string -> list string -> outcome (list string))
    (dir : string) (files : list string) (fileList : list string)
  : outcome (list string) :=
  match files with
  | [] => Done fileList
  | file :: rest =>
      let filePath := path_join2 host dir file in
      match fs_isDirectory host filePath with
      | inr message => Thrown message
      | inl true =>
          match recurse filePath fileList with
          | Done fileList' => manifest_each recurse dir rest fileList'
          | other => other
          end
      | inl false =>
          if manifest_accepts file then
            manifest_each recurse dir rest (fileList ++ [filePath])%list
          else manifest_each recurse dir rest fileList
      end
  end.

Fixpoint manifest_getFiles (fuel : nat) (dir : string)
    (fileList : list string) : outcome (list string) :=
  match fs_readdirSync host dir with
  | inr message => Thrown message
  | inl files =>
      manifest_each
        (fun filePath acc =>
           match fuel with
           | 0 => Out_of_fuel
           | S fuel' => manifest_getFiles fuel' filePath acc
           end)
        dir files fileList
  end.

Definition manifest_nested (fuel : nat)
  : string -> list string -> outcome (list string) :=
  fun filePath acc =>
    match fuel with
    | 0 => Out_of_fuel
    | S fuel' => manifest_getFiles fuel' filePath acc
    end.

(** [allUrdfFiles.map(f => path.relative(PUBLIC_DIR, f).replace(/\\/g,
    '/'))] *)
Definition manifest_of (publicDir : string) (allUrdfFiles : list string)
  : list string :=
  List.map (fun f => to_slashes (path_relative host publicDir f)) allUrdfFiles.

(** *** Directory trees *)

(** [rank] decreases from every directory to each of its sub-directories:
    the directories form a tree of finite depth. *)
Definition tree_like (rank : string -> nat) : Prop :=
  forall dir files file,
    fs_readdirSync host dir = inl files ->
    In file files ->
    fs_isDirectory host (path_join2 host dir file) = inl true ->
    rank (path_join2 host dir file) < rank dir.

(** An entry the server adds for a file of some directory. *)
Definition server_entry (publicPath entry : string) : Prop :=
  exists dir file,
    server_accepts file = true
    /\ fs_isDirectory host (path_join2 host dir file) = inl false
    /\ entry = to_slashes (path_relative host publicPath
                             (path_join2 host dir file)).

(** A path the manifest script keeps. *)
Definition manifest_entry (filePath : string) : Prop :=
  exists dir file,
    manifest_accepts file = true
    /\ fs_isDirectory host (path_join2 host dir file) = inl false
    /\ filePath = path_join2 host dir file.

End WithHost.

(** A flat description of a disk for the examples: the listing of each
    directory; what is not listed as a directory is a file, and paths are
    joined with a slash or, as on Windows, a backslash. *)
Definition table_host (sep : string) (dirs : list (string * list string))
  : DirHost :=
  let listing p :=
    List.find (fun d => String.eqb (fst d) p) dirs in
  {| fs_existsSync := fun p =>
       match listing p with Some _ => true | None => false end;
     fs_readdirSync := fun p =>
       match listing p with
       | Some d => inl (snd d)
       | None => inr "ENOTDIR: not a directory, scandir"
       end;
     fs_isDirectory := fun p =>
       match listing p with Some _ => inl true | None => inl false end;
     path_join2 := fun a b => a ++ sep ++ b;
     path_relative := fun from to =>
       match strip_prefix (from ++ sep) to with
       | Some rest => rest
       | None => to
       end |}.

Definition example_disk : DirHost :=
  table_host (String "092"%char EmptyString)
    [ ("C:pub", ["arm.urdf"; "robots"; "README.md"]);
      (String.concat (String "092"%char EmptyString) ["C:pub"; "robots"],
       ["g1.xacro"; "OLD.URDF"]) ].

Definition example_rank (p : string) : nat :=
  if String.eqb p "C:pub" then 1 else 0.

End Listing.

(** ** The kinematic graph view (client side)

    JavaScript numbers are modelled by rationals: the layout only adds,
    multiplies by constants and halves, which is exact on doubles as long
    as the coordinates stay small. *)

From Stdlib Require Import QArith Lqa.
Close Scope Q_scope.
Import JsString Regex.

Module StructureTree.

(** A three.js [Object3D], as far as the view looks at it. *)
#[warnings="-register-all"]
Inductive Object3D : Type :=
| Obj (uuid name : string) (isURDFJoint isURDFLink : bool)
      (children : list Object3D).

Definition obj_uuid (o : Object3D) : string :=
  match o with Obj uuid _ _ _ _ => uuid end.

Definition isJoint (o : Object3D) : bool :=
  match o with Obj _ _ isURDFJoint _ _ => isURDFJoint end.

Definition isLink (o : Object3D) : bool :=
  match o with Obj _ _ _ isURDFLink _ => isURDFLink end.

Inductive node_type : Type := link | joint.

(** [TreeNodeData] *)
#[warnings="-register-all"]
Inductive TreeNodeData : Type :=
| TreeNode (id name : string) (type : node_type) (object : Object3D)
           (children : list TreeNodeData)
           (x y width height : Q)
           (collapsed hasChildren : bool).

Definition node_id (n : TreeNodeData) : string :=
  match n with TreeNode id _ _ _ _ _ _ _ _ _ _ => id end.
Definition node_name (n : TreeNodeData) : string :=
  match n with TreeNode _ name _ _ _ _ _ _ _ _ _ => name end.
Definition node_object (n : TreeNodeData) : Object3D :=
  match n with TreeNode _ _ _ object _ _ _ _ _ _ _ => object end.
Definition node_children (n : TreeNodeData) : list TreeNodeData :=
  match n with TreeNode _ _ _ _ children _ _ _ _ _ _ => children end.
Definition node_x (n : TreeNodeData) : Q :=
  match n with TreeNode _ _ _ _ _ x _ _ _ _ _ => x end.
Definition node_y (n : TreeNodeData) : Q :=
  match n with TreeNode _ _ _ _ _ _ y _ _ _ _ => y end.
Definition node_width (n : TreeNodeData) : Q :=
  match n with TreeNode _ _ _ _ _ _ _ width _ _ _ => width end.
Definition node_height (n : TreeNodeData) : Q :=
  match n with TreeNode _ _ _ _ _ _ _ _ height _ _ => height end.
Definition node_collapsed (n : TreeNodeData) : bool :=
  match n with TreeNode _ _ _ _ _ _ _ _ _ collapsed _ => collapsed end.
Definition node_hasChildren (n : TreeNodeData) : bool :=
  match n with TreeNode _ _ _ _ _ _ _ _ _ _ hasChildren => hasChildren end.

(** [array.length === 0] *)
Definition is_empty (A : Type) (l : list A) : bool :=
  match l with [] => true | _ :: _ => false end.

(** The [forEach] of [buildTreeData]: the nodes of the children that give
    one. *)
Fixpoint keep_nodes (results : list (option TreeNodeData))
  : list TreeNodeData :=
  match results with
  | [] => []
  | Some node :: rest => node :: keep_nodes rest
  | None :: rest => keep_nodes rest
  end.

Fixpoint buildTreeData (object : Object3D) : option TreeNodeData :=
  match object with
  | Obj uuid name isURDFJoint isURDFLink children =>
      if negb isURDFJoint && negb isURDFLink && is_empty children then None
      else
        let childNodes := keep_nodes (List.map buildTreeData children) in
        if negb isURDFJoint && negb isURDFLink then
          match childNodes with
          | [] => None
          | [only] => Some only
          | _ :: _ :: _ =>
              Some (TreeNode "root" "Robot Root" link object childNodes
                             0%Q 0%Q 0%Q 0%Q false true)
          end
        else
          Some (TreeNode uuid
                  (if truthy name then name
                   else if isURDFJoint then "Unnamed Joint"
                        else "Unnamed Link")
                  (if isURDFJoint then joint else link)
                  object childNodes 0%Q 0%Q 0%Q 0%Q false
                  (negb (is_empty childNodes)))
  end.

(** *** Layout *)

Definition NODE_WIDTH : Q := 160%Q.
Definition NODE_HEIGHT : Q := 45%Q.
Definition GAP_X : Q := 20%Q.
Definition GAP_Y : Q := 60%Q.

(** [collapsedMap.has(id)] on a [Set<string>], listed in insertion
    order. *)
Definition set_has (id : string) (s : list string) : bool :=
  List.existsb (String.eqb id) s.

(** [s.delete(id)] *)
Definition set_delete (id : string) (s : list string) : list string :=
  List.filter (fun k => negb (String.eqb id k)) s.

(** [s.add(id)] *)
Definition set_add (id : string) (s : list string) : list string :=
  if set_has id s then s else (s ++ [id])%list.

(** [calculateLayout(node, depth, startX, collapsedMap)]: the node as the
    call leaves it, and the number returned.  The children of a collapsed
    node are not visited and keep what an earlier layout gave them. *)
Fixpoint calculateLayout (node : TreeNodeData) (depth : nat) (startX : Q)
    (collapsedMap : list string) : TreeNodeData * Q :=
  match node with
  | TreeNode id name type object children x _ _ _ _ hasChildren =>
      let y' :=
        (inject_Z (Z.of_nat depth) * (NODE_HEIGHT + GAP_Y) + 50)%Q in
      let collapsed' := set_has id collapsedMap in
      if is_empty children || collapsed' then
        (TreeNode id name type object children startX y'
                  NODE_WIDTH NODE_HEIGHT collapsed' hasChildren,
         (startX + NODE_WIDTH + GAP_X)%Q)
      else
        let '(children', currentX) :=
          (fix each (cs : list TreeNodeData) (currentX : Q)
             : list TreeNodeData * Q :=
             match cs with
             | [] => ([], currentX)
             | child :: rest =>
                 let '(child', next) :=
                   calculateLayout child (S depth) currentX collapsedMap in
                 let '(rest', final) := each rest next in
                 (child' :: rest', final)
             end) children startX in
        let x' :=
          match children' with
          | [] => x
          | firstChild :: _ =>
              ((node_x firstChild
                + node_x (List.last children' firstChild)) / 2)%Q
          end in
        (TreeNode id name type object children' x' y'
                  NODE_WIDTH NODE_HEIGHT collapsed' hasChildren,
         currentX)
  end.

(** The [forEach] of [calculateLayout] over the children. *)
Fixpoint layout_children (cs : list TreeNodeData) (depth : nat)
    (currentX : Q) (collapsedMap : list string) : list TreeNodeData * Q :=
  match cs with
  | [] => ([], currentX)
  | child :: rest =>
      let '(child', next) :=
        calculateLayout child depth currentX collapsedMap in
      let '(rest', final) := layout_children rest depth next collapsedMap in
      (child' :: rest', final)
  end.

(** [toggleCollapse(e, node)] as the update of the set of collapsed
    identifiers. *)
Definition toggleCollapse (node : TreeNodeData) (prev : list string)
  : list string :=
  if negb (node_hasChildren node) then prev
  else if set_has (node_id node) prev then set_delete (node_id node) prev
       else set_add (node_id node) prev.

(** *** Measures on trees *)

(** The objects of a scene graph, parents first. *)
Fixpoint objects (o : Object3D) : list Object3D :=
  match o with
  | Obj _ _ _ _ children => o :: List.flat_map objects children
  end.

Definition is_urdf (o : Object3D) : bool := isJoint o || isLink o.

(** The identifiers of the links and joints of a scene graph, parents
    first. *)
Definition urdf_uuids (o : Object3D) : list string :=
  List.map obj_uuid (List.filter is_urdf (objects o)).

(** The nodes of a tree, parents first. *)
Fixpoint nodes (n : TreeNodeData) : list TreeNodeData :=
  match n with
  | TreeNode _ _ _ _ children _ _ _ _ _ _ =>
      n :: List.flat_map nodes children
  end.

(** The nodes that stand for a link or a joint. *)
Definition stands_for_urdf (n : TreeNodeData) : bool :=
  is_urdf (node_object n).

(** The identifiers of the nodes of a tree that stand for a link or a
    joint, parents first. *)
Definition real_ids (n : TreeNodeData) : list string :=
  List.map node_id (List.filter stands_for_urdf (nodes n)).

Definition tree_ids (t : option TreeNodeData) : list string :=
  match t with
  | None => []
  | Some n => real_ids n
  end.

(** What holds of every node that [buildTreeData] makes. *)
Definition fresh_node (n : TreeNodeData) : Prop :=
  node_hasChildren n = negb (is_empty (node_children n))
  /\ node_collapsed n = false
  /\ node_name n <> ""
  /\ (stands_for_urdf n = false -> 2 <= List.length (node_children n)).

(** The number of boxes drawn side by side under a node: its leaves and
    its collapsed nodes. *)
Fixpoint columns (collapsedMap : list string) (n : TreeNodeData) : nat :=
  match n with
  | TreeNode id _ _ _ children _ _ _ _ _ _ =>
      if is_empty children || set_has id collapsedMap then 1%nat
      else list_sum (List.map (columns collapsedMap) children)
  end.

(** [renderNodes]: the corners of the boxes drawn for a tree, in the
    order they are drawn.  The children of a collapsed node are not
    drawn. *)
Fixpoint drawn (n : TreeNodeData) : list (Q * Q) :=
  match n with
  | TreeNode _ _ _ _ children x y _ _ collapsed _ =>
      (x, y) :: (if negb collapsed then List.flat_map drawn children
                 else [])
  end.

(** The height at which the nodes of a depth are drawn. *)
Definition level (depth : nat) : Q :=
  (inject_Z (Z.of_nat depth) * (NODE_HEIGHT + GAP_Y) + 50)%Q.

(** Two boxes drawn one after the other leave the gap between them: the
    second is to the right of the first, or below it. *)
Definition apart (a b : Q * Q) : Prop :=
  (fst a + NODE_WIDTH + GAP_X <= fst b)%Q
  \/ (snd a + NODE_HEIGHT + GAP_Y <= snd b)%Q.

(** A box lies in the strip that starts at [startX] and ends at [endX],
    at the height of [depth] or lower. *)
Definition within (depth : nat) (startX endX : Q) (p : Q * Q) : Prop :=
  (startX <= fst p)%Q /\ (fst p + NODE_WIDTH + GAP_X <= endX)%Q
  /\ (level depth <= snd p)%Q.

(** A scene graph: a base link with an unnamed joint and a group of two
    links. *)
Definition example_robot : Object3D :=
  Obj "u0" "robot" false false
    [ Obj "u1" "base" false true
        [ Obj "u2" "" true false [ Obj "u3" "arm" false true [] ];
          Obj "g" "group" false false
            [ Obj "u4" "left" false true [];
              Obj "v" "visual" false false [];
              Obj "u5" "right" false true [] ] ] ].

(** A tree as [buildTreeData] makes them: a link with a joint that
    carries two links, and a second joint. *)
Definition example_leaf (id : string) : TreeNodeData :=
  TreeNode id id link (Obj id id false true []) []
           0%Q 0%Q 0%Q 0%Q false false.

Definition example_tree : TreeNodeData :=
  TreeNode "t0" "base" link (Obj "t0" "base" false true [])
    [ TreeNode "t1" "shoulder" joint (Obj "t1" "shoulder" true false [])
        [ example_leaf "t2"; example_leaf "t3" ]
        0%Q 0%Q 0%Q 0%Q false true;
      example_leaf "t4" ]
    0%Q 0%Q 0%Q 0%Q false true.

End StructureTree.

(** ** The keyboard shortcuts of the viewer (client side) *)

Module Shortcuts.
Import Listing.

(** The display options the shortcuts act on. *)
Record DisplayOptions : Type := {
  showWorldAxes : bool;
  showGrid : bool;
  showLinkAxes : bool;
  showJointAxes : bool;
  showCollision : bool;
  wireframe : bool
}.

(** The state a fresh [App] starts from. *)
Definition initial_options : DisplayOptions :=
  {| showWorldAxes := true; showGrid := true; showLinkAxes := false;
     showJointAxes := false; showCollision := false; wireframe := false |}.

(** [document.activeElement?.tagName === 'INPUT'] *)
Definition in_input (activeTag : option string) : bool :=
  match activeTag with
  | Some tag => String.eqb tag "INPUT"
  | None => false
  end.

(** [handleKeyDown(e)], as the update of the display options the setters
    it calls amount to. *)
Definition handleKeyDown (hasCollision : bool) (activeTag : option string)
    (key : string) (st : DisplayOptions) : DisplayOptions :=
  if in_input activeTag then st
  else
    let k := toLowerCase key in
    if String.eqb k "w" then
      {| showWorldAxes := negb (showWorldAxes st);
         showGrid := showGrid st; showLinkAxes := showLinkAxes st;
         showJointAxes := showJointAxes st;
         showCollision := showCollision st; wireframe := wireframe st |}
    else if String.eqb k "g" then
      {| showWorldAxes := showWorldAxes st;
         showGrid := negb (showGrid st); showLinkAxes := showLinkAxes st;
         showJointAxes := showJointAxes st;
         showCollision := showCollision st; wireframe := wireframe st |}
    else if String.eqb k "l" then
      {| showWorldAxes := showWorldAxes st;
         showGrid := showGrid st; showLinkAxes := negb (showLinkAxes st);
         showJointAxes := showJointAxes st;
         showCollision := showCollision st; wireframe := wireframe st |}
    else if String.eqb k "j" then
      {| showWorldAxes := showWorldAxes st;
         showGrid := showGrid st; showLinkAxes := showLinkAxes st;
         showJointAxes := negb (showJointAxes st);
         showCollision := showCollision st; wireframe := wireframe st |}
    else if String.eqb k "c" then
      if hasCollision then
        {| showWorldAxes := showWorldAxes st;
           showGrid := showGrid st; showLinkAxes := showLinkAxes st;
           showJointAxes := showJointAxes st;
           showCollision := negb (showCollision st);
           wireframe := wireframe st |}
      else st
    else if String.eqb k "f" then
      {| showWorldAxes := showWorldAxes st;
         showGrid := showGrid st; showLinkAxes := showLinkAxes st;
         showJointAxes := showJointAxes st;
         showCollision := showCollision st;
         wireframe := negb (wireframe st) |}
    else st.

(** The options a shortcut can switch, and the switch read as a table:
    the option a key press switches, if any. *)
Inductive option_name : Type :=
| WorldAxes | Grid | LinkAxes | JointAxes | Collision | Wireframe.

Definition switched (hasCollision : bool) (activeTag : option string)
    (key : string) : option option_name :=
  if in_input activeTag then None
  else
    let k := toLowerCase key in
    if String.eqb k "w" then Some WorldAxes
    else if String.eqb k "g" then Some Grid
    else if String.eqb k "l" then Some LinkAxes
    else if String.eqb k "j" then Some JointAxes
    else if String.eqb k "c" then
      if hasCollision then Some Collision else None
    else if String.eqb k "f" then Some Wireframe
    else None.

Definition switch (o : option option_name) (st : DisplayOptions)
  : DisplayOptions :=
  match o with
  | None => st
  | Some WorldAxes =>
      {| showWorldAxes := negb (showWorldAxes st);
         showGrid := showGrid st; showLinkAxes := showLinkAxes st;
         showJointAxes := showJointAxes st;
         showCollision := showCollision st; wireframe := wireframe st |}
  | Some Grid =>
      {| showWorldAxes := showWorldAxes st;
         showGrid := negb (showGrid st); showLinkAxes := showLinkAxes st;
         showJointAxes := showJointAxes st;
         showCollision := showCollision st; wireframe := wireframe st |}
  | Some LinkAxes =>
      {| showWorldAxes := showWorldAxes st;
         showGrid := showGrid st; showLinkAxes := negb (showLinkAxes st);
         showJointAxes := showJointAxes st;
         showCollision := showCollision st; wireframe := wireframe st |}
  | Some JointAxes =>
      {| showWorldAxes := showWorldAxes st;
         showGrid := showGrid st; showLinkAxes := showLinkAxes st;
         showJointAxes := negb (showJointAxes st);
         showCollision := showCollision st; wireframe := wireframe st |}
  | Some Collision =>
      {| showWorldAxes := showWorldAxes st;
         showGrid := showGrid st; showLinkAxes := showLinkAxes st;
         showJointAxes := showJointAxes st;
         showCollision := negb (showCollision st);
         wireframe := wireframe st |}
  | Some Wireframe =>
      {| showWorldAxes := showWorldAxes st;
         showGrid := showGrid st; showLinkAxes := showLinkAxes st;
         showJointAxes := showJointAxes st;
         showCollision := showCollision st;
         wireframe := negb (wireframe st) |}
  end.

(** A run of key presses, each with the tag of the element that has the
    focus. *)
Definition press_all (hasCollision : bool)
    (events : list (option string * string)) (st : DisplayOptions)
  : DisplayOptions :=
  List.fold_left
    (fun st e => handleKeyDown hasCollision (fst e) (snd e) st) events st.

End Shortcuts.

(* ================================================================== *)
(** * Part II: properties *)

(** ** Basic facts on strings *)

Lemma app_empty_r (s : string) : s ++ "" = s.
Proof. induction s as [|c s IH]; simpl; [reflexivity | now rewrite IH]. Qed.

Lemma app_assoc_s (a b c : string) : (a ++ b) ++ c = a ++ (b ++ c).
Proof. induction a as [|x a IH]; simpl; [reflexivity | now rewrite IH]. Qed.

Lemma length_app_s (a b : string) :
  String.length (a ++ b) = String.length a + String.length b.
Proof. induction a as [|x a IH]; simpl; [reflexivity | now rewrite IH]. Qed.

Lemma app_inv_head_s (a b c : string) : a ++ b = a ++ c -> b = c.
Proof.
  induction a as [|x a IH]; simpl; intros H; [exact H|].
  injection H as H. auto.
Qed.

Lemma app_eq_self_l (a b : string) : a ++ b = b -> a = "".
Proof.
  intros H. assert (L := f_equal String.length H).
  rewrite length_app_s in L. destruct a; [reflexivity | simpl in L; lia].
Qed.

Lemma strip_prefix_app (p r : string) : strip_prefix p (p ++ r) = Some r.
Proof.
  induction p as [|a p IH]; simpl; [reflexivity|].
  now rewrite Ascii.eqb_refl.
Qed.

Lemma strip_prefix_Some (p s r : string) :
  strip_prefix p s = Some r <-> s = p ++ r.
Proof.
  split.
  - revert s. induction p as [|a p IH]; simpl; intros s H.
    + now injection H as ->.
    + destruct s as [|b s]; [discriminate|].
      destruct (Ascii.eqb_spec a b) as [->|]; [|discriminate].
      now rewrite (IH _ H).
  - intros ->. apply strip_prefix_app.
Qed.

Lemma startsWith_true (s p : string) :
  startsWith s p = true <-> exists r, s = p ++ r.
Proof.
  unfold startsWith. split.
  - destruct (strip_prefix p s) as [r|] eqn:E; [|discriminate].
    intros _. exists r. now apply strip_prefix_Some.
  - intros [r ->]. now rewrite strip_prefix_app.
Qed.

Lemma endsWith_unfold (s suffix : string) :
  endsWith s suffix =
  if String.eqb s suffix then true
  else match s with
       | EmptyString => false
       | String _ s' => endsWith s' suffix
       end.
Proof. destruct s; reflexivity. Qed.

Lemma endsWith_true (s suffix : string) :
  endsWith s suffix = true <-> exists pre, s = pre ++ suffix.
Proof.
  split.
  - induction s as [|c s IH]; rewrite endsWith_unfold.
    + destruct (String.eqb_spec "" suffix) as [<-|]; [|discriminate].
      intros _. now exists "".
    + destruct (String.eqb_spec (String c s) suffix) as [<-|].
      * intros _. now exists "".
      * intros H. destruct (IH H) as [pre ->]. now exists (String c pre).
  - intros [pre ->]. induction pre as [|c pre IH].
    + rewrite endsWith_unfold. simpl. now rewrite String.eqb_refl.
    + change (String c pre ++ suffix) with (String c (pre ++ suffix)).
      rewrite endsWith_unfold, IH. now destruct (String.eqb _ _).
Qed.

(** *** [split] and [pop] *)

Lemma split_cons_shape (sep : ascii) (s : string) :
  exists seg segs, split sep s = seg :: segs.
Proof.
  induction s as [|c s [seg [segs IH]]]; simpl; [now eauto|].
  destruct (Ascii.eqb c sep); [now eauto|]. rewrite IH. eauto.
Qed.

Lemma has_char_false_split (sep : ascii) (s : string) :
  has_char sep s = false -> split sep s = [s].
Proof.
  induction s as [|c s IH]; simpl; [reflexivity|].
  intros H. apply orb_false_iff in H as [H1 H2].
  rewrite H1, (IH H2). reflexivity.
Qed.

Lemma has_char_true_split (sep : ascii) (s : string) :
  has_char sep s = true -> exists a b r, split sep s = a :: b :: r.
Proof.
  induction s as [|c s IH]; simpl; [discriminate|].
  destruct (Ascii.eqb c sep) eqn:E; simpl.
  - intros _. destruct (split_cons_shape sep s) as [seg [segs ->]]. eauto.
  - intros H. destruct (IH H) as [a [b [r ->]]]. eauto.
Qed.

Lemma has_char_app (sep : ascii) (a b : string) :
  has_char sep (a ++ b) = has_char sep a || has_char sep b.
Proof.
  induction a as [|c a IH]; simpl; [reflexivity|].
  now rewrite IH, orb_assoc.
Qed.

Lemma split_pop_cons (sep c : ascii) (s : string) :
  has_char sep s = true -> split_pop sep (String c s) = split_pop sep s.
Proof.
  intros H. unfold split_pop. cbn [split].
  destruct (has_char_true_split sep s H) as [a [b [r ->]]].
  now destruct (Ascii.eqb c sep).
Qed.

(** [pop] gives what follows the last separator. *)
Lemma split_pop_after_last (sep : ascii) (pre rest : string) :
  has_char sep rest = false ->
  split_pop sep (pre ++ String sep rest) = rest.
Proof.
  intros H. induction pre as [|c pre IH].
  - unfold split_pop. cbn [append split]. rewrite Ascii.eqb_refl.
    now rewrite (has_char_false_split sep rest H).
  - change (String c pre ++ String sep rest)
      with (String c (pre ++ String sep rest)).
    rewrite split_pop_cons; [exact IH|].
    rewrite has_char_app. cbn [has_char]. rewrite Ascii.eqb_refl.
    now rewrite orb_true_r.
Qed.

Lemma includes_unfold (s needle : string) :
  includes s needle =
  if startsWith s needle then true
  else match s with
       | EmptyString => false
       | String _ s' => includes s' needle
       end.
Proof. destruct s; reflexivity. Qed.

Lemma includes_prefix (p r : string) : includes (p ++ r) p = true.
Proof.
  rewrite includes_unfold.
  replace (startsWith (p ++ r) p) with true; [reflexivity|].
  symmetry. apply startsWith_true. now exists r.
Qed.

(** ** The backtracking matcher consumes a prefix of its input *)

Module RegexFacts.

Section Shrink.

Variable B : Type.

Lemma shrinks_final (b : B) : shrinks (fun rest => Some (b, rest)).
Proof. intros s b' rest [= _ <-]. now exists "". Qed.

Lemma shrinks_lit (p : string) (k : kont (B * string)) :
  shrinks k -> shrinks (lit p k).
Proof.
  intros Hk s b rest. unfold lit.
  destruct (strip_prefix p s) as [r|] eqn:E; [|discriminate].
  apply strip_prefix_Some in E as ->. intros H.
  destruct (Hk _ _ _ H) as [span ->]. exists (p ++ span).
  now rewrite app_assoc_s.
Qed.

Lemma lit_advances (c : ascii) (p : string) (k : kont (B * string)) :
  shrinks k -> advances (lit (String c p) k).
Proof.
  intros Hk s b rest. unfold lit.
  destruct (strip_prefix (String c p) s) as [r|] eqn:E; [|discriminate].
  apply strip_prefix_Some in E as ->. intros H.
  destruct (Hk _ _ _ H) as [span ->]. exists (String c p ++ span). split.
  - discriminate.
  - now rewrite app_assoc_s.
Qed.

Lemma shrinks_plus (cls : ascii -> bool) (k : kont (B * string)) :
  shrinks k -> shrinks (plus cls k).
Proof.
  intros Hk s. induction s as [|c s IH]; intros b rest; simpl; [discriminate|].
  destruct (cls c); [|discriminate].
  destruct (plus cls k s) as [[b' rest']|] eqn:E.
  - intros [= -> ->]. destruct (IH _ _ eq_refl) as [span ->].
    now exists (String c span).
  - intros H. destruct (Hk _ _ _ H) as [span ->]. now exists (String c span).
Qed.

Lemma shrinks_star (cls : ascii -> bool) (k : kont (B * string)) :
  shrinks k -> shrinks (star cls k).
Proof.
  intros Hk s b rest. unfold star.
  destruct (plus cls k s) as [[b' rest']|] eqn:E.
  - intros [= -> ->]. now apply (@shrinks_plus cls k Hk) in E.
  - apply Hk.
Qed.

Lemma shrinks_star_lazy (cls : ascii -> bool) (k : kont (B * string)) :
  shrinks k -> shrinks (star_lazy cls k).
Proof.
  intros Hk s. induction s as [|c s IH]; intros b rest; simpl.
  - destruct (k "") as [[b' rest']|] eqn:E; [|discriminate].
    intros [= -> ->]. now apply Hk in E.
  - destruct (k (String c s)) as [[b' rest']|] eqn:E.
    + intros [= -> ->]. now apply Hk in E.
    + destruct (cls c); [|discriminate].
      intros H. destruct (IH _ _ H) as [span ->]. now exists (String c span).
Qed.

Lemma shrinks_plus_cap (cls : ascii -> bool)
    (k : string -> kont (B * string)) :
  (forall cap, shrinks (k cap)) -> shrinks (plus_cap cls k).
Proof.
  intros Hk s. revert k Hk.
  induction s as [|c s IH]; intros k Hk b rest; simpl; [discriminate|].
  destruct (cls c); [|discriminate].
  destruct (plus_cap cls (fun cap => k (String c cap)) s)
    as [[b' rest']|] eqn:E.
  - intros [= -> ->].
    apply IH in E; [|intros cap; apply Hk].
    destruct E as [span ->]. now exists (String c span).
  - intros H. destruct (Hk _ _ _ _ H) as [span ->]. now exists (String c span).
Qed.

End Shrink.

(** *** The token list of a global pattern *)

Lemma take_app_length (a b : string) : take (String.length a) (a ++ b) = a.
Proof. induction a as [|c a IH]; simpl; [reflexivity | now rewrite IH]. Qed.

Lemma drop_app_length (a b : string) : drop (String.length a) (a ++ b) = b.
Proof. induction a as [|c a IH]; simpl; [reflexivity | exact IH]. Qed.

Section Tokens.

Variable B : Type.
Variable m : string -> option (B * string).
Hypothesis m_advances : advances m.

Lemma scan_skip (k : nat) (s : string) : scan m k s = scan m 0 (drop k s).
Proof.
  revert k. induction s as [|c s IH]; intros [|k]; try reflexivity.
  cbn [scan drop]. apply IH.
Qed.

Lemma tokens_empty : tokens m "" = [].
Proof. reflexivity. Qed.

Lemma tokens_lit (c : ascii) (s : string) :
  m (String c s) = None -> tokens m (String c s) = Lit c :: tokens m s.
Proof. unfold tokens. cbn [scan]. now intros ->. Qed.

Lemma tokens_hit (span rest : string) (b : B) :
  span <> "" ->
  m (span ++ rest) = Some (b, rest) ->
  tokens m (span ++ rest) = Hit span b :: tokens m rest.
Proof.
  intros Hne Hm. unfold tokens.
  destruct span as [|c span]; [congruence|].
  change (String c span ++ rest) with (String c (span ++ rest)) in *.
  cbn [scan]. rewrite Hm.
  replace (String.length (String c (span ++ rest)) - String.length rest)
    with (S (String.length span))
    by (cbn [String.length]; rewrite length_app_s; lia).
  cbn [take]. rewrite take_app_length.
  rewrite scan_skip. cbn [Nat.sub]. rewrite Nat.sub_0_r, drop_app_length.
  reflexivity.
Qed.

(** Induction along the left-to-right scan. *)
Lemma tokens_ind (P : string -> list (token B) -> Prop) :
  P "" [] ->
  (forall c s,
      m (String c s) = None ->
      P s (tokens m s) -> P (String c s) (Lit c :: tokens m s)) ->
  (forall span b rest,
      span <> "" ->
      m (span ++ rest) = Some (b, rest) ->
      P rest (tokens m rest) -> P (span ++ rest) (Hit span b :: tokens m rest)) ->
  forall s, P s (tokens m s).
Proof.
  intros Hend Hlit Hhit s.
  remember (String.length s) as n eqn:Hn.
  revert s Hn. induction n as [n IH] using lt_wf_ind. intros s Hn.
  destruct s as [|c s]; [exact Hend|].
  destruct (m (String c s)) as [[b rest]|] eqn:E.
  - pose proof m_advances as HA.
    destruct (HA _ _ _ E) as [span [Hne Hs]].
    rewrite Hs in E |- *. rewrite (tokens_hit Hne E).
    apply Hhit; [assumption..|].
    apply (IH (String.length rest)); [|reflexivity].
    rewrite Hn, Hs, length_app_s.
    destruct span; [congruence | simpl; lia].
  - rewrite (tokens_lit E). apply Hlit; [assumption|].
    apply (IH (String.length s)); [|reflexivity].
    rewrite Hn. simpl. lia.
Qed.

(** The tokens partition the input. *)
Lemma tokens_source (s : string) :
  String.concat "" (List.map (@token_source B) (tokens m s)) = s.
Proof.
  pattern s, (tokens m s). apply tokens_ind.
  - reflexivity.
  - intros c s' _ IH. cbn [List.map token_source].
    assert (G : forall (x : string) l, String.concat "" (x :: l)
                                       = x ++ String.concat "" l).
    { intros x [|y l]; simpl; [now rewrite app_empty_r | reflexivity]. }
    rewrite G, IH. reflexivity.
  - intros span b rest _ _ IH. cbn [List.map token_source].
    assert (G : forall (x : string) l, String.concat "" (x :: l)
                                       = x ++ String.concat "" l).
    { intros x [|y l]; simpl; [now rewrite app_empty_r | reflexivity]. }
    rewrite G, IH. reflexivity.
Qed.

(** Global removal, relationally. *)
Lemma replace_all_Removed (s : string) :
  ResolverSpec.Removed m s (replace_all m "" s).
Proof.
  unfold replace_all. pattern s, (tokens m s). apply tokens_ind.
  - constructor.
  - intros c s' Hm IH. now constructor.
  - intros span b rest Hne Hm IH. cbn [substitute append].
    now apply ResolverSpec.Removed_drop with (b := b).
Qed.

End Tokens.

End RegexFacts.

(** ** The resolver's patterns and the scan for directives *)

Module ResolverFacts.
Import Resolver ResolverSpec RegexFacts.

Lemma includeRegex_advances : advances includeRegex.
Proof.
  unfold includeRegex. apply lit_advances.
  apply shrinks_plus, shrinks_lit, shrinks_plus_cap. intros filename.
  apply shrinks_lit, shrinks_star, shrinks_lit, shrinks_final.
Qed.

Lemma xmlHeaderRegex_advances : advances xmlHeaderRegex.
Proof.
  unfold xmlHeaderRegex. apply lit_advances.
  apply shrinks_star, shrinks_lit, shrinks_final.
Qed.

Lemma robotOpenRegex_advances : advances robotOpenRegex.
Proof.
  unfold robotOpenRegex. apply lit_advances.
  apply shrinks_star_lazy, shrinks_lit, shrinks_final.
Qed.

Lemma robotCloseRegex_advances : advances robotCloseRegex.
Proof. unfold robotCloseRegex. apply lit_advances, shrinks_final. Qed.

(** *** The package macro *)

Lemma has_char_false_all_not (x : ascii) (w : string) :
  has_char x w = false -> all_chars (not_char x) w = true.
Proof.
  induction w as [|c w IH]; simpl; [reflexivity|].
  intros H. apply orb_false_iff in H as [H1 H2].
  unfold not_char at 1. now rewrite H1, (IH H2).
Qed.

(** A greedy capture takes the whole run when the rest then matches. *)
Lemma plus_cap_greedy (A : Type) (cls : ascii -> bool)
    (k : string -> kont A) (w : string) (x : ascii) (t : string) (r : A) :
  w <> "" ->
  all_chars cls w = true ->
  cls x = false ->
  k w (String x t) = Some r ->
  plus_cap cls k (w ++ String x t) = Some r.
Proof.
  revert k. induction w as [|c w IH]; intros k Hne Hall Hx Hk; [congruence|].
  cbn [all_chars] in Hall. apply andb_true_iff in Hall as [Hc Hw].
  cbn [append plus_cap]. rewrite Hc.
  destruct w as [|c' w].
  - cbn [append plus_cap]. rewrite Hx. exact Hk.
  - rewrite (IH (fun cap => k (String c cap))); auto. discriminate.
Qed.

Lemma pkgMatch_macro (pkg rest : string) :
  package_name pkg = true ->
  pkgMatch ("$(find " ++ pkg ++ ")" ++ rest) = Some pkg.
Proof.
  unfold package_name. destruct pkg as [|c pkg]; [discriminate|].
  intros H. apply andb_true_iff in H as [Hc Hp].
  apply negb_true_iff in Hc, Hp.
  unfold pkgMatch.
  set (m := lit "$(find" _).
  assert (Hm : m ("$(find " ++ String c pkg ++ ")" ++ rest)
               = Some (String c pkg)).
  { unfold m, lit.
    change ("$(find " ++ String c pkg ++ ")" ++ rest)
      with ("$(find" ++ String " " (String c pkg ++ ")" ++ rest)).
    rewrite strip_prefix_app.
    cbn [plus]. change (is_space " ") with true. cbv iota.
    change (String c pkg ++ ")" ++ rest)
      with (String c (pkg ++ ")" ++ rest)) at 1.
    cbn [plus]. rewrite Hc.
    change (")" ++ rest) with (String ")" rest).
    apply plus_cap_greedy.
    - discriminate.
    - now apply has_char_false_all_not.
    - unfold not_char. now rewrite Ascii.eqb_refl.
    - reflexivity. }
  destruct ("$(find " ++ String c pkg ++ ")" ++ rest) eqn:E;
    cbn [search]; now rewrite Hm.
Qed.

(** *** What the three stripping patterns match *)

Lemma robotCloseRegex_spec (s rest : string) :
  robotCloseRegex s = Some (tt, rest)
  <-> exists span, s = span ++ rest /\ close_tag span.
Proof.
  unfold robotCloseRegex, lit, close_tag. split.
  - destruct (strip_prefix "</robot>" s) as [r|] eqn:E; [|discriminate].
    intros [= ->]. apply strip_prefix_Some in E. eauto.
  - intros (span & -> & ->). now rewrite strip_prefix_app.
Qed.

Lemma stop_at_cons (A : Type) (x c : ascii) (r : string -> A) (t : string) :
  stop_at x r (String c t) = if Ascii.eqb x c then Some (r t) else None.
Proof. unfold stop_at, lit. cbn. now destruct (Ascii.eqb x c). Qed.

Lemma star_lazy_until (x : ascii) (t rest : string) :
  star_lazy dot (stop_at x (fun rest => (tt, rest))) t = Some (tt, rest)
  <-> exists attrs,
        t = attrs ++ String x rest
        /\ all_chars dot attrs = true
        /\ has_char x attrs = false.
Proof.
  split.
  - revert rest. induction t as [|c t IH]; intros rest.
    + cbn. discriminate.
    + cbn [star_lazy]. rewrite stop_at_cons.
      destruct (Ascii.eqb_spec x c) as [->|Hxc].
      * intros [= ->]. now exists "".
      * destruct (dot c) eqn:Hd; [|discriminate]. intros H.
        destruct (IH _ H) as (attrs & -> & Hall & Hno).
        exists (String c attrs). cbn. rewrite Hd, Hall, Hno.
        repeat split. apply orb_false_iff. split; [|reflexivity].
        apply Ascii.eqb_neq. congruence.
  - intros (attrs & -> & Hall & Hno).
    induction attrs as [|c attrs IH].
    + cbn [append star_lazy]. rewrite stop_at_cons, Ascii.eqb_refl.
      reflexivity.
    + cbn in Hall, Hno. apply andb_true_iff in Hall as [Hd Hall].
      apply orb_false_iff in Hno as [Hc Hno].
      cbn [append star_lazy]. rewrite stop_at_cons.
      rewrite Ascii.eqb_sym, Hc, Hd. auto.
Qed.

Lemma robotOpenRegex_spec (s rest : string) :
  robotOpenRegex s = Some (tt, rest)
  <-> exists span, s = span ++ rest /\ open_tag span.
Proof.
  unfold robotOpenRegex, open_tag.
  change (lit ">" (fun rest0 => Some (tt, rest0)))
    with (stop_at ">" (fun rest0 => (tt, rest0))).
  unfold lit at 1. split.
  - destruct (strip_prefix "<robot" s) as [r|] eqn:E; [|discriminate].
    apply strip_prefix_Some in E as ->. intros H.
    apply star_lazy_until in H as (attrs & -> & Hall & Hno).
    exists ("<robot" ++ attrs ++ ">"). split.
    + now rewrite !app_assoc_s.
    + now exists attrs.
  - intros (span & -> & attrs & -> & Hall & Hno).
    rewrite !app_assoc_s, strip_prefix_app.
    apply star_lazy_until. now exists attrs.
Qed.

(** The greedy [.*] before [?>] backtracks to the last [?>] of the line. *)

Lemma mark_k_spec (t rest : string) :
  mark_k t = Some (tt, rest) <-> t = "?>" ++ rest.
Proof.
  unfold mark_k, lit. split.
  - destruct (strip_prefix "?>" t) as [r|] eqn:E; [|discriminate].
    intros [= ->]. now apply strip_prefix_Some.
  - intros ->. now rewrite strip_prefix_app.
Qed.

Lemma mark_k_None (t : string) :
  mark_k t = None <-> forall v, t <> "?>" ++ v.
Proof.
  split.
  - intros H v E. apply mark_k_spec in E. congruence.
  - intros H. destruct (mark_k t) as [[[] rest]|] eqn:E; [|reflexivity].
    apply mark_k_spec in E. now destruct (H rest).
Qed.

Lemma plus_mark_None (t : string) :
  plus dot mark_k t = None
  <-> forall u v, u <> "" -> t = u ++ "?>" ++ v -> all_chars dot u = false.
Proof.
  induction t as [|c t IH].
  - split; [|reflexivity]. intros _ [|a u] v Hu E; [congruence | discriminate].
  - cbn [plus]. destruct (dot c) eqn:Hd.
    + split.
      * intros H [|a u] v Hu E; [congruence|].
        injection E as <- E. cbn [all_chars]. rewrite Hd. cbn.
        destruct (plus dot mark_k t) as [r|] eqn:Hp; [discriminate|].
        destruct u as [|b u].
        -- exfalso. apply (proj1 (mark_k_None t) H v). exact E.
        -- apply (proj1 IH eq_refl (String b u) v); [discriminate | exact E].
      * intros H.
        assert (Hp : plus dot mark_k t = None).
        { apply IH. intros u v Hu E.
          specialize (H (String c u) v). cbn in H. rewrite Hd in H.
          apply H; [discriminate | now rewrite E]. }
        rewrite Hp. apply mark_k_None. intros v E.
        specialize (H (String c "") v). cbn in H. rewrite Hd in H.
        assert (true = false); [|discriminate].
        apply H; [discriminate | now rewrite E].
    + split; [|reflexivity]. intros _ [|a u] v Hu E; [congruence|].
      injection E as <- _. cbn. now rewrite Hd.
Qed.

Lemma no_later_mark_after (rest : string) :
  no_later_mark rest <->
  (forall u v, u <> "" -> "?>" ++ rest = u ++ "?>" ++ v ->
               all_chars dot u = false).
Proof.
  unfold no_later_mark. split.
  - intros H [|a [|b u]] v Hu E; [congruence | discriminate |].
    injection E as <- <- E. cbn. apply (H u v E).
  - intros H u v E. specialize (H ("?>" ++ u) v). cbn in H.
    apply H; [discriminate | now rewrite E].
Qed.

Lemma plus_mark_Some (t rest : string) :
  plus dot mark_k t = Some (tt, rest)
  <-> exists body,
        body <> "" /\ t = body ++ "?>" ++ rest
        /\ all_chars dot body = true /\ no_later_mark rest.
Proof.
  revert rest. induction t as [|c t IH]; intros rest.
  - split; [discriminate|].
    intros ([|a body] & Hne & E & _); [congruence | discriminate].
  - cbn [plus]. destruct (dot c) eqn:Hd.
    + case_eq (plus dot mark_k t); [intros [[] r] Hp | intros Hp].
      * split.
        -- intros [= ->].
           apply (proj1 (IH _)) in Hp as (body & Hne & -> & Hall & Hno).
           exists (String c body). cbn. rewrite Hd, Hall.
           repeat split; [discriminate | exact Hno].
        -- intros ([|a body] & Hne & E & Hall & Hno); [congruence|].
           injection E as <- E. cbn in Hall. rewrite Hd in Hall. cbn in Hall.
           destruct body as [|b body].
           ++ cbn in E. subst t.
              pose proof (proj2 (plus_mark_None _)
                (proj1 (no_later_mark_after _) Hno)) as Hnone.
              cbn [append] in Hnone. congruence.
           ++ assert (Hp' : plus dot mark_k t = Some (tt, rest)).
              { apply IH. exists (String b body).
                repeat split; [discriminate | assumption..]. }
              congruence.
      * split.
        -- intros H. apply (proj1 (mark_k_spec _ _)) in H as ->.
           exists (String c ""). cbn. rewrite Hd.
           repeat split; [discriminate|].
           apply no_later_mark_after. now apply plus_mark_None.
        -- intros ([|a body] & Hne & E & Hall & Hno); [congruence|].
           injection E as <- E.
           destruct body as [|b body].
           ++ cbn in E. subst t. now apply mark_k_spec.
           ++ cbn [all_chars] in Hall. rewrite Hd in Hall.
              change (all_chars dot (String b body) = true) in Hall.
              pose proof (proj1 (plus_mark_None t) Hp (String b body) rest)
                as Hcontra.
              rewrite Hcontra in Hall; [discriminate | discriminate | exact E].
    + split; [discriminate|].
      intros ([|a body] & Hne & E & Hall & _); [congruence|].
      injection E as <- _. cbn in Hall. now rewrite Hd in Hall.
Qed.

Lemma star_mark_Some (t rest : string) :
  star dot mark_k t = Some (tt, rest)
  <-> exists body,
        t = body ++ "?>" ++ rest
        /\ all_chars dot body = true /\ no_later_mark rest.
Proof.
  unfold star. destruct (plus dot mark_k t) as [[[] r]|] eqn:Hp.
  - split.
    + intros [= ->].
      apply (proj1 (plus_mark_Some _ _)) in Hp as (body & _ & H).
      now exists body.
    + intros ([|a body] & E & Hall & Hno).
      * cbn in E. subst t. pose proof (proj2 (plus_mark_None _)
                (proj1 (no_later_mark_after _) Hno)) as Hnone.
              cbn [append] in Hnone. congruence.
      * assert (Hp' : plus dot mark_k t = Some (tt, rest)).
        { apply plus_mark_Some. exists (String a body).
          repeat split; [discriminate | assumption..]. }
        congruence.
  - split.
    + intros H. apply (proj1 (mark_k_spec _ _)) in H as ->. exists "".
      repeat split. apply no_later_mark_after. now apply plus_mark_None.
    + intros ([|a body] & E & Hall & Hno).
      * cbn in E. subst t. now apply mark_k_spec.
      * pose proof (proj1 (plus_mark_None t) Hp (String a body) rest)
          as Hcontra.
        rewrite Hcontra in Hall; [discriminate | discriminate | exact E].
Qed.

Lemma xmlHeaderRegex_spec (s rest : string) :
  xmlHeaderRegex s = Some (tt, rest)
  <-> exists span, s = span ++ rest /\ xml_header span rest.
Proof.
  unfold xmlHeaderRegex, xml_header. fold mark_k. unfold lit at 1. split.
  - destruct (strip_prefix "<?xml" s) as [r|] eqn:E; [|discriminate].
    apply strip_prefix_Some in E as ->. intros H.
    apply star_mark_Some in H as (body & -> & Hall & Hno).
    exists ("<?xml" ++ body ++ "?>"). split.
    + now rewrite !app_assoc_s.
    + now exists body.
  - intros (span & -> & body & -> & Hall & Hno).
    rewrite !app_assoc_s, strip_prefix_app.
    apply star_mark_Some. now exists body.
Qed.

Lemma no_directive_spec (content : string) :
  no_directive content = true <-> directive_free content.
Proof.
  unfold directive_free. split.
  - intros H pre. revert content H.
    induction pre as [|c pre IH]; intros content H suf ->.
    + cbn [append] in H.
      destruct suf; cbn [no_directive] in H;
        now destruct (includeRegex _).
    + change (String c pre ++ suf) with (String c (pre ++ suf)) in H.
      cbn [no_directive] in H.
      destruct (includeRegex (String c (pre ++ suf))); [discriminate|].
      now apply (IH (pre ++ suf)).
  - induction content as [|c s IH]; intros H.
    + cbn [no_directive]. now rewrite (H "" "" eq_refl).
    + cbn [no_directive]. rewrite (H "" (String c s) eq_refl).
      apply IH. intros pre suf ->. now apply (H (String c pre) suf).
Qed.

(** *** The effect monad *)

Lemma bind_Done_inv (A C : Type) (c : M A) (f : A -> M C) l (y : C) :
  bind c f = (l, Done y) ->
  exists l1 a l2, c = (l1, Done a) /\ f a = (l2, Done y) /\ l = (l1 ++ l2)%list.
Proof.
  destruct c as [l1 [a|e|]]; simpl; try discriminate.
  destruct (f a) as [l2 o] eqn:E. intros [= <- ->].
  now exists l1, a, l2.
Qed.


Section WithHost.

Variable host : Host.
Implicit Types (content workingDir publicDirPath filename : string).

Lemma processIncludes_unfold fuel content workingDir publicDirPath :
  processIncludes host fuel content workingDir publicDirPath
  = splice (include_callback host (nested_call host fuel publicDirPath)
                             workingDir publicDirPath)
           (tokens includeRegex content).
Proof. destruct fuel; reflexivity. Qed.

Lemma processIncludes_empty fuel workingDir publicDirPath :
  processIncludes host fuel "" workingDir publicDirPath = ret "".
Proof. now rewrite processIncludes_unfold. Qed.

(** A character at which no directive starts is copied. *)
Lemma processIncludes_lit fuel c s workingDir publicDirPath :
  includeRegex (String c s) = None ->
  processIncludes host fuel (String c s) workingDir publicDirPath
  = (t <- processIncludes host fuel s workingDir publicDirPath ;;
     ret (String c t)).
Proof.
  intros H. rewrite !processIncludes_unfold, (@tokens_lit _ includeRegex _ _ H). reflexivity.
Qed.

(** A directive is handed to the replacer, and the scan goes on after it. *)
Lemma processIncludes_hit fuel span filename rest workingDir publicDirPath :
  span <> "" ->
  includeRegex (span ++ rest) = Some (filename, rest) ->
  processIncludes host fuel (span ++ rest) workingDir publicDirPath
  = (r <- include_callback host (nested_call host fuel publicDirPath)
            workingDir publicDirPath filename ;;
     t <- processIncludes host fuel rest workingDir publicDirPath ;;
     ret (r ++ t)).
Proof.
  intros Hne H. rewrite !processIncludes_unfold, (@tokens_hit _ includeRegex _ _ _ Hne H).
  reflexivity.
Qed.

(** Induction on a document along the scan for directives. *)
Lemma document_ind (P : string -> Prop) :
  P "" ->
  (forall c s, includeRegex (String c s) = None -> P s -> P (String c s)) ->
  (forall span filename rest,
      span <> "" ->
      includeRegex (span ++ rest) = Some (filename, rest) ->
      P rest -> P (span ++ rest)) ->
  forall content, P content.
Proof.
  intros H0 H1 H2 content.
  apply (tokens_ind includeRegex_advances (fun s _ => P s)); auto.
Qed.

Lemma directive_free_tail c s : directive_free (String c s) -> directive_free s.
Proof. intros H pre suf ->. apply (H (String c pre) suf). reflexivity. Qed.

(** *** What the replacer returns *)

Lemma include_callback_found recurse workingDir publicDirPath filename
    includeContent :
  let filePath := target_path host filename workingDir publicDirPath in
  existsSync host filePath = true ->
  readFileSync host filePath = inl includeContent ->
  include_callback host recurse workingDir publicDirPath filename
  = (print (Including filePath) ;;;
     recurse (strip_wrappers includeContent) (path_dirname host filePath)).
Proof.
  intros filePath He Hr. unfold include_callback. fold filePath.
  now rewrite He, Hr.
Qed.

Lemma include_callback_unreadable recurse workingDir publicDirPath filename
    message :
  let filePath := target_path host filename workingDir publicDirPath in
  existsSync host filePath = true ->
  readFileSync host filePath = inr message ->
  include_callback host recurse workingDir publicDirPath filename
  = ([Including filePath], Thrown message).
Proof.
  intros filePath He Hr. unfold include_callback. fold filePath.
  now rewrite He, Hr.
Qed.

Lemma include_callback_missing recurse workingDir publicDirPath filename :
  let filePath := target_path host filename workingDir publicDirPath in
  existsSync host filePath = false ->
  include_callback host recurse workingDir publicDirPath filename
  = ([Not_found filePath], Done (placeholder filename)).
Proof.
  intros filePath He. unfold include_callback. fold filePath.
  now rewrite He.
Qed.

Lemma include_callback_Done recurse workingDir publicDirPath filename l r :
  include_callback host recurse workingDir publicDirPath filename
  = (l, Done r) ->
  let filePath := target_path host filename workingDir publicDirPath in
  (existsSync host filePath = true /\
   exists includeContent l',
     readFileSync host filePath = inl includeContent /\
     recurse (strip_wrappers includeContent) (path_dirname host filePath)
     = (l', Done r) /\
     l = Including filePath :: l')
  \/ (existsSync host filePath = false /\
      r = placeholder filename /\ l = [Not_found filePath]).
Proof.
  intros H filePath.
  destruct (existsSync host filePath) eqn:He.
  - left. split; [reflexivity|].
    destruct (readFileSync host filePath) as [includeContent|message] eqn:Hr.
    + rewrite (include_callback_found _ _ _ _ He Hr) in H.
      apply bind_Done_inv in H as (l1 & [] & l2 & [= <-] & H & ->).
      now exists includeContent, l2.
    + rewrite (include_callback_unreadable _ _ _ _ He Hr) in H. discriminate.
  - right. rewrite (include_callback_missing _ _ _ _ He) in H.
    now injection H as <- <-.
Qed.

(** *** Every directive is resolved or replaced by the placeholder *)

Lemma processIncludes_Resolved fuel publicDirPath :
  forall content workingDir l out,
    processIncludes host fuel content workingDir publicDirPath = (l, Done out) ->
    Resolved host publicDirPath content workingDir out.
Proof.
  induction fuel as [|fuel IHfuel]; intros content;
    induction content as [| c s Hc IH | span filename rest Hne Hm IH]
      using document_ind; intros workingDir l out.
  1, 4: rewrite processIncludes_empty; intros [= _ <-]; constructor.
  1, 3: rewrite (@processIncludes_lit _ c s workingDir publicDirPath Hc);
    intros H;
    apply bind_Done_inv in H as (l1 & t & l2 & Ht & [= _ <-] & _);
    constructor; [assumption | eauto].
  - rewrite (@processIncludes_hit 0 span filename rest workingDir
               publicDirPath Hne Hm).
    intros H.
    apply bind_Done_inv in H as (l1 & r & l2 & Hr & H & _).
    apply bind_Done_inv in H as (l3 & t & l4 & Ht & [= _ <-] & _).
    apply include_callback_Done in Hr
      as [(He & c & l' & Hread & Hrec & _) | (He & -> & _)].
    + discriminate Hrec.
    + eapply Resolved_missing; eauto.
  - rewrite (@processIncludes_hit (S fuel) span filename rest workingDir
               publicDirPath Hne Hm).
    intros H.
    apply bind_Done_inv in H as (l1 & r & l2 & Hr & H & _).
    apply bind_Done_inv in H as (l3 & t & l4 & Ht & [= _ <-] & _).
    apply include_callback_Done in Hr
      as [(He & c & l' & Hread & Hrec & _) | (He & -> & _)].
    + eapply Resolved_found; eauto.
    + eapply Resolved_missing; eauto.
Qed.

(** *** More fuel changes nothing once the recursion has ended *)

Lemma refines_refl (A : Type) (c : M A) : refines c c.
Proof. now right. Qed.

Lemma refines_bind (A C : Type) (c1 c2 : M A) (f1 f2 : A -> M C) :
  refines c1 c2 ->
  (forall a, refines (f1 a) (f2 a)) ->
  refines (bind c1 f1) (bind c2 f2).
Proof.
  intros [H | <-] Hf.
  - left. destruct c1 as [l [a|e|]]; simpl in *; try discriminate. reflexivity.
  - destruct c1 as [l [a|e|]]; simpl; try (now right).
    destruct (Hf a) as [H | <-].
    + left. destruct (f1 a) as [l' o]. simpl in *. exact H.
    + now right.
Qed.


Lemma splice_refines (cb1 cb2 : string -> M string) ts :
  (forall filename, refines (cb1 filename) (cb2 filename)) ->
  refines (splice cb1 ts) (splice cb2 ts).
Proof.
  intros Hcb. induction ts as [|[c | span filename] ts IH]; cbn [splice].
  - apply refines_refl.
  - apply refines_bind; [exact IH | intros; apply refines_refl].
  - apply refines_bind; [apply Hcb|]. intros r.
    apply refines_bind; [exact IH | intros; apply refines_refl].
Qed.

Lemma include_callback_refines (rec1 rec2 : string -> string -> M string)
    workingDir publicDirPath filename :
  (forall stripped dir, refines (rec1 stripped dir) (rec2 stripped dir)) ->
  refines (include_callback host rec1 workingDir publicDirPath filename)
          (include_callback host rec2 workingDir publicDirPath filename).
Proof.
  intros Hrec. unfold include_callback.
  destruct (existsSync host _); [|apply refines_refl].
  apply refines_bind; [apply refines_refl|]. intros _.
  destruct (readFileSync host _); [apply Hrec | apply refines_refl].
Qed.

Lemma processIncludes_more_fuel fuel publicDirPath :
  forall content workingDir,
    refines (processIncludes host fuel content workingDir publicDirPath)
            (processIncludes host (S fuel) content workingDir publicDirPath).
Proof.
  induction fuel as [|fuel IH]; intros content workingDir;
    rewrite 2!processIncludes_unfold;
    apply splice_refines; intros filename;
    apply include_callback_refines; intros stripped dir.
  - now left.
  - apply IH.
Qed.



(** *** The path of a directive *)

Lemma target_path_macro pkg rest workingDir publicDirPath :
  package_name pkg = true ->
  has_char ")" rest = false ->
  target_path host ("$(find " ++ pkg ++ ")" ++ rest) workingDir publicDirPath
  = path_join host publicDirPath pkg rest.
Proof.
  intros Hpkg Hrest. unfold target_path.
  rewrite includes_prefix, (@pkgMatch_macro pkg rest Hpkg).
  replace ("$(find " ++ pkg ++ ")" ++ rest)
    with (("$(find " ++ pkg) ++ String ")" rest)
    by (now rewrite app_assoc_s).
  now rewrite split_pop_after_last.
Qed.

Lemma target_path_literal filename workingDir publicDirPath :
  includes filename "$(find " = false ->
  target_path host filename workingDir publicDirPath
  = path_resolve host workingDir filename.
Proof. intros H. unfold target_path. now rewrite H. Qed.

(** *** A read error ends the whole resolution *)

Lemma splice_abort (callback : string -> M string) pre span filename post
    l1 o1 l2 message :
  splice callback pre = (l1, Done o1) ->
  callback filename = (l2, Thrown message) ->
  splice callback (pre ++ Hit span filename :: post)%list
  = ((l1 ++ l2)%list, Thrown message).
Proof.
  intros Hpre Hcb. revert l1 o1 Hpre.
  induction pre as [|[c | span0 f0] pre IH]; intros l1 o1 Hpre;
    cbn [splice List.app] in *.
  - injection Hpre as <- _. now rewrite Hcb.
  - apply bind_Done_inv in Hpre as (la & t & lb & Ht & [= <- _] & ->).
    rewrite (IH _ _ Ht). cbn. now rewrite List.app_nil_r.
  - apply bind_Done_inv in Hpre as (la & r & lb & Hr & H & ->).
    apply bind_Done_inv in H as (lc & t & ld & Ht & [= <- _] & ->).
    rewrite Hr, (IH _ _ Ht). cbn.
    now rewrite List.app_nil_r, List.app_assoc.
Qed.

Lemma xacro_to_urdf_backend_error fuel publicDirPath file content l message :
  let fullPath := path_resolve host publicDirPath file in
  truthy file = true ->
  existsSync host fullPath = true ->
  readFileSync host fullPath = inl content ->
  processIncludes host fuel content (path_dirname host fullPath) publicDirPath
  = (l, Thrown message) ->
  xacro_to_urdf host fuel publicDirPath (QString file)
  = ((Pre_assembling fullPath :: l ++ [Backend_error message])%list,
     Done {| status := 500; body := message |}).
Proof.
  intros fullPath Ht He Hr Hp. unfold xacro_to_urdf. fold fullPath.
  rewrite Ht, He, Hr, Hp. reflexivity.
Qed.

(** *** The recursion ends when the include graph has no cycle *)

Lemma finishes_bind (A C : Type) (c : M A) (f : A -> M C) :
  finishes c -> (forall a, finishes (f a)) -> finishes (bind c f).
Proof.
  unfold finishes. destruct c as [l [a|e|]]; simpl; intros Hc Hf;
    try congruence.
  specialize (Hf a). now destruct (f a).
Qed.

Lemma finishes_ret (A : Type) (a : A) : finishes (ret a).
Proof. discriminate. Qed.

Lemma splice_finishes (callback : string -> M string) ts :
  (forall span filename, In (Hit span filename) ts ->
                         finishes (callback filename)) ->
  finishes (splice callback ts).
Proof.
  induction ts as [|[c | span filename] ts IH]; intros H; cbn [splice].
  - apply finishes_ret.
  - apply finishes_bind; [|intros; apply finishes_ret].
    apply IH. intros sp f HIn. apply (H sp f). now right.
  - apply finishes_bind; [apply (H span filename); now left|]. intros r.
    apply finishes_bind; [|intros; apply finishes_ret].
    apply IH. intros sp f HIn. apply (H sp f). now right.
Qed.

Lemma include_callback_finishes recurse workingDir publicDirPath filename :
  (forall includeContent,
      let filePath := target_path host filename workingDir publicDirPath in
      existsSync host filePath = true ->
      readFileSync host filePath = inl includeContent ->
      finishes (recurse (strip_wrappers includeContent)
                        (path_dirname host filePath))) ->
  finishes (include_callback host recurse workingDir publicDirPath filename).
Proof.
  intros H. unfold include_callback.
  destruct (existsSync host _) eqn:He.
  - apply finishes_bind; [discriminate|]. intros _.
    destruct (readFileSync host _) eqn:Hr; [now apply H | discriminate].
  - apply finishes_bind; [discriminate|]. intros _. apply finishes_ret.
Qed.

Lemma hit_targets_In publicDirPath workingDir span filename ts :
  In (Hit span filename) ts ->
  In (target_path host filename workingDir publicDirPath)
     (hit_targets host publicDirPath workingDir ts).
Proof.
  induction ts as [|[c | span0 f0] ts IH]; cbn [hit_targets].
  - intros [].
  - intros [E | H]; [discriminate | auto].
  - intros [E | H].
    + injection E as _ ->. now left.
    + right. auto.
Qed.

Lemma acyclic_nested_finishes publicDirPath (rank : string -> nat) :
  acyclic host publicDirPath rank ->
  forall fuel p includeContent,
    rank p < fuel ->
    existsSync host p = true ->
    readFileSync host p = inl includeContent ->
    finishes (processIncludes host fuel (strip_wrappers includeContent)
                (path_dirname host p) publicDirPath).
Proof.
  intros Hacyc. induction fuel as [|fuel IH]; intros p c Hrank He Hr; [lia|].
  rewrite processIncludes_unfold. apply splice_finishes.
  intros span filename HIn. apply include_callback_finishes.
  intros c' q He' Hr'. cbn [nested_call]. apply IH; try assumption.
  assert (rank q < rank p); [|lia].
  apply (Hacyc p c q He Hr); [|exact He'].
  apply hit_targets_In with (span := span). exact HIn.
Qed.

Lemma acyclic_finishes publicDirPath (rank : string -> nat) content
    workingDir fuel :
  acyclic host publicDirPath rank ->
  S (list_max (List.map rank
       (include_targets host publicDirPath content workingDir))) < fuel ->
  finishes (processIncludes host fuel content workingDir publicDirPath).
Proof.
  intros Hacyc Hfuel. destruct fuel as [|fuel]; [lia|].
  rewrite processIncludes_unfold. apply splice_finishes.
  intros span filename HIn. apply include_callback_finishes.
  intros c q He Hr. cbn [nested_call].
  apply (acyclic_nested_finishes Hacyc); try assumption.
  assert (Hq : In (rank q)
                  (List.map rank
                     (include_targets host publicDirPath content workingDir))).
  { apply List.in_map. apply hit_targets_In with (span := span). exact HIn. }
  pose proof (proj1 (list_max_le
                      (List.map rank (include_targets host publicDirPath
                                        content workingDir)) _)
                   (Nat.le_refl _)) as Hall.
  rewrite List.Forall_forall in Hall. specialize (Hall _ Hq). lia.
Qed.

(** *** A file that includes itself *)

Lemma bind_out_of_fuel (A C : Type) (c : M A) (f : A -> M C) :
  snd c = Out_of_fuel -> snd (bind c f) = Out_of_fuel.
Proof. destruct c as [l [a|e|]]; simpl; congruence. Qed.

Lemma self_include_diverges span filename workingDir publicDirPath
    includeContent :
  let filePath := target_path host filename workingDir publicDirPath in
  span <> "" ->
  includeRegex span = Some (filename, "") ->
  existsSync host filePath = true ->
  readFileSync host filePath = inl includeContent ->
  strip_wrappers includeContent = span ->
  path_dirname host filePath = workingDir ->
  forall fuel,
    snd (processIncludes host fuel span workingDir publicDirPath)
    = Out_of_fuel.
Proof.
  intros filePath Hne Hm He Hr Hstrip Hdir fuel.
  assert (Hm' : includeRegex (span ++ "") = Some (filename, ""))
    by (now rewrite app_empty_r).
  induction fuel as [|fuel IH];
    rewrite <- (app_empty_r span) at 1;
    rewrite (@processIncludes_hit _ span filename "" workingDir
               publicDirPath Hne Hm');
    rewrite (include_callback_found _ _ _ _ He Hr);
    apply bind_out_of_fuel;
    fold filePath; rewrite Hstrip, Hdir; cbn [nested_call].
  - reflexivity.
  - destruct (processIncludes host fuel span workingDir publicDirPath)
      as [l o].
    simpl in IH. subst o. reflexivity.
Qed.

Lemma processIncludes_stable fuel fuel' content workingDir publicDirPath :
  fuel <= fuel' ->
  finishes (processIncludes host fuel content workingDir publicDirPath) ->
  processIncludes host fuel' content workingDir publicDirPath
  = processIncludes host fuel content workingDir publicDirPath.
Proof.
  intros Hle Hfin. induction Hle as [|fuel' _ IH]; [reflexivity|].
  destruct (processIncludes_more_fuel fuel' publicDirPath content workingDir)
    as [H | H].
  - rewrite IH in H. now destruct Hfin.
  - now rewrite <- H.
Qed.

End WithHost.

End ResolverFacts.

(** ** The wrappers: the patterns of the code against the markup *)

Module WrapperFacts.
Import Resolver ResolverSpec RegexFacts ResolverFacts.

Lemma cut_Some (needle s before rest : string) :
  cut needle s = Some (before, rest) -> s = before ++ needle ++ rest.
Proof.
  revert before. induction s as [|c s IH]; intros before; cbn [cut].
  - destruct (strip_prefix needle "") as [r|] eqn:E; [|discriminate].
    intros [= <- <-]. now apply strip_prefix_Some in E.
  - destruct (strip_prefix needle (String c s)) as [r|] eqn:E.
    + intros [= <- <-]. now apply strip_prefix_Some in E.
    + destruct (cut needle s) as [[b r]|]; [|discriminate].
      intros [= <- <-]. cbn [append]. now rewrite (IH b eq_refl).
Qed.

Lemma cut_None (needle s : string) :
  cut needle s = None -> forall before rest, s <> before ++ needle ++ rest.
Proof.
  induction s as [|c s IH]; cbn [cut].
  - destruct (strip_prefix needle "") as [r|] eqn:E; [discriminate|].
    intros _ before rest H. destruct before as [|x before].
    + cbn [append] in H. rewrite H, strip_prefix_app in E. discriminate E.
    + discriminate H.
  - destruct (strip_prefix needle (String c s)) as [r|] eqn:E;
      [discriminate|].
    destruct (cut needle s) as [[b r]|] eqn:Ec; [discriminate|].
    intros _ before rest H. destruct before as [|x before].
    + cbn [append] in H. rewrite H, strip_prefix_app in E. discriminate E.
    + cbn [append] in H. injection H as _ H. exact (IH eq_refl _ _ H).
Qed.

(** The text before the first occurrence of a character does not hold
    it. *)
Lemma cut_char_first (c : ascii) (s before rest : string) :
  cut (String c "") s = Some (before, rest) -> has_char c before = false.
Proof.
  revert before. induction s as [|x s IH]; intros before; cbn [cut].
  - cbn. discriminate.
  - cbn [strip_prefix]. destruct (Ascii.eqb_spec c x) as [<-|Hne].
    + intros [= <- <-]. reflexivity.
    + destruct (cut (String c "") s) as [[b r]|]; [|discriminate].
      intros [= <- <-]. cbn [has_char]. rewrite (IH b eq_refl).
      destruct (Ascii.eqb_spec x c); [congruence | reflexivity].
Qed.

Lemma line_of_app (u w : string) :
  all_chars dot u = true -> line_of (u ++ w) = u ++ line_of w.
Proof.
  induction u as [|c u IH]; cbn [all_chars append line_of];
    [reflexivity|].
  intros H. apply andb_true_iff in H as [Hc Hu]. now rewrite Hc, IH.
Qed.

Lemma includes_app (u needle w : string) :
  includes (u ++ needle ++ w) needle = true.
Proof.
  induction u as [|c u IH]; cbn [append]; [apply includes_prefix|].
  rewrite includes_unfold, IH. now destruct (startsWith _ _).
Qed.

Lemma everywhere_suffix (test : string -> bool) (pre suf : string) :
  everywhere test (pre ++ suf) = true -> test suf = true.
Proof.
  induction pre as [|c pre IH]; cbn [append].
  - destruct suf; cbn [everywhere]; intros H;
      now apply andb_true_iff in H as [H _].
  - cbn [everywhere]. intros H. apply andb_true_iff in H as [_ H]. auto.
Qed.

(** Two patterns that agree at every position of a text are replaced
    alike in it. *)
Lemma scan_agree (B : Type) (m m' : string -> option (B * string))
    (s : string) :
  (forall pre suf, s = pre ++ suf -> m suf = m' suf) ->
  forall skip, scan m skip s = scan m' skip s.
Proof.
  induction s as [|c s IH]; intros H skip; [reflexivity|].
  assert (Hs : forall pre suf, s = pre ++ suf -> m suf = m' suf).
  { intros pre suf ->. now apply (H (String c pre)). }
  cbn [scan]. destruct skip as [|k]; [|now apply IH].
  rewrite <- (H "" (String c s) eq_refl).
  destruct (m (String c s)) as [[b rest]|]; f_equal; now apply IH.
Qed.

Lemma replace_all_agree (B : Type) (m m' : string -> option (B * string))
    (replacement s : string) :
  (forall pre suf, s = pre ++ suf -> m suf = m' suf) ->
  replace_all m replacement s = replace_all m' replacement s.
Proof.
  intros H. unfold replace_all, tokens. now rewrite (@scan_agree B m m' s H).
Qed.

(** *** Where the patterns find the tags *)

Lemma xmlHeaderRegex_declaration (s : string) :
  declaration_on_one_line s = true -> xmlHeaderRegex s = xml_declaration s.
Proof.
  unfold declaration_on_one_line, xml_declaration.
  destruct (strip_prefix "<?xml" s) as [r|] eqn:E.
  - apply strip_prefix_Some in E as ->.
    intros H. apply andb_true_iff in H as [Hs H]. rewrite Hs.
    destruct (cut "?>" r) as [[body rest]|] eqn:Ec.
    + apply andb_true_iff in H as [Hbody Hline].
      apply cut_Some in Ec as ->.
      apply xmlHeaderRegex_spec. exists ("<?xml" ++ body ++ "?>"). split.
      { now rewrite !app_assoc_s. }
      exists body. split; [reflexivity|]. split; [exact Hbody|].
      intros u v ->. destruct (all_chars dot u) eqn:Hu; [|reflexivity].
      rewrite (@line_of_app u _ Hu) in Hline.
      change (line_of ("?>" ++ v)) with ("?>" ++ line_of v) in Hline.
      now rewrite includes_app in Hline.
    + destruct (xmlHeaderRegex ("<?xml" ++ r)) as [[[] rest]|] eqn:Ex;
        [|reflexivity].
      exfalso.
      apply xmlHeaderRegex_spec in Ex as (span & Ht & body & -> & _).
      rewrite !app_assoc_s in Ht. apply app_inv_head_s in Ht.
      exact (@cut_None _ _ Ec _ _ Ht).
  - intros _. unfold xmlHeaderRegex, lit. now rewrite E.
Qed.

Lemma tag_end_app (attrs w : string) :
  has_char ">" attrs = false ->
  forall q, tag_end q (attrs ++ w) = tag_end (quoting_after q attrs) w.
Proof.
  induction attrs as [|c attrs IH]; intros H q; [reflexivity|].
  cbn [has_char] in H. apply orb_false_iff in H as [Hc H].
  cbn [append tag_end quoting_after]. rewrite Hc.
  destruct q; now apply IH.
Qed.

Lemma tag_end_Some (s rest : string) :
  forall q, tag_end q s = Some rest ->
            exists before, s = before ++ ">" ++ rest.
Proof.
  induction s as [|c s IH]; intros q; cbn [tag_end]; [discriminate|].
  assert (Hnext : tag_end (quote_step q c) s = Some rest ->
                  exists before, String c s = before ++ ">" ++ rest).
  { intros H. destruct (IH _ H) as [before ->]. now exists (String c before). }
  destruct q; try exact Hnext.
  destruct (Ascii.eqb_spec c ">") as [->|_]; [|exact Hnext].
  intros [= ->]. now exists "".
Qed.

Lemma robotOpenRegex_open_tag (s : string) :
  open_tag_on_one_line s = true -> robotOpenRegex s = robot_open_tag s.
Proof.
  unfold open_tag_on_one_line, robot_open_tag.
  destruct (strip_prefix "<robot" s) as [r|] eqn:E.
  - apply strip_prefix_Some in E as ->.
    intros H. apply andb_true_iff in H as [Hs H]. rewrite Hs.
    destruct (cut ">" r) as [[attrs rest]|] eqn:Ec.
    + apply andb_true_iff in H as [Hline Hq].
      pose proof (@cut_char_first _ _ _ _ Ec) as Hfirst.
      apply cut_Some in Ec as ->.
      rewrite (@tag_end_app attrs (">" ++ rest) Hfirst Unquoted).
      unfold unquoted in Hq.
      destruct (quoting_after Unquoted attrs); try discriminate Hq.
      cbn [append tag_end Ascii.eqb Bool.eqb].
      apply robotOpenRegex_spec. exists ("<robot" ++ attrs ++ ">"). split.
      { now rewrite !app_assoc_s. }
      exists attrs. now repeat split.
    + assert (Hnone : tag_end Unquoted r = None).
      { destruct (tag_end Unquoted r) as [rest|] eqn:Et; [|reflexivity].
        destruct (tag_end_Some _ _ Et) as [before Hr].
        destruct (@cut_None _ _ Ec _ _ Hr). }
      rewrite Hnone.
      destruct (robotOpenRegex ("<robot" ++ r)) as [[[] rest]|] eqn:Ex;
        [|reflexivity].
      exfalso.
      apply robotOpenRegex_spec in Ex as (span & Ht & attrs & -> & _).
      rewrite !app_assoc_s in Ht. apply app_inv_head_s in Ht.
      exact (@cut_None _ _ Ec _ _ Ht).
  - intros _. unfold robotOpenRegex, lit. now rewrite E.
Qed.

Lemma robotCloseRegex_close_tag (s : string) :
  close_tag_plain s = true -> robotCloseRegex s = robot_close_tag s.
Proof.
  unfold close_tag_plain, robotCloseRegex, lit, startsWith.
  destruct (strip_prefix "</robot>" s) as [rest|] eqn:E.
  - apply strip_prefix_Some in E as ->. reflexivity.
  - destruct (robot_close_tag s) as [[[] rest]|]; [discriminate | reflexivity].
Qed.

Lemma skip_spaces_app (s : string) : exists w, s = w ++ skip_spaces s.
Proof.
  induction s as [|c s [w IH]]; [now exists ""|].
  cbn [skip_spaces]. destruct (is_space c); [|now exists ""].
  exists (String c w). cbn [append]. now rewrite <- IH.
Qed.

(** *** The tags consume what they match *)

Lemma xml_declaration_advances : advances xml_declaration.
Proof.
  intros s [] rest. unfold xml_declaration.
  destruct (strip_prefix "<?xml" s) as [r|] eqn:E; [|discriminate].
  destruct (starts_in is_space r); [|discriminate].
  destruct (cut "?>" r) as [[body rest']|] eqn:Ec; [|discriminate].
  intros [= <-]. apply strip_prefix_Some in E as ->.
  apply cut_Some in Ec as ->.
  exists ("<?xml" ++ body ++ "?>"). split; [discriminate|].
  now rewrite !app_assoc_s.
Qed.

Lemma robot_open_tag_advances : advances robot_open_tag.
Proof.
  intros s [] rest. unfold robot_open_tag.
  destruct (strip_prefix "<robot" s) as [r|] eqn:E; [|discriminate].
  destruct (starts_in name_end r); [|discriminate].
  destruct (tag_end Unquoted r) as [rest'|] eqn:Et; [|discriminate].
  intros [= <-]. apply strip_prefix_Some in E as ->.
  destruct (tag_end_Some _ _ Et) as [before ->].
  exists ("<robot" ++ before ++ ">"). split; [discriminate|].
  now rewrite !app_assoc_s.
Qed.

Lemma robot_close_tag_advances : advances robot_close_tag.
Proof.
  intros s [] rest. unfold robot_close_tag.
  destruct (strip_prefix "</robot" s) as [r|] eqn:E; [|discriminate].
  apply strip_prefix_Some in E as ->.
  destruct (skip_spaces_app r) as [w Hw].
  destruct (skip_spaces r) as [|c rest']; [discriminate|].
  destruct (Ascii.eqb_spec c ">") as [->|_]; [|discriminate].
  intros [= <-]. rewrite Hw.
  exists ("</robot" ++ w ++ ">"). split; [discriminate|].
  now rewrite !app_assoc_s.
Qed.

(** *** The three passes *)

Lemma strip_wrappers_strip_tags (includeContent : string) :
  plain_tags includeContent = true ->
  strip_wrappers includeContent = strip_tags includeContent.
Proof.
  unfold plain_tags, strip_wrappers, strip_tags, without.
  intros H. apply andb_true_iff in H as [H H3].
  apply andb_true_iff in H as [H1 H2].
  assert (E1 : replace_all xmlHeaderRegex "" includeContent
               = replace_all xml_declaration "" includeContent).
  { apply replace_all_agree. intros pre suf ->.
    apply xmlHeaderRegex_declaration. exact (@everywhere_suffix _ _ _ H1). }
  rewrite E1.
  assert (E2 : replace_all robotOpenRegex ""
                 (replace_all xml_declaration "" includeContent)
               = replace_all robot_open_tag ""
                   (replace_all xml_declaration "" includeContent)).
  { apply replace_all_agree. intros pre suf Hs.
    apply robotOpenRegex_open_tag. rewrite Hs in H2.
    exact (@everywhere_suffix _ _ _ H2). }
  rewrite E2.
  apply replace_all_agree. intros pre suf Hs.
  apply robotCloseRegex_close_tag. rewrite Hs in H3.
  exact (@everywhere_suffix _ _ _ H3).
Qed.

End WrapperFacts.

(** ** The matcher *)

Module MatcherFacts.
Import Matcher.

Section WithFile.

Variable File : Type.
Implicit Types (fm : FileMap File) (t k : string).

(** The code's [split('/').pop()] is the text after the last slash. *)
Lemma split_pop_final_segment (s : string) :
  split_pop "/" s = final_segment s.
Proof.
  unfold split_pop. induction s as [|c s IH]; [reflexivity|].
  cbn [split final_segment].
  destruct (has_char "/" s) eqn:H.
  - destruct (has_char_true_split "/" s H) as [a [b [r E]]].
    rewrite E in *. destruct (Ascii.eqb c "/"); exact IH.
  - rewrite (has_char_false_split "/" s H).
    destruct (Ascii.eqb c "/"); reflexivity.
Qed.

Lemma strategyA_first_accepted t fm :
  strategyA t fm = first_accepted (accepts_scheme_stripped t) fm.
Proof.
  unfold first_accepted, accepts_scheme_stripped.
  induction fm as [|[path file] rest IH]; [reflexivity|].
  cbn [strategyA List.find fst].
  destruct (String.eqb path t); [reflexivity|].
  destruct (endsWith path ("/" ++ t)); [reflexivity|].
  destruct (endsWith t ("/" ++ path)); [reflexivity|].
  exact IH.
Qed.

Lemma strategyC_first_accepted name fm :
  strategyC name fm = first_accepted (accepts_filename name) fm.
Proof.
  unfold first_accepted, accepts_filename.
  induction fm as [|[path file] rest IH]; [reflexivity|].
  cbn [strategyC List.find fst].
  rewrite (orb_comm (endsWith _ _)).
  destruct (String.eqb path name || endsWith path ("/" ++ name));
    [reflexivity | exact IH].
Qed.

Lemma findFileInMap_guarded t fm :
  findFileInMap t fm = match_by_priority_guarded t fm.
Proof.
  unfold findFileInMap, match_by_priority_guarded, map_has, exact_key,
    scheme_stripped_scan, filename_fallback.
  cbn [first_match].
  destruct (map_get t fm) as [f|]; [reflexivity|].
  rewrite strategyA_first_accepted.
  destruct (first_accepted (accepts_scheme_stripped (strip_scheme t)) fm)
    as [f|]; [reflexivity|].
  rewrite split_pop_final_segment, strategyC_first_accepted.
  destruct (truthy _); [|reflexivity].
  now destruct (first_accepted _ fm).
Qed.

Lemma findFileInMap_file_keys t fm :
  (forall k f, In (k, f) fm -> file_key k = true) ->
  findFileInMap t fm = match_by_priority t fm.
Proof.
  intros Hkeys. rewrite findFileInMap_guarded.
  unfold match_by_priority_guarded, match_by_priority.
  destruct (final_segment (strip_scheme t)) as [|c seg] eqn:E;
    [|reflexivity].
  cbn [truthy first_match].
  destruct (exact_key t fm); [reflexivity|].
  destruct (scheme_stripped_scan t fm); [reflexivity|].
  unfold filename_fallback, first_accepted. rewrite E.
  induction fm as [|[k f] rest IH]; [reflexivity|].
  cbn [List.find fst].
  assert (Hk : file_key k = true) by (apply (Hkeys k f); now left).
  unfold file_key in Hk. apply andb_true_iff in Hk as [Hne Hslash].
  apply negb_true_iff in Hslash.
  unfold accepts_filename at 1. cbn [append]. rewrite Hslash.
  destruct k; [discriminate|]. cbn [String.eqb orb].
  apply IH. intros k' f' HIn. apply (Hkeys k' f'). now right.
Qed.

Lemma first_accepted_none (accepts : string -> bool) fm :
  (forall k f, In (k, f) fm -> accepts k = false) ->
  first_accepted accepts fm = None.
Proof.
  unfold first_accepted. induction fm as [|[k f] rest IH]; intros H.
  - reflexivity.
  - cbn [List.find fst]. rewrite (H k f (or_introl eq_refl)).
    apply IH. intros k' f' HIn. apply (H k' f'). now right.
Qed.

Lemma map_get_none t fm :
  (forall k f, In (k, f) fm -> String.eqb k t = false) ->
  map_get t fm = None.
Proof.
  induction fm as [|[k f] rest IH]; intros H; [reflexivity|].
  cbn [map_get]. rewrite (H k f (or_introl eq_refl)).
  apply IH. intros k' f' HIn. apply (H k' f'). now right.
Qed.

End WithFile.

(** The matcher on the examples of the specification. *)

Example matcher_exact : findFileInMap "a/b.stl" [("a/b.stl", F1)] = Some F1.
Proof. reflexivity. Qed.

Example matcher_scheme_stripped :
  findFileInMap "package://robot/meshes/base.stl"
    [("robot/meshes/base.stl", F1)] = Some F1.
Proof. reflexivity. Qed.

Example matcher_fallback :
  findFileInMap "package://robot/meshes/base.stl" [("other/base.stl", F1)]
  = Some F1.
Proof. reflexivity. Qed.

Example matcher_first_entry_wins :
  findFileInMap "package://robot/meshes/base.stl"
    [("x/meshes/base.stl", F2); ("root/robot/meshes/base.stl", F1)] = Some F1
  /\ findFileInMap "base.stl" [("a/base.stl", F1); ("base.stl", F2)]
     = Some F2
  /\ findFileInMap "file://base.stl" [("a/base.stl", F1); ("b/base.stl", F2)]
     = Some F1.
Proof. repeat split. Qed.

End MatcherFacts.

(** ** The example file system *)

Module ExampleFacts.
Import Resolver ResolverSpec Posix Examples.

Lemma chain_acyclic : acyclic chain_host "/pub" chain_rank.
Proof.
  intros p c q He Hr Hin Hq.
  cbn [chain_host host_of existsSync readFileSync path_dirname] in *.
  unfold exists_in, read_from, chain_table, lookup in He, Hr.
  destruct (String.eqb_spec "/pub/main.xacro" p) as [<-|_].
  { injection Hr as <-. vm_compute in Hin. destruct Hin as [<-|[]].
    cbv. lia. }
  destruct (String.eqb_spec "/pub/parts/arm.xacro" p) as [<-|_].
  { injection Hr as <-. vm_compute in Hin. destruct Hin as [<-|[]].
    cbv. lia. }
  destruct (String.eqb_spec "/pub/tools/hand.xacro" p) as [<-|_].
  { injection Hr as <-. vm_compute in Hin. destruct Hin. }
  destruct (String.eqb_spec "/pub/meshes" p) as [<-|_]; [discriminate|].
  destruct (String.eqb_spec "/pub/broken.xacro" p) as [<-|_]; [|discriminate].
  injection Hr as <-. vm_compute in Hin.
  destruct Hin as [<-|[<-|[]]]; cbv; lia.
Qed.

End ExampleFacts.

(* ================================================================== *)
(** * Part III: the matcher's contract *)

Import Matcher MatcherFacts.

(** C1 (amended): the matcher tries, in strict priority order, (1) the
    unmodified target as an exact key, (2) the scan of the entries against
    the scheme-stripped target, (3) the file-name fallback, which is tried
    only when the final path segment of the normalized target is not empty;
    the first strategy that yields a match gives the result and Not Found is
    returned when none does.  The guard on strategy 3 makes no difference on
    a file set whose keys are file paths (not empty, not ending with a
    slash).  The dropped-folder example of the specification returns
    [F1]. *)
Theorem findFileInMap_priority_order :
  (forall (File : Type) (target : string) (fileSet : FileMap File),
      findFileInMap target fileSet = match_by_priority_guarded target fileSet)
  /\ (forall (File : Type) (target : string) (fileSet : FileMap File),
         (forall key file, In (key, file) fileSet -> file_key key = true) ->
         findFileInMap target fileSet = match_by_priority target fileSet)
  /\ findFileInMap "package://robot/meshes/base.stl"
       [("dropped_root/robot/meshes/base.stl", F1)] = Some F1.
Proof.
  split; [|split].
  - intros File target fileSet. apply findFileInMap_guarded.
  - intros File target fileSet. apply findFileInMap_file_keys.
  - reflexivity.
Qed.

Lemma findFileInMap_priority_order_witness :
  findFileInMap "package://robot/meshes/" [("other/base.stl", F1)]
  = match_by_priority "package://robot/meshes/" [("other/base.stl", F1)].
Proof.
  apply (proj1 (proj2 findFileInMap_priority_order)).
  intros key file [E | []]. injection E as <- _. reflexivity.
Defined.

(** C1, as stated, fails when the normalized target ends with a slash: its
    final segment is empty, every key ending with a slash is accepted by
    strategy 3 as worded, and the code does not run the fallback at all. *)
Lemma findFileInMap_empty_segment_counterexample :
  match_by_priority "foo/" [("bar/", F1)] = Some F1
  /\ findFileInMap "foo/" [("bar/", F1)] = None.
Proof. split; reflexivity. Qed.

(** C8: the matcher is a total function into [option File]; on the empty
    file set, and on every file set none of whose keys matches under any
    strategy, the result is the ordinary value [None] (Not Found). *)
Theorem findFileInMap_not_found
  (File : Type) (target : string) (fileSet : FileMap File) :
  findFileInMap target (@nil (string * File)) = None
  /\ ((forall key file, In (key, file) fileSet ->
         matches_some_strategy target key = false) ->
      findFileInMap target fileSet = None).
Proof.
  split.
  - unfold findFileInMap. cbn. now destruct (truthy _).
  - intros H. rewrite findFileInMap_guarded.
    unfold match_by_priority_guarded, exact_key, scheme_stripped_scan,
      filename_fallback.
    assert (H1 : map_get target fileSet = None).
    { apply map_get_none. intros k f HIn. specialize (H k f HIn).
      unfold matches_some_strategy in H.
      now apply orb_false_iff in H as [H%orb_false_iff _]. }
    assert (H2 : first_accepted
                   (accepts_scheme_stripped (strip_scheme target)) fileSet
                 = None).
    { apply first_accepted_none. intros k f HIn. specialize (H k f HIn).
      unfold matches_some_strategy in H.
      now apply orb_false_iff in H as [H%orb_false_iff _]. }
    assert (H3 : first_accepted
                   (accepts_filename (final_segment (strip_scheme target)))
                   fileSet = None).
    { apply first_accepted_none. intros k f HIn. specialize (H k f HIn).
      unfold matches_some_strategy in H.
      now apply orb_false_iff in H as [_ H]. }
    cbn [first_match]. rewrite H1, H2, H3. now destruct (truthy _).
Qed.

Lemma findFileInMap_not_found_witness :
  findFileInMap "package://robot/meshes/base.stl" [("other/arm.stl", F1)]
  = None.
Proof.
  apply (findFileInMap_not_found
           "package://robot/meshes/base.stl" [("other/arm.stl", F1)]).
  intros key file [E | []]. injection E as <- _. reflexivity.
Defined.

(** C10: scheme normalization removes exactly one leading [package://] or
    [file://]; every other target is left as it is, and the scan of
    strategy 2 then compares the keys with the full target. *)
Theorem strip_scheme_one_leading_prefix (target : string) :
  (forall rest, target = "package://" ++ rest -> strip_scheme target = rest)
  /\ (forall rest, target = "file://" ++ rest -> strip_scheme target = rest)
  /\ (startsWith target "package://" = false ->
      startsWith target "file://" = false ->
      strip_scheme target = target
      /\ forall (File : Type) (fileSet : FileMap File) (file : File),
           map_get target fileSet = None ->
           first_accepted (accepts_scheme_stripped target) fileSet = Some file ->
           findFileInMap target fileSet = Some file).
Proof.
  split; [|split].
  - intros rest ->. unfold strip_scheme. now rewrite strip_prefix_app.
  - intros rest ->. unfold strip_scheme.
    rewrite (strip_prefix_app "file://" rest).
    destruct (strip_prefix "package://" ("file://" ++ rest)) eqn:E;
      [discriminate E | reflexivity].
  - unfold startsWith. intros Hp Hf.
    assert (E : strip_scheme target = target).
    { unfold strip_scheme.
      destruct (strip_prefix "package://" target); [discriminate|].
      now destruct (strip_prefix "file://" target). }
    split; [exact E|].
    intros File fileSet file Hget Hscan.
    unfold findFileInMap, map_has. rewrite Hget, E.
    now rewrite strategyA_first_accepted, Hscan.
Qed.

Lemma strip_scheme_one_leading_prefix_witness :
  strip_scheme "package://file://a/b.stl" = "file://a/b.stl"
  /\ strip_scheme "file://package://a/b.stl" = "package://a/b.stl"
  /\ strip_scheme "http://package://a/b.stl" = "http://package://a/b.stl"
  /\ findFileInMap "http://host/b.stl" [("root/http://host/b.stl", F2)]
     = Some F2.
Proof.
  split; [|split; [|split]].
  - apply (proj1 (strip_scheme_one_leading_prefix "package://file://a/b.stl")).
    reflexivity.
  - apply (proj1 (proj2 (strip_scheme_one_leading_prefix
                           "file://package://a/b.stl"))).
    reflexivity.
  - apply (proj2 (proj2 (strip_scheme_one_leading_prefix
                           "http://package://a/b.stl"))); reflexivity.
  - apply (proj2 (proj2 (strip_scheme_one_leading_prefix "http://host/b.stl")));
      reflexivity.
Defined.

(* ================================================================== *)
(** * Part IV: the resolver's contract *)

Import Resolver ResolverSpec RegexFacts ResolverFacts WrapperFacts Examples
  ExampleFacts.

Unset Implicit Arguments.

(** C2 (amended): before recursing into an included file, the resolver
    strips from its content every declaration prolog, then every open tag
    and every close tag of the container, wherever they occur and not only
    the outermost ones, and keeps every other character.  This is stated
    for a content whose tags are written plainly: each declaration and each
    open tag on one line, each close tag without white space; nothing is
    stated for any other content. *)
Theorem strip_wrappers_every_occurrence (host : Host) :
  (forall recurse workingDir publicDirPath filename includeContent,
      let filePath := target_path host filename workingDir publicDirPath in
      existsSync host filePath = true ->
      readFileSync host filePath = inl includeContent ->
      include_callback host recurse workingDir publicDirPath filename
      = (print (Including filePath) ;;;
         recurse (strip_wrappers includeContent)
                 (path_dirname host filePath)))
  /\ (forall includeContent,
         plain_tags includeContent = true ->
         strip_wrappers includeContent = strip_tags includeContent)
  /\ (forall includeContent,
         exists c1 c2,
           Removed xml_declaration includeContent c1
           /\ Removed robot_open_tag c1 c2
           /\ Removed robot_close_tag c2 (strip_tags includeContent)).
Proof.
  split; [|split].
  - intros recurse workingDir publicDirPath filename includeContent filePath.
    apply include_callback_found.
  - apply strip_wrappers_strip_tags.
  - intros includeContent. unfold strip_tags, without.
    exists (replace_all xml_declaration "" includeContent),
           (replace_all robot_open_tag ""
              (replace_all xml_declaration "" includeContent)).
    split; [|split].
    + apply (replace_all_Removed xml_declaration_advances).
    + apply (replace_all_Removed robot_open_tag_advances).
    + apply (replace_all_Removed robot_close_tag_advances).
Qed.

Lemma strip_wrappers_every_occurrence_witness :
  include_callback chain_host (fun stripped dir => ret (stripped ++ "@" ++ dir))
    "/pub" "/pub" "$(find tools)/hand.xacro"
  = ([Including "/pub/tools/hand.xacro"],
     Done "<link name=hand/>@/pub/tools")
  /\ strip_wrappers arm_file = strip_tags arm_file.
Proof.
  split.
  - rewrite (proj1 (strip_wrappers_every_occurrence chain_host)
               (fun stripped dir => ret (stripped ++ "@" ++ dir))
               "/pub" "/pub" "$(find tools)/hand.xacro"
               "<?xml version=1?><robot name=hand><link name=hand/></robot>");
      reflexivity.
  - apply (proj1 (proj2 (strip_wrappers_every_occurrence chain_host))
             arm_file).
    reflexivity.
Defined.

(** C2, as stated, fails on a description nested in another one, each tag
    on one line: the inner open and close tags are removed with the outer
    ones. *)
Lemma strip_wrappers_inner_tags_counterexample :
  plain_tags nested_robot = true
  /\ strip_wrappers nested_robot = "<link/>"
  /\ strip_outermost nested_robot = "<robot name=b><link/></robot>"
  /\ strip_wrappers nested_robot <> strip_outermost nested_robot.
Proof. repeat split; [reflexivity.. | discriminate]. Qed.

(** Where a tag is not written plainly the patterns of the code miss it:
    an open tag that runs over two lines stays, while its close tag
    goes. *)
Lemma strip_wrappers_two_line_tag :
  plain_tags two_line_tag = false
  /\ strip_tags two_line_tag = "<link/>"
  /\ strip_wrappers two_line_tag
     = "<robot" ++ String "010" "" ++ " name=arm><link/>".
Proof. repeat split. Qed.

(** The macro and literal rule, where the code follows it: a file name
    [$(find PACKAGE)REST] whose REST holds no closing parenthesis stands
    for [path.join(rootDir, PACKAGE, REST)], whatever the working directory
    and the depth; a file name without [$(find ] is resolved against the
    working directory; the nested call for an included file runs in that
    file's directory with the same root directory, and the directives that
    follow keep the current working directory. *)
Lemma target_path_macro_literal_rule (host : Host) :
  (forall pkg rest workingDir publicDirPath,
      package_name pkg = true ->
      has_char ")" rest = false ->
      target_path host ("$(find " ++ pkg ++ ")" ++ rest)
                  workingDir publicDirPath
      = path_join host publicDirPath pkg rest)
  /\ (forall filename workingDir publicDirPath,
         includes filename "$(find " = false ->
         target_path host filename workingDir publicDirPath
         = path_resolve host workingDir filename)
  /\ (forall fuel span filename rest workingDir publicDirPath includeContent,
         let filePath := target_path host filename workingDir publicDirPath in
         span <> "" ->
         includeRegex (span ++ rest) = Some (filename, rest) ->
         existsSync host filePath = true ->
         readFileSync host filePath = inl includeContent ->
         processIncludes host (S fuel) (span ++ rest) workingDir publicDirPath
         = (r <- (print (Including filePath) ;;;
                  processIncludes host fuel (strip_wrappers includeContent)
                    (path_dirname host filePath) publicDirPath) ;;
            t <- processIncludes host (S fuel) rest workingDir publicDirPath ;;
            ret (r ++ t))).
Proof.
  split; [|split].
  - intros. now apply target_path_macro.
  - intros. now apply target_path_literal.
  - intros fuel span filename rest workingDir publicDirPath includeContent
           filePath Hne Hm He Hr.
    rewrite (@processIncludes_hit host (S fuel) span filename rest workingDir
               publicDirPath Hne Hm).
    now rewrite (include_callback_found host _ _ _ _ He Hr).
Qed.

Lemma target_path_macro_literal_rule_witness :
  target_path chain_host "$(find pkgA)/meshes/x.stl" "/pub/deep/dir" "/pub"
  = "/pub/pkgA/meshes/x.stl"
  /\ target_path chain_host "parts/arm.xacro" "/pub" "/pub"
     = "/pub/parts/arm.xacro"
  /\ processIncludes chain_host 1 (directive "parts/arm.xacro" ++ "<b/>")
       "/pub" "/pub"
     = (r <- (print (Including "/pub/parts/arm.xacro") ;;;
              processIncludes chain_host 0
                ("<link name=arm/>" ++ directive "$(find tools)/hand.xacro")
                "/pub/parts" "/pub") ;;
        t <- processIncludes chain_host 1 "<b/>" "/pub" "/pub" ;;
        ret (r ++ t)).
Proof.
  split; [|split].
  - apply (proj1 (target_path_macro_literal_rule chain_host)
             "pkgA" "/meshes/x.stl" "/pub/deep/dir" "/pub"); reflexivity.
  - apply (proj1 (proj2 (target_path_macro_literal_rule chain_host))
             "parts/arm.xacro" "/pub" "/pub"); reflexivity.
  - apply (proj2 (proj2 (target_path_macro_literal_rule chain_host))
             0 (directive "parts/arm.xacro") "parts/arm.xacro" "<b/>"
             "/pub" "/pub"
             ("<robot name=arm><link name=arm/>"
              ++ directive "$(find tools)/hand.xacro" ++ "</robot>"));
      [discriminate | reflexivity..].
Defined.

(** C3: the code breaks the macro rule when REST holds a closing
    parenthesis.  For [$(find pkg)/urdf/robot (copy).xacro] the rule gives
    [rootDir/pkg/urdf/robot (copy).xacro]; the code takes for REST what
    follows the last closing parenthesis of the file name, [.xacro], and
    looks for [rootDir/pkg/.xacro], whatever the host, the working
    directory and the root directory. *)
Theorem target_path_rest_after_last_parenthesis :
  (forall host workingDir publicDirPath,
      target_path host "$(find pkg)/urdf/robot (copy).xacro"
                  workingDir publicDirPath
      = path_join host publicDirPath "pkg" ".xacro")
  /\ target_path chain_host "$(find pkg)/urdf/robot (copy).xacro"
                 "/pub/x" "/pub"
     = "/pub/pkg/.xacro"
  /\ path_join chain_host "/pub" "pkg" "/urdf/robot (copy).xacro"
     = "/pub/pkg/urdf/robot (copy).xacro"
  /\ target_path chain_host "$(find pkg)/urdf/robot (copy).xacro"
                 "/pub/x" "/pub"
     <> path_join chain_host "/pub" "pkg" "/urdf/robot (copy).xacro".
Proof. repeat split; [reflexivity.. | discriminate]. Qed.



(** C5 (amended): when the file of a directive exists but cannot be read,
    and the directives before it were resolved, the resolution ends there
    with the read error: nothing is printed or produced for the directives
    that follow, and the handler answers with status 500 and the message of
    the error. *)
Theorem unreadable_include_aborts
    (host : Host) (fuel : nat)
    (publicDirPath content workingDir : string)
    (pre post : list (token string)) (span filename : string)
    (l1 : list event) (o1 message : string) :
  let filePath := target_path host filename workingDir publicDirPath in
  tokens includeRegex content = (pre ++ Hit span filename :: post)%list ->
  splice (include_callback host (nested_call host fuel publicDirPath)
            workingDir publicDirPath) pre = (l1, Done o1) ->
  existsSync host filePath = true ->
  readFileSync host filePath = inr message ->
  processIncludes host fuel content workingDir publicDirPath
  = ((l1 ++ [Including filePath])%list, Thrown message)
  /\ (forall file,
         let fullPath := path_resolve host publicDirPath file in
         truthy file = true ->
         existsSync host fullPath = true ->
         readFileSync host fullPath = inl content ->
         path_dirname host fullPath = workingDir ->
         xacro_to_urdf host fuel publicDirPath (QString file)
         = ((Pre_assembling fullPath
             :: (l1 ++ [Including filePath]) ++ [Backend_error message])%list,
            Done {| status := 500; body := message |})).
Proof.
  intros filePath Htok Hpre He Hr.
  assert (H : processIncludes host fuel content workingDir publicDirPath
              = ((l1 ++ [Including filePath])%list, Thrown message)).
  { rewrite processIncludes_unfold, Htok.
    apply splice_abort with (o1 := o1); [exact Hpre|].
    now apply include_callback_unreadable. }
  split; [exact H|].
  intros file fullPath Ht Hef Hrf Hdir.
  apply xacro_to_urdf_backend_error with (content := content);
    try assumption.
  fold fullPath. now rewrite Hdir.
Qed.

Lemma unreadable_include_aborts_witness :
  processIncludes chain_host 1
    ("<a/>" ++ directive "gone.xacro" ++ unreadable_then_sibling)
    "/pub" "/pub"
  = ([Not_found "/pub/gone.xacro"; Including "/pub/meshes"],
     Thrown "EISDIR: illegal operation on a directory, read")
  /\ xacro_to_urdf chain_host 2 "/pub" (QString "broken.xacro")
     = ([Pre_assembling "/pub/broken.xacro"; Including "/pub/meshes";
         Backend_error "EISDIR: illegal operation on a directory, read"],
        Done {| status := 500;
                body := "EISDIR: illegal operation on a directory, read" |}).
Proof.
  split.
  - apply (unreadable_include_aborts chain_host 1 "/pub"
             ("<a/>" ++ directive "gone.xacro" ++ unreadable_then_sibling)
             "/pub"
             [Lit "<"%char; Lit "a"%char; Lit "/"%char; Lit ">"%char;
              Hit (directive "gone.xacro") "gone.xacro"]
             [Hit (directive "parts/arm.xacro") "parts/arm.xacro"]
             (directive "meshes") "meshes"
             [Not_found "/pub/gone.xacro"]
             ("<a/>" ++ placeholder "gone.xacro")
             "EISDIR: illegal operation on a directory, read");
      reflexivity.
  - apply (proj2 (unreadable_include_aborts chain_host 2 "/pub"
                    unreadable_then_sibling "/pub"
                    []
                    [Hit (directive "parts/arm.xacro") "parts/arm.xacro"]
                    (directive "meshes") "meshes"
                    [] ""
                    "EISDIR: illegal operation on a directory, read"
                    eq_refl eq_refl eq_refl eq_refl)
             "broken.xacro");
      reflexivity.
Defined.

(** C5, as stated, fails: the directive after the unreadable one is not
    resolved, although on its own it resolves; the request ends with
    status 500 and no document. *)
Lemma sibling_after_unreadable_counterexample :
  processIncludes chain_host 2 unreadable_then_sibling "/pub" "/pub"
  = ([Including "/pub/meshes"],
     Thrown "EISDIR: illegal operation on a directory, read")
  /\ processIncludes chain_host 2 (directive "parts/arm.xacro") "/pub" "/pub"
     = ([Including "/pub/parts/arm.xacro"; Including "/pub/tools/hand.xacro"],
        Done "<link name=arm/><link name=hand/>")
  /\ xacro_to_urdf chain_host 2 "/pub" (QString "broken.xacro")
     = ([Pre_assembling "/pub/broken.xacro"; Including "/pub/meshes";
         Backend_error "EISDIR: illegal operation on a directory, read"],
        Done {| status := 500;
                body := "EISDIR: illegal operation on a directory, read" |}).
Proof. repeat split. Qed.

(** C6 (amended): when the include graph has no cycle (some rank on paths
    decreases from every readable file to each existing file it includes),
    the recursion is bounded: from some depth on, the resolver ends with one
    and the same result.  The resolver has no guard against cycles. *)
Theorem processIncludes_terminates_without_cycle
    (host : Host) (publicDirPath : string) (rank : string -> nat)
    (content workingDir : string) :
  acyclic host publicDirPath rank ->
  exists fuel result,
    snd result <> Out_of_fuel
    /\ forall n, fuel <= n ->
         processIncludes host n content workingDir publicDirPath = result.
Proof.
  intros Hacyc.
  set (fuel := S (S (list_max (List.map rank
                 (include_targets host publicDirPath content workingDir))))).
  assert (Hfin : finishes
                   (processIncludes host fuel content workingDir
                      publicDirPath)).
  { apply acyclic_finishes with (rank := rank); [exact Hacyc|].
    unfold fuel. lia. }
  exists fuel, (processIncludes host fuel content workingDir publicDirPath).
  split; [exact Hfin|].
  intros n Hn. now apply processIncludes_stable.
Qed.

Lemma processIncludes_terminates_without_cycle_witness :
  exists fuel result,
    snd result <> Out_of_fuel
    /\ forall n, fuel <= n ->
         processIncludes chain_host n two_directives "/pub" "/pub" = result.
Proof.
  apply (processIncludes_terminates_without_cycle
           chain_host "/pub" chain_rank two_directives "/pub").
  exact chain_acyclic.
Defined.

(** C6, as stated, fails: a file that includes itself is followed again at
    every depth, so no bound on the depth lets the resolver end. *)
Lemma self_include_counterexample :
  processIncludes loop_host 2 loop_doc "/pub" "/pub"
  = ([Including "/pub/loop.xacro"; Including "/pub/loop.xacro";
      Including "/pub/loop.xacro"], Out_of_fuel)
  /\ ~ exists fuel,
        snd (processIncludes loop_host fuel loop_doc "/pub" "/pub")
        <> Out_of_fuel.
Proof.
  split; [reflexivity|].
  intros [fuel H]. apply H.
  apply (@self_include_diverges loop_host loop_doc "loop.xacro" "/pub" "/pub"
           loop_doc); try reflexivity.
  discriminate.
Qed.

(** C7: on a document in which no include directive occurs, the resolver
    returns the document itself, prints nothing and reads no file. *)
Theorem processIncludes_identity_without_directive
    (host : Host) (fuel : nat) (content workingDir publicDirPath : string) :
  directive_free content ->
  processIncludes host fuel content workingDir publicDirPath
  = ([], Done content).
Proof.
  induction content as [| c s Hc IH | span filename rest Hne Hm IH]
    using document_ind; intros Hfree.
  - apply processIncludes_empty.
  - rewrite (@processIncludes_lit host fuel c s workingDir publicDirPath Hc),
      (IH (directive_free_tail Hfree)).
    reflexivity.
  - rewrite (Hfree "" (span ++ rest) eq_refl) in Hm. discriminate.
Qed.

Lemma processIncludes_identity_without_directive_witness :
  processIncludes chain_host 0 nested_robot "/pub" "/pub"
  = ([], Done nested_robot).
Proof.
  apply (processIncludes_identity_without_directive
           chain_host 0 nested_robot "/pub" "/pub").
  apply no_directive_spec. vm_compute. reflexivity.
Defined.

(** C9: in the document the resolver returns, the spans of the directives
    matched by the left-to-right scan are replaced and every character
    outside them is kept, unchanged and in the same order. *)
Theorem processIncludes_frame
    (host : Host) (fuel : nat) (content workingDir publicDirPath : string)
    (l : list event) (out : string) :
  processIncludes host fuel content workingDir publicDirPath = (l, Done out) ->
  Spliced content out.
Proof.
  revert l out.
  induction content as [| c s Hc IH | span filename rest Hne Hm IH]
    using document_ind; intros l out.
  - rewrite processIncludes_empty. intros [= _ <-]. constructor.
  - rewrite (@processIncludes_lit host fuel c s workingDir publicDirPath Hc).
    intros H.
    apply bind_Done_inv in H as (l1 & t & l2 & Ht & [= _ <-] & _).
    constructor; [assumption | eauto].
  - rewrite (@processIncludes_hit host fuel span filename rest workingDir
               publicDirPath Hne Hm).
    intros H.
    apply bind_Done_inv in H as (l1 & r & l2 & _ & H & _).
    apply bind_Done_inv in H as (l3 & t & l4 & Ht & [= _ <-] & _).
    econstructor; eauto.
Qed.

Lemma processIncludes_frame_witness :
  Spliced two_directives
    ("<a/><link name=arm/><link name=hand/><b/>"
     ++ placeholder "gone.xacro" ++ "<c/>").
Proof.
  apply (processIncludes_frame chain_host 2 two_directives "/pub" "/pub"
           [Including "/pub/parts/arm.xacro";
            Including "/pub/tools/hand.xacro";
            Not_found "/pub/gone.xacro"]).
  vm_compute. reflexivity.
Defined.

(* ================================================================== *)
(** * Part V: further properties of the code *)

Set Implicit Arguments.

(** ** More on the matcher *)

Module MatcherMore.
Import Matcher MatcherFacts MatcherSpec.

Section WithFile.

Variable File : Type.
Implicit Types (fm : FileMap File) (t k : string) (f : File).

Lemma map_get_Some_In k fm f : map_get k fm = Some f -> In (k, f) fm.
Proof.
  induction fm as [|[k' v] rest IH]; cbn [map_get]; [discriminate|].
  destruct (String.eqb_spec k' k) as [->|_].
  - intros [= ->]. now left.
  - intros H. right. auto.
Qed.

Lemma map_get_In_not_None k fm f : In (k, f) fm -> map_get k fm <> None.
Proof.
  induction fm as [|[k' v] rest IH]; cbn [map_get]; [intros []|].
  intros [E | H].
  - injection E as -> _. now rewrite String.eqb_refl.
  - destruct (String.eqb k' k); [discriminate | auto].
Qed.

Lemma map_get_unique k fm f :
  NoDup (keys fm) -> In (k, f) fm -> map_get k fm = Some f.
Proof.
  unfold keys.
  induction fm as [|[k' v] rest IH]; cbn [map_get List.map fst];
    intros Hnd; [intros []|].
  apply NoDup_cons_iff in Hnd as [Hnot Hnd].
  intros [E | H].
  - injection E as -> ->. now rewrite String.eqb_refl.
  - destruct (String.eqb_spec k' k) as [->|_]; [|auto].
    destruct Hnot. change k with (fst (k, f)). now apply List.in_map.
Qed.

Lemma first_accepted_Some (accepts : string -> bool) fm f :
  first_accepted accepts fm = Some f ->
  exists k, In (k, f) fm /\ accepts k = true.
Proof.
  unfold first_accepted.
  induction fm as [|[k v] rest IH]; cbn [List.find fst]; [discriminate|].
  destruct (accepts k) eqn:E.
  - intros [= <-]. exists k. split; [now left | exact E].
  - intros H. destruct (IH H) as (k' & HIn & Hk'). exists k'.
    split; [now right | exact Hk'].
Qed.

Lemma first_accepted_In (accepts : string -> bool) fm k f :
  In (k, f) fm -> accepts k = true -> first_accepted accepts fm <> None.
Proof.
  unfold first_accepted.
  induction fm as [|[k' v] rest IH]; cbn [List.find fst]; [intros []|].
  intros [E | H] Hk.
  - injection E as -> _. rewrite Hk. discriminate.
  - destruct (accepts k'); [discriminate | auto].
Qed.

End WithFile.

End MatcherMore.

Import Matcher MatcherFacts MatcherSpec MatcherMore.

(** X1: the matcher finds a file exactly when some key of the map matches
    the target under a strategy, and the file it returns is stored under
    such a key: it never makes up a handle and never misses a matching
    entry. *)
Theorem findFileInMap_found_iff_some_key_matches
    (File : Type) (target : string) (fileMap : FileMap File) :
  (forall file,
      findFileInMap target fileMap = Some file ->
      exists key, In (key, file) fileMap /\ matches_guarded target key = true)
  /\ ((exists key file,
          In (key, file) fileMap /\ matches_guarded target key = true) ->
      findFileInMap target fileMap <> None).
Proof.
  rewrite findFileInMap_guarded.
  unfold match_by_priority_guarded, exact_key, scheme_stripped_scan,
    filename_fallback, matches_guarded.
  cbn [first_match]. split.
  - intros file.
    destruct (map_get target fileMap) as [f|] eqn:E1.
    { intros [= ->]. exists target. split; [now apply map_get_Some_In|].
      now rewrite String.eqb_refl. }
    destruct (first_accepted (accepts_scheme_stripped (strip_scheme target))
                fileMap) as [f|] eqn:E2.
    { intros [= ->]. apply first_accepted_Some in E2 as (k & HIn & Hk).
      exists k. split; [exact HIn|]. rewrite Hk. now rewrite orb_true_r. }
    destruct (truthy (final_segment (strip_scheme target))) eqn:Et;
      [|intros Hnone; discriminate Hnone].
    destruct (first_accepted
                (accepts_filename (final_segment (strip_scheme target)))
                fileMap) as [f|] eqn:E3;
      [|intros Hnone; discriminate Hnone].
    intros [= ->]. apply first_accepted_Some in E3 as (k & HIn & Hk).
    exists k. split; [exact HIn|]. rewrite Hk. now rewrite orb_true_r.
  - intros (key & file & HIn & Hm).
    destruct (map_get target fileMap) as [f|] eqn:E1; [discriminate|].
    destruct (first_accepted (accepts_scheme_stripped (strip_scheme target))
                fileMap) as [f|] eqn:E2; [discriminate|].
    apply orb_true_iff in Hm as [Hm | Hm].
    + apply orb_true_iff in Hm as [Hm | Hm].
      * apply String.eqb_eq in Hm as ->.
        now destruct (map_get_In_not_None _ _ _ HIn).
      * now destruct (first_accepted_In _ _ _ _ HIn Hm).
    + apply andb_true_iff in Hm as [Ht Hm]. rewrite Ht.
      destruct (first_accepted
                  (accepts_filename (final_segment (strip_scheme target)))
                  fileMap) as [f|] eqn:E3; [discriminate|].
      now destruct (first_accepted_In _ _ _ _ HIn Hm).
Qed.

Lemma findFileInMap_found_iff_some_key_matches_witness :
  (exists key, In (key, F2) [("a/x.stl", F1); ("b/base.stl", F2)]
               /\ matches_guarded "package://robot/base.stl" key = true)
  /\ findFileInMap "package://robot/base.stl"
       [("a/x.stl", F1); ("b/base.stl", F2)] <> None.
Proof.
  split.
  - apply (proj1 (findFileInMap_found_iff_some_key_matches
                    "package://robot/base.stl"
                    [("a/x.stl", F1); ("b/base.stl", F2)])).
    reflexivity.
  - apply (proj2 (findFileInMap_found_iff_some_key_matches
                    "package://robot/base.stl"
                    [("a/x.stl", F1); ("b/base.stl", F2)])).
    exists "b/base.stl", F2. split; [right; now left | reflexivity].
Defined.

(** X2: in a map without duplicate keys, looking a file up by its own key
    returns that file, whatever else the map holds: the exact match comes
    before the heuristics. *)
Theorem findFileInMap_own_key
    (File : Type) (fileMap : FileMap File) (key : string) (file : File) :
  NoDup (keys fileMap) ->
  In (key, file) fileMap ->
  findFileInMap key fileMap = Some file.
Proof.
  intros Hnd HIn. unfold findFileInMap, map_has.
  now rewrite (map_get_unique _ _ _ Hnd HIn).
Qed.

Lemma findFileInMap_own_key_witness :
  findFileInMap "meshes/base.stl"
    [("root/meshes/base.stl", F1); ("meshes/base.stl", F2)] = Some F2.
Proof.
  apply findFileInMap_own_key.
  - repeat constructor; cbn; intuition discriminate.
  - right. now left.
Defined.

(** X3: the two schemes are interchangeable: when neither spelling is
    itself a key, [package://PATH] and [file://PATH] give the same
    result. *)
Theorem findFileInMap_scheme_independent
    (File : Type) (path : string) (fileMap : FileMap File) :
  map_get ("package://" ++ path) fileMap = None ->
  map_get ("file://" ++ path) fileMap = None ->
  findFileInMap ("package://" ++ path) fileMap
  = findFileInMap ("file://" ++ path) fileMap.
Proof.
  intros Hp Hf. unfold findFileInMap, map_has. rewrite Hp, Hf.
  assert (E1 : strip_scheme ("package://" ++ path) = path).
  { unfold strip_scheme. now rewrite strip_prefix_app. }
  assert (E2 : strip_scheme ("file://" ++ path) = path).
  { unfold strip_scheme. rewrite (strip_prefix_app "file://" path).
    now destruct (strip_prefix "package://" ("file://" ++ path)) eqn:E. }
  now rewrite E1, E2.
Qed.

Lemma findFileInMap_scheme_independent_witness :
  findFileInMap ("package://" ++ "robot/base.stl") [("drop/robot/base.stl", F1)]
  = findFileInMap ("file://" ++ "robot/base.stl") [("drop/robot/base.stl", F1)].
Proof.
  apply findFileInMap_scheme_independent; reflexivity.
Defined.

(** ** More on the patterns of the resolver *)

Module PatternFacts.
Import Resolver ResolverSpec RegexFacts ResolverFacts DirectiveSyntax.

Section Inversion.

Variable A : Type.
Implicit Types (k : kont A) (cls : ascii -> bool) (r : A).

Lemma lit_Some p k s r :
  lit p k s = Some r <-> exists t, s = p ++ t /\ k t = Some r.
Proof.
  unfold lit. split.
  - destruct (strip_prefix p s) as [t|] eqn:E; [|discriminate].
    apply strip_prefix_Some in E. eauto.
  - intros (t & -> & H). now rewrite strip_prefix_app.
Qed.

Lemma plus_inv cls k s r :
  plus cls k s = Some r ->
  exists w t, w <> "" /\ all_chars cls w = true /\ s = w ++ t /\ k t = Some r.
Proof.
  revert r. induction s as [|c s IH]; intros r; cbn [plus]; [discriminate|].
  destruct (cls c) eqn:Hc; [|discriminate].
  destruct (plus cls k s) as [r'|] eqn:E.
  - intros [= ->]. destruct (IH _ eq_refl) as (w & t & _ & Hw & -> & Hk).
    exists (String c w), t. cbn. rewrite Hc, Hw. repeat split; [discriminate | exact Hk].
  - intros Hk. exists (String c ""), s. cbn. rewrite Hc.
    repeat split; [discriminate | exact Hk].
Qed.

Lemma plus_outside_None cls k t : starts_outside cls t -> plus cls k t = None.
Proof. destruct t as [|x t]; cbn; [reflexivity | now intros ->]. Qed.

Lemma plus_intro cls k w t r :
  w <> "" ->
  all_chars cls w = true ->
  starts_outside cls t ->
  k t = Some r ->
  plus cls k (w ++ t) = Some r.
Proof.
  intros Hne Hall Hout Hk. induction w as [|c w IH]; [congruence|].
  cbn [all_chars] in Hall. apply andb_true_iff in Hall as [Hc Hw].
  cbn [append plus]. rewrite Hc. destruct w as [|c' w].
  - cbn [append]. now rewrite (plus_outside_None cls k t Hout).
  - rewrite IH; [reflexivity | discriminate | exact Hw].
Qed.

Lemma star_inv cls k s r :
  star cls k s = Some r ->
  exists w t, all_chars cls w = true /\ s = w ++ t /\ k t = Some r.
Proof.
  unfold star. destruct (plus cls k s) as [r'|] eqn:E.
  - intros [= ->]. apply plus_inv in E as (w & t & _ & H). now exists w, t.
  - intros H. now exists "", s.
Qed.

Lemma star_intro cls k w t r :
  all_chars cls w = true ->
  starts_outside cls t ->
  k t = Some r ->
  star cls k (w ++ t) = Some r.
Proof.
  intros Hall Hout Hk. unfold star. destruct w as [|c w].
  - cbn [append]. now rewrite (plus_outside_None cls k t Hout).
  - rewrite (@plus_intro cls k (String c w) t r); auto. discriminate.
Qed.

Lemma plus_cap_inv cls (k : string -> kont A) s r :
  plus_cap cls k s = Some r ->
  exists w t,
    w <> "" /\ all_chars cls w = true /\ s = w ++ t /\ k w t = Some r.
Proof.
  revert k r. induction s as [|c s IH]; intros k r; cbn [plus_cap];
    [discriminate|].
  destruct (cls c) eqn:Hc; [|discriminate].
  destruct (plus_cap cls (fun cap => k (String c cap)) s) as [r'|] eqn:E.
  - intros [= ->]. apply IH in E as (w & t & _ & Hw & -> & Hk).
    exists (String c w), t. cbn. rewrite Hc, Hw.
    repeat split; [discriminate | exact Hk].
  - intros Hk. exists (String c ""), s. cbn. rewrite Hc.
    repeat split; [discriminate | exact Hk].
Qed.

Lemma search_inv (m : kont A) s r :
  search m s = Some r -> exists pre suf, s = pre ++ suf /\ m suf = Some r.
Proof.
  induction s as [|c s IH]; cbn [search].
  - destruct (m "") eqn:E; [|discriminate]. intros [= ->]. now exists "", "".
  - destruct (m (String c s)) eqn:E.
    + intros [= ->]. now exists "", (String c s).
    + intros H. destruct (IH H) as (pre & suf & -> & Hm).
      now exists (String c pre), suf.
Qed.

End Inversion.

Lemma all_not_char_has_char (x : ascii) (w : string) :
  all_chars (not_char x) w = true -> has_char x w = false.
Proof.
  induction w as [|c w IH]; cbn; [reflexivity|].
  intros H. apply andb_true_iff in H as [Hc Hw].
  unfold not_char in Hc. apply negb_true_iff in Hc. now rewrite Hc, (IH Hw).
Qed.

Lemma has_char_head (x : ascii) (t : string) : has_char x (String x t) = true.
Proof. cbn. now rewrite Ascii.eqb_refl. Qed.

Lemma pkgMatch_Some (filename pkgName : string) :
  pkgMatch filename = Some pkgName ->
  pkgName <> ""
  /\ has_char ")" pkgName = false
  /\ has_char ")" filename = true
  /\ occurs_in ("$(find") filename.
Proof.
  unfold pkgMatch. intros H.
  apply search_inv in H as (pre & suf & -> & H).
  apply lit_Some in H as (t1 & -> & H).
  apply plus_inv in H as (ws & t2 & _ & _ & -> & H).
  apply plus_cap_inv in H as (p & t3 & Hne & Hp & -> & H).
  apply lit_Some in H as (t4 & -> & [= <-]).
  repeat split.
  - exact Hne.
  - now apply all_not_char_has_char.
  - rewrite !has_char_app. cbn [append]. rewrite has_char_head.
    now rewrite !orb_true_r.
  - now exists pre, (ws ++ p ++ ")" ++ t4).
Qed.

Lemma Removed_length (B : Type) (m : string -> option (B * string)) s o :
  Removed m s o -> String.length o <= String.length s.
Proof.
  induction 1 as [| c s o _ _ IH | span b rest o _ _ _ IH]; cbn.
  - lia.
  - lia.
  - rewrite length_app_s. lia.
Qed.

Lemma replace_all_no_start (B : Type) (m : string -> option (B * string))
    (x : ascii) :
  advances m ->
  (forall s b rest, m s = Some (b, rest) -> exists t, s = String x t) ->
  forall s, has_char x s = false -> replace_all m "" s = s.
Proof.
  intros Hadv Hstart s. unfold replace_all.
  pattern s, (tokens m s). apply (tokens_ind Hadv).
  - reflexivity.
  - intros c s' _ IH H. cbn in H. apply orb_false_iff in H as [_ H].
    cbn [substitute]. now rewrite (IH H).
  - intros span b rest _ Hm _ H.
    destruct (Hstart _ _ _ Hm) as (t & E). rewrite E in H.
    now rewrite has_char_head in H.
Qed.

End PatternFacts.

Import Resolver ResolverSpec RegexFacts ResolverFacts DirectiveSyntax
  PatternFacts.

(** X4: the include pattern matches at a position exactly when the text
    there is [<xacro:include], at least one white-space character,
    [filename=] with a non-empty file name in double quotes and free of
    double quotes, optional white space and [/>]; the capture is that file
    name and the match ends right after [/>]. *)
Theorem includeRegex_matches_directive_syntax (s filename rest : string) :
  includeRegex s = Some (filename, rest)
  <-> exists span, s = span ++ rest /\ directive_span span filename.
Proof.
  unfold includeRegex, directive_span. split.
  - intros H.
    apply lit_Some in H as (t1 & -> & H).
    apply plus_inv in H as (ws1 & t2 & Hne1 & Hws1 & -> & H).
    apply lit_Some in H as (t3 & -> & H).
    apply plus_cap_inv in H as (f & t4 & Hnef & Hf & -> & H).
    apply lit_Some in H as (t5 & -> & H).
    apply star_inv in H as (ws2 & t6 & Hws2 & -> & H).
    apply lit_Some in H as (t7 & -> & [= <- <-]).
    exists ("<xacro:include" ++ ws1 ++ "filename=" ++ dq ++ f ++ dq
            ++ ws2 ++ "/>").
    split.
    + now rewrite !app_assoc_s.
    + exists ws1, ws2. repeat split; try assumption.
      now apply all_not_char_has_char.
  - intros (span & -> & ws1 & ws2 & -> & Hne1 & Hws1 & Hws2 & Hnef & Hf).
    rewrite !app_assoc_s.
    apply lit_Some. eexists. split; [reflexivity|].
    apply plus_intro; [assumption.. | reflexivity |].
    apply lit_Some. eexists. split; [reflexivity|].
    change (dq ++ ws2 ++ "/>" ++ rest)
      with (String "034" (ws2 ++ "/>" ++ rest)).
    apply plus_cap_greedy; [assumption | | reflexivity |].
    + now apply has_char_false_all_not.
    + apply lit_Some. exists (ws2 ++ "/>" ++ rest). split; [reflexivity|].
      apply star_intro; [assumption | reflexivity |].
      apply lit_Some. now exists rest.
Qed.

(** X5: a file name that holds [$(find ] but no closing parenthesis is not
    expanded: it is used as the path as it stands, whatever the working
    directory and the root directory are.  When the macro is expanded, the
    package name is not empty and holds no closing parenthesis. *)
Theorem target_path_unclosed_macro
    (host : Host) (filename workingDir publicDirPath : string) :
  (includes filename "$(find " = true ->
   has_char ")" filename = false ->
   target_path host filename workingDir publicDirPath = filename)
  /\ (forall pkgName,
         pkgMatch filename = Some pkgName ->
         pkgName <> "" /\ has_char ")" pkgName = false).
Proof.
  split.
  - intros Hinc Hno. unfold target_path. rewrite Hinc.
    destruct (pkgMatch filename) as [pkgName|] eqn:E; [|reflexivity].
    apply pkgMatch_Some in E as (_ & _ & Hyes & _). congruence.
  - intros pkgName E. apply pkgMatch_Some in E as (H1 & H2 & _). now split.
Qed.

Lemma target_path_unclosed_macro_witness :
  target_path Examples.chain_host "$(find tools/hand.xacro" "/pub/parts" "/pub"
  = "$(find tools/hand.xacro".
Proof.
  apply (proj1 (target_path_unclosed_macro Examples.chain_host
                  "$(find tools/hand.xacro" "/pub/parts" "/pub"));
    reflexivity.
Defined.

(** X6: stripping the wrappers of an included file only removes text: the
    result is never longer than the content, and a content without any [<]
    is left as it is. *)
Theorem strip_wrappers_only_removes (includeContent : string) :
  String.length (strip_wrappers includeContent)
  <= String.length includeContent
  /\ (has_char "<" includeContent = false ->
      strip_wrappers includeContent = includeContent).
Proof.
  unfold strip_wrappers. split.
  - pose proof (Removed_length
                  (replace_all_Removed xmlHeaderRegex_advances includeContent))
      as H1.
    pose proof (Removed_length
                  (replace_all_Removed robotOpenRegex_advances
                     (replace_all xmlHeaderRegex "" includeContent))) as H2.
    pose proof (Removed_length
                  (replace_all_Removed robotCloseRegex_advances
                     (replace_all robotOpenRegex ""
                        (replace_all xmlHeaderRegex "" includeContent))))
      as H3.
    lia.
  - intros H.
    assert (Hx : replace_all xmlHeaderRegex "" includeContent = includeContent).
    { apply (replace_all_no_start (x := "<"%char) xmlHeaderRegex_advances);
        [|exact H].
      intros s b rest Hm. unfold xmlHeaderRegex in Hm.
      apply lit_Some in Hm as (t & -> & _). now eexists. }
    rewrite Hx.
    assert (Ho : replace_all robotOpenRegex "" includeContent = includeContent).
    { apply (replace_all_no_start (x := "<"%char) robotOpenRegex_advances);
        [|exact H].
      intros s b rest Hm. unfold robotOpenRegex in Hm.
      apply lit_Some in Hm as (t & -> & _). now eexists. }
    rewrite Ho.
    apply (replace_all_no_start (x := "<"%char) robotCloseRegex_advances);
      [|exact H].
    intros s b rest Hm. unfold robotCloseRegex in Hm.
    apply lit_Some in Hm as (t & -> & _). now eexists.
Qed.

Lemma strip_wrappers_only_removes_witness :
  strip_wrappers "name=arm mass=2" = "name=arm mass=2".
Proof.
  apply (proj2 (strip_wrappers_only_removes "name=arm mass=2")). reflexivity.
Defined.



(** X8: an answer with status 200 carries the resolved text of the
    requested file: every directive of the file is replaced in place, by
    the resolved content of its target or by the placeholder. *)
Theorem xacro_to_urdf_ok_body_is_resolved
    (host : Host) (fuel : nat) (publicDirPath file : string)
    (l : list event) (resp : response) :
  xacro_to_urdf host fuel publicDirPath (QString file) = (l, Done resp) ->
  status resp = 200 ->
  let fullPath := path_resolve host publicDirPath file in
  exists content,
    readFileSync host fullPath = inl content
    /\ Resolved host publicDirPath content (path_dirname host fullPath)
         (body resp).
Proof.
  unfold xacro_to_urdf. intros H Hs.
  set (fullPath := path_resolve host publicDirPath file) in *.
  destruct (truthy file); cbn [negb] in H.
  2: { injection H as _ <-. discriminate Hs. }
  destruct (existsSync host fullPath); cbn [negb] in H.
  2: { injection H as _ <-. discriminate Hs. }
  destruct (readFileSync host fullPath) as [content|message].
  - exists content. split; [reflexivity|].
    destruct (processIncludes host fuel content (path_dirname host fullPath)
                publicDirPath) as [l0 [assembled|e|]] eqn:E; cbn in H.
    + injection H as _ <-. cbn. eapply processIncludes_Resolved. exact E.
    + injection H as _ <-. discriminate Hs.
    + discriminate H.
  - cbn in H. injection H as _ <-. discriminate Hs.
Qed.

Lemma xacro_to_urdf_ok_body_is_resolved_witness :
  exists content,
    readFileSync Examples.chain_host "/pub/main.xacro" = inl content
    /\ Resolved Examples.chain_host "/pub" content "/pub"
         "<robot name=r><link name=arm/><link name=hand/></robot>".
Proof.
  apply (@xacro_to_urdf_ok_body_is_resolved Examples.chain_host 2 "/pub"
           "main.xacro"
           [Pre_assembling "/pub/main.xacro";
            Including "/pub/parts/arm.xacro";
            Including "/pub/tools/hand.xacro"]
           {| status := 200;
              body := "<robot name=r><link name=arm/><link name=hand/></robot>" |});
    reflexivity.
Defined.

(** ** Collecting the dropped files *)

Module DropFacts.
Import Matcher MatcherSpec MatcherMore Resolver DropCollector.

Section WithFile.

Variable File : Type.
Implicit Types (fm m : FileMap File) (q : list (entry File)) (k key : string)
  (batches : list (list (entry File))) (entries : list (entry File))
  (failure : option string).

Lemma map_set_In key (v : File) m k f :
  In (k, f) (map_set key v m) -> (k = key /\ f = v) \/ In (k, f) m.
Proof.
  induction m as [|[k' v'] rest IH]; cbn [map_set].
  - intros [[= <- <-] | []]. now left.
  - destruct (String.eqb_spec k' key) as [->|_].
    + intros [[= <- <-] | H]; [now left | right; now right].
    + intros [E | H]; [right; now left|].
      destruct (IH H) as [? | ?]; [now left | right; now right].
Qed.

Lemma map_set_keys key (v : File) m k :
  In k (keys (map_set key v m)) <-> k = key \/ In k (keys m).
Proof.
  unfold keys. induction m as [|[k' v'] rest IH]; cbn [map_set List.map fst].
  - cbn. intuition auto.
  - destruct (String.eqb_spec k' key) as [->|Hne]; cbn [List.map fst In].
    + intuition auto.
    + rewrite IH. intuition auto.
Qed.

Lemma map_set_NoDup key (v : File) m :
  NoDup (keys m) -> NoDup (keys (map_set key v m)).
Proof.
  unfold keys. induction m as [|[k' v'] rest IH]; cbn [map_set List.map fst].
  - intros _. repeat constructor. intros [].
  - intros Hnd. apply NoDup_cons_iff in Hnd as [Hnot Hnd].
    destruct (String.eqb_spec k' key) as [->|Hne]; cbn [List.map fst].
    + now constructor.
    + constructor; [|auto]. intros H.
      apply (map_set_keys key v rest k') in H as [-> | H]; [congruence | auto].
Qed.

Lemma entry_size_pos (e : entry File) : 1 <= entry_size e.
Proof. destruct e; cbn; lia. Qed.

Lemma queue_size_app q1 q2 :
  queue_size (q1 ++ q2)%list = queue_size q1 + queue_size q2.
Proof.
  unfold queue_size. now rewrite List.map_app, list_sum_app.
Qed.

Lemma readAllEntries_size batches failure entries :
  readAllEntries batches failure = inl entries ->
  queue_size entries
  <= list_sum (List.map (fun batch => list_sum (List.map (@entry_size File) batch))
                        batches).
Proof.
  revert entries. induction batches as [|[|e es] rest IH]; intros entries;
    cbn [readAllEntries].
  - destruct failure; [discriminate|]. intros [= <-]. cbn. lia.
  - intros [= <-]. cbn. lia.
  - destruct (readAllEntries rest failure) as [more|] eqn:E; [|discriminate].
    intros [= <-]. specialize (IH _ eq_refl).
    change (queue_size ((e :: es) ++ more)%list
            <= list_sum (List.map (@entry_size File) (e :: es))
               + list_sum (List.map (fun batch =>
                    list_sum (List.map (@entry_size File) batch)) rest)).
    rewrite queue_size_app. unfold queue_size at 1. lia.
Qed.

Lemma readAllEntries_In batches failure entries e :
  readAllEntries batches failure = inl entries ->
  In e entries -> exists batch, In batch batches /\ In e batch.
Proof.
  revert entries. induction batches as [|[|e0 es] rest IH]; intros entries;
    cbn [readAllEntries].
  - destruct failure; [discriminate|]. now intros [= <-] [].
  - now intros [= <-] [].
  - destruct (readAllEntries rest failure) as [more|] eqn:E; [|discriminate].
    intros [= <-] H. change (In e ((e0 :: es) ++ more)%list) in H.
    apply List.in_app_or in H as [H | H].
    + exists (e0 :: es). split; [now left | exact H].
    + destruct (IH _ eq_refl H) as (b & Hb & He). exists b.
      split; [now right | exact He].
Qed.

Lemma readAllEntries_no_failure batches :
  exists entries, readAllEntries batches None = inl entries.
Proof.
  induction batches as [|[|e es] rest [more IH]]; cbn [readAllEntries];
    [now eexists.. |].
  rewrite IH. now eexists.
Qed.

Lemma drain_enough fuel :
  forall q m, queue_size q <= fuel -> drain fuel q m <> Out_of_fuel.
Proof.
  induction fuel as [|fuel IH]; intros [|e q] m Hsize; cbn [drain];
    try discriminate.
  - pose proof (entry_size_pos e). unfold queue_size in Hsize. cbn in Hsize.
    lia.
  - change (queue_size (e :: q)) with (entry_size e + queue_size q) in Hsize.
    destruct e as [p [file|message] | p batches failure | p].
    + apply IH. cbn in Hsize. lia.
    + discriminate.
    + destruct (readAllEntries batches failure) as [entries|] eqn:E;
        [|discriminate].
      apply IH. rewrite queue_size_app.
      pose proof (readAllEntries_size _ _ E). cbn [entry_size] in Hsize. lia.
    + apply IH. cbn in Hsize. lia.
Qed.

Lemma drain_cons fuel (e : entry File) q m :
  drain (S fuel) (e :: q) m
  = match e with
    | FileEntry fullPath (inl file) =>
        drain fuel q (map_set (relative_key fullPath) file m)
    | FileEntry _ (inr message) => Thrown message
    | DirectoryEntry _ batches failure =>
        match readAllEntries batches failure with
        | inl entries => drain fuel (q ++ entries)%list m
        | inr message => Thrown message
        end
    | OtherEntry _ _ => drain fuel q m
    end.
Proof. reflexivity. Qed.

Lemma drain_more_fuel fuel :
  forall q m,
    drain fuel q m <> Out_of_fuel -> drain (S fuel) q m = drain fuel q m.
Proof.
  induction fuel as [|fuel IH]; intros [|e q] m H; try reflexivity.
  - now destruct H.
  - rewrite (drain_cons (S fuel)), (drain_cons fuel).
    rewrite (drain_cons fuel) in H.
    destruct e as [p [file|message] | p batches failure | p].
    + apply IH. exact H.
    + reflexivity.
    + destruct (readAllEntries batches failure); [|reflexivity].
      apply IH. exact H.
    + apply IH. exact H.
Qed.

Lemma drain_stable fuel fuel' q m :
  fuel <= fuel' ->
  drain fuel q m <> Out_of_fuel -> drain fuel' q m = drain fuel q m.
Proof.
  induction 1 as [|fuel' _ IH]; [reflexivity|]. intros H.
  rewrite drain_more_fuel; [auto|]. now rewrite IH.
Qed.

Lemma drain_readable fuel :
  forall q m,
    forallb (@readable File) q = true ->
    queue_size q <= fuel ->
    exists fm, drain fuel q m = Done fm.
Proof.
  induction fuel as [|fuel IH]; intros [|e q] m Hr Hsize; cbn [drain];
    try (now eexists).
  - pose proof (entry_size_pos e). unfold queue_size in Hsize. cbn in Hsize.
    lia.
  - change (queue_size (e :: q)) with (entry_size e + queue_size q) in Hsize.
    cbn [forallb] in Hr. apply andb_true_iff in Hr as [He Hq].
    destruct e as [p [file|message] | p batches [message|] | p];
      cbn [readable] in He; try discriminate.
    + apply IH; [exact Hq | cbn in Hsize; lia].
    + destruct (readAllEntries_no_failure batches) as [entries E]. rewrite E.
      apply IH.
      * rewrite List.forallb_app, Hq. cbn [andb].
        apply List.forallb_forall. intros e He'.
        destruct (readAllEntries_In _ _ _ E He') as (b & Hb & Hin).
        rewrite List.forallb_forall in He. specialize (He b Hb).
        rewrite List.forallb_forall in He. now apply He.
      * rewrite queue_size_app.
        pose proof (readAllEntries_size _ _ E). cbn [entry_size] in Hsize. lia.
    + apply IH; [exact Hq | cbn in Hsize; lia].
Qed.

Lemma drain_NoDup fuel :
  forall q m fm,
    NoDup (keys m) -> drain fuel q m = Done fm -> NoDup (keys fm).
Proof.
  induction fuel as [|fuel IH]; intros [|e q] m fm Hnd; cbn [drain];
    try discriminate; try (now intros [= <-]).
  destruct e as [p [file|message] | p batches failure | p];
    try discriminate.
  - apply IH. now apply map_set_NoDup.
  - destruct (readAllEntries batches failure); [|discriminate]. now apply IH.
  - now apply IH.
Qed.

Lemma under_file_inv fullPath (r : File + string) (e : entry File) :
  under (FileEntry fullPath r) e -> e = FileEntry fullPath r.
Proof. now inversion 1. Qed.

Lemma under_other_inv fullPath (e : entry File) :
  under (OtherEntry File fullPath) e -> e = OtherEntry File fullPath.
Proof. now inversion 1. Qed.

Lemma drain_keys fuel :
  forall q m fm,
    drain fuel q m = Done fm ->
    forall k, In k (keys fm) <-> In k (keys m) \/ queue_key q k.
Proof.
  induction fuel as [|fuel IH]; intros [|e q] m fm; cbn [drain];
    try discriminate.
  1, 2: intros [= <-] k; split; [now left|];
    intros [H | (e & p & f & [] & _)]; exact H.
  destruct e as [p [file|message] | p batches failure | p];
    try discriminate.
  - intros H k. rewrite (IH _ _ _ H k), map_set_keys. split.
    + intros [[-> | Hk] | (e & p' & f & HIn & Hu & ->)].
      * right. exists (FileEntry p (inl file)), p, file.
        repeat split; [now left | constructor].
      * now left.
      * right. exists e, p', f. repeat split; [now right | exact Hu].
    + intros [Hk | (e & p' & f & [<- | HIn] & Hu & ->)].
      * left. now right.
      * apply under_file_inv in Hu. injection Hu as <- _. left. now left.
      * right. exists e, p', f. now repeat split.
  - destruct (readAllEntries batches failure) as [entries|] eqn:E;
      [|discriminate].
    intros H k. rewrite (IH _ _ _ H k). split.
    + intros [Hk | (e & p' & f & HIn & Hu & ->)]; [now left|]. right.
      apply List.in_app_or in HIn as [HIn | HIn].
      * exists e, p', f. repeat split; [now right | exact Hu].
      * exists (DirectoryEntry p batches failure), p', f.
        repeat split; [now left|]. now apply under_listed with entries e.
    + intros [Hk | (e & p' & f & [<- | HIn] & Hu & ->)]; [now left | |].
      * right. inversion Hu as [| ? ? ? entries' e1 ? E' HIn1 Hu1]; subst.
        rewrite E in E'. injection E' as <-.
        exists e1, p', f. repeat split; [|exact Hu1].
        apply List.in_or_app. now right.
      * right. exists e, p', f. repeat split; [|exact Hu].
        apply List.in_or_app. now left.
  - intros H k. rewrite (IH _ _ _ H k). split.
    + intros [Hk | (e & p' & f & HIn & Hu & ->)]; [now left|]. right.
      exists e, p', f. repeat split; [now right | exact Hu].
    + intros [Hk | (e & p' & f & [<- | HIn] & Hu & ->)]; [now left | |].
      * apply under_other_inv in Hu. discriminate Hu.
      * right. exists e, p', f. now repeat split.
Qed.

Lemma initial_queue_In (items : list (option (entry File))) e :
  In e (initial_queue items) <-> In (Some e) items.
Proof.
  induction items as [|[e0|] rest IH]; cbn [initial_queue In].
  - tauto.
  - rewrite IH. split; intros [H | H]; auto; left; congruence.
  - rewrite IH. split; [auto | intros [H | H]; [discriminate | exact H]].
Qed.

End WithFile.

End DropFacts.

Import DropCollector DropFacts.

(** X9: collecting a drop always ends: as many loop iterations as the drop
    has entries suffice, more change nothing, and when every file can be
    read and no directory listing fails the result is a map. *)
Theorem getAllFiles_terminates
    (File : Type) (items : list (option (entry File))) (fuel : nat) :
  queue_size (initial_queue items) <= fuel ->
  getAllFiles fuel items <> Out_of_fuel
  /\ getAllFiles fuel items
     = getAllFiles (queue_size (initial_queue items)) items
  /\ (forallb (@readable File) (initial_queue items) = true ->
      exists fileMap, getAllFiles fuel items = Done fileMap).
Proof.
  intros Hfuel. unfold getAllFiles. split; [|split].
  - now apply drain_enough.
  - apply drain_stable; [exact Hfuel|]. now apply drain_enough.
  - intros Hr. now apply drain_readable.
Qed.

Lemma getAllFiles_terminates_witness :
  getAllFiles 7 example_drop <> Out_of_fuel
  /\ getAllFiles 7 example_drop = getAllFiles 5 example_drop
  /\ (forallb (@readable handle) (initial_queue example_drop) = true ->
      exists fileMap, getAllFiles 7 example_drop = Done fileMap).
Proof.
  apply (@getAllFiles_terminates handle example_drop 7). cbv. lia.
Defined.

(** X10: the map of a drop has no duplicate key, and every file stored in
    it is found again by the matcher under its own key. *)
Theorem getAllFiles_then_findFileInMap
    (File : Type) (items : list (option (entry File))) (fuel : nat)
    (fileMap : FileMap File) :
  getAllFiles fuel items = Done fileMap ->
  NoDup (keys fileMap)
  /\ forall key file,
       In (key, file) fileMap -> findFileInMap key fileMap = Some file.
Proof.
  unfold getAllFiles. intros H.
  assert (Hnd : NoDup (keys fileMap)).
  { eapply drain_NoDup; [|exact H]. constructor. }
  split; [exact Hnd|].
  intros key file HIn. unfold findFileInMap, map_has.
  now rewrite (map_get_unique _ _ _ Hnd HIn).
Qed.

Lemma getAllFiles_then_findFileInMap_witness :
  NoDup (keys [("notes.txt", F1); ("robot/robot.urdf", F1);
               ("robot/meshes/base.stl", F2)])
  /\ forall key file,
       In (key, file) [("notes.txt", F1); ("robot/robot.urdf", F1);
                       ("robot/meshes/base.stl", F2)] ->
       findFileInMap key [("notes.txt", F1); ("robot/robot.urdf", F1);
                          ("robot/meshes/base.stl", F2)] = Some file.
Proof.
  apply (@getAllFiles_then_findFileInMap handle example_drop 5). reflexivity.
Defined.

(** X11: the keys of the map are exactly the full paths, less one leading
    slash, of the readable files the traversal of the drop comes to. *)
Theorem getAllFiles_keys
    (File : Type) (items : list (option (entry File))) (fuel : nat)
    (fileMap : FileMap File) :
  getAllFiles fuel items = Done fileMap ->
  forall key, In key (keys fileMap) <-> dropped_key items key.
Proof.
  unfold getAllFiles, dropped_key. intros H key.
  rewrite (drain_keys _ _ _ H key). unfold queue_key. split.
  - intros [[] | (e & p & f & HIn & Hu & ->)].
    exists e, p, f. repeat split; [|exact Hu]. now apply initial_queue_In.
  - intros (e & p & f & HIn & Hu & ->). right.
    exists e, p, f. repeat split; [|exact Hu]. now apply initial_queue_In.
Qed.

Lemma getAllFiles_keys_witness :
  In "robot/meshes/base.stl"
     (keys [("notes.txt", F1); ("robot/robot.urdf", F1);
            ("robot/meshes/base.stl", F2)])
  <-> dropped_key example_drop "robot/meshes/base.stl".
Proof.
  apply (@getAllFiles_keys handle example_drop 5). reflexivity.
Defined.

(** X12: reading a directory stops at the first empty batch: the entries
    are those of the batches before it, and neither a later batch nor a
    later failure is seen; when no batch is empty, all are read and a
    failure after them is the result. *)
Theorem readAllEntries_until_empty_batch
    (File : Type) (batches later : list (list (entry File)))
    (failure : option string) :
  forallb (@nonempty File) batches = true ->
  readAllEntries (batches ++ [] :: later)%list failure
  = inl (List.concat batches)
  /\ readAllEntries batches None = inl (List.concat batches)
  /\ (forall message, readAllEntries batches (Some message) = inr message).
Proof.
  induction batches as [|[|e es] rest IH]; cbn [forallb nonempty andb];
    intros H.
  - repeat split.
  - discriminate H.
  - destruct (IH H) as (IH1 & IH2 & IH3).
    cbn [List.app readAllEntries List.concat].
    rewrite IH1, IH2. repeat split. intros message. now rewrite IH3.
Qed.

Lemma readAllEntries_until_empty_batch_witness :
  readAllEntries
    ([[FileEntry "/a" (inl F1)]; [OtherEntry handle "/b"]]
     ++ [] :: [[FileEntry "/c" (inl F2)]])%list
    (Some "gone")
  = inl [FileEntry "/a" (inl F1); OtherEntry handle "/b"].
Proof.
  apply (@readAllEntries_until_empty_batch handle
           [[FileEntry "/a" (inl F1)]; [OtherEntry handle "/b"]]
           [[FileEntry "/c" (inl F2)]] (Some "gone")).
  reflexivity.
Defined.

(** ** Listing the sample files *)

Module ListingFacts.
Import Resolver RegexFacts Listing.

Lemma backslashRegex_advances : advances backslashRegex.
Proof. unfold backslashRegex. apply lit_advances, shrinks_final. Qed.

Lemma backslashRegex_None (c : ascii) (s : string) :
  backslashRegex (String c s) = None -> Ascii.eqb c backslash = false.
Proof.
  unfold backslashRegex, lit, backslash. cbn [strip_prefix].
  destruct (Ascii.eqb_spec "092"%char c) as [<-|Hne]; [discriminate|].
  intros _. apply Ascii.eqb_neq. congruence.
Qed.

Lemma to_slashes_clean (s : string) : has_char backslash (to_slashes s) = false.
Proof.
  unfold to_slashes, replace_all.
  pattern s, (tokens backslashRegex s).
  apply (tokens_ind backslashRegex_advances).
  - reflexivity.
  - intros c s' Hm IH. cbn [substitute has_char].
    now rewrite (backslashRegex_None _ _ Hm), IH.
  - intros span b rest _ _ IH. cbn [substitute append has_char].
    now rewrite IH.
Qed.

Lemma toLowerCase_app (a b : string) :
  toLowerCase (a ++ b) = toLowerCase a ++ toLowerCase b.
Proof. induction a as [|c a IH]; cbn; [reflexivity | now rewrite IH]. Qed.

Section WithHost.

Variable host : DirHost.
Variable publicPath : string.

Lemma extends_refl P acc : extends P acc acc.
Proof. exists []. now rewrite List.app_nil_r. Qed.

Lemma extends_trans P a b c : extends P a b -> extends P b c -> extends P a c.
Proof.
  intros (x & -> & Hx) (y & -> & Hy). exists (x ++ y)%list.
  split; [now rewrite List.app_assoc | now apply Forall_app].
Qed.

Lemma extends_push (P : string -> Prop) acc x : P x -> extends P acc (acc ++ [x]).
Proof. intros H. exists [x]. split; [reflexivity | now constructor]. Qed.

Lemma server_each_extends recurse dir files :
  (forall name acc res,
      recurse name acc = Some res ->
      extends (server_entry host publicPath) acc res) ->
  forall acc res,
    server_each host recurse publicPath dir files acc = Some res ->
    extends (server_entry host publicPath) acc res.
Proof.
  intros Hrec. induction files as [|file rest IH]; intros acc res;
    cbn [server_each].
  - intros [= <-]. apply extends_refl.
  - destruct (fs_isDirectory host (path_join2 host dir file))
      as [[|]|message] eqn:Ed.
    + destruct (recurse _ acc) as [acc'|] eqn:Er; [|discriminate].
      intros H. eapply extends_trans; [apply (Hrec _ _ _ Er) | now apply IH].
    + destruct (server_accepts file) eqn:Ea; [|apply IH].
      intros H. eapply extends_trans; [|apply (IH _ _ H)].
      apply extends_push. now exists dir, file.
    + intros [= <-]. apply extends_refl.
Qed.

Lemma getFiles_unfold fuel dir acc :
  getFiles host fuel publicPath dir acc
  = if negb (fs_existsSync host dir) then Some acc
    else match fs_readdirSync host dir with
         | inr _ => Some acc
         | inl files =>
             server_each host (server_nested host fuel publicPath)
               publicPath dir files acc
         end.
Proof. destruct fuel; reflexivity. Qed.

Lemma getFiles_extends fuel :
  forall dir acc res,
    getFiles host fuel publicPath dir acc = Some res ->
    extends (server_entry host publicPath) acc res.
Proof.
  induction fuel as [|fuel IH]; intros dir acc res; rewrite getFiles_unfold;
    (destruct (negb _); [intros [= <-]; apply extends_refl|]);
    (destruct (fs_readdirSync host dir) as [files|];
     [|intros [= <-]; apply extends_refl]);
    apply server_each_extends; cbn [server_nested].
  - discriminate.
  - apply IH.
Qed.

Lemma server_each_ends recurse dir files :
  (forall file acc,
      In file files ->
      fs_isDirectory host (path_join2 host dir file) = inl true ->
      recurse (path_join2 host dir file) acc <> None) ->
  forall acc, server_each host recurse publicPath dir files acc <> None.
Proof.
  induction files as [|file rest IH]; intros Hrec acc; cbn [server_each].
  - discriminate.
  - assert (IH' : forall acc', server_each host recurse publicPath dir rest acc'
                               <> None).
    { apply IH. intros f a HIn. apply Hrec. now right. }
    destruct (fs_isDirectory host (path_join2 host dir file))
      as [[|]|message] eqn:Ed.
    + destruct (recurse _ acc) as [acc'|] eqn:Er; [apply IH'|].
      now destruct (Hrec file acc (or_introl eq_refl) Ed).
    + destruct (server_accepts file); apply IH'.
    + discriminate.
Qed.

Lemma getFiles_ends (rank : string -> nat) :
  tree_like host rank ->
  forall fuel dir acc,
    rank dir <= fuel -> getFiles host fuel publicPath dir acc <> None.
Proof.
  intros Htree. induction fuel as [|fuel IH]; intros dir acc Hrank;
    rewrite getFiles_unfold;
    (destruct (negb _); [discriminate|]);
    (destruct (fs_readdirSync host dir) as [files|] eqn:El; [|discriminate]);
    apply server_each_ends; intros file acc' HIn Hd;
    pose proof (Htree dir files file El HIn Hd); cbn [server_nested].
  - lia.
  - apply IH. lia.
Qed.

Lemma server_each_more recurse1 recurse2 dir files :
  (forall name acc res,
      recurse1 name acc = Some res -> recurse2 name acc = Some res) ->
  forall acc res,
    server_each host recurse1 publicPath dir files acc = Some res ->
    server_each host recurse2 publicPath dir files acc = Some res.
Proof.
  intros Hrec. induction files as [|file rest IH]; intros acc res;
    cbn [server_each]; [trivial|].
  destruct (fs_isDirectory host (path_join2 host dir file)) as [[|]|message].
  - destruct (recurse1 _ acc) as [acc'|] eqn:Er; [|discriminate].
    rewrite (Hrec _ _ _ Er). apply IH.
  - destruct (server_accepts file); apply IH.
  - trivial.
Qed.

Lemma getFiles_more_fuel fuel :
  forall dir acc res,
    getFiles host fuel publicPath dir acc = Some res ->
    getFiles host (S fuel) publicPath dir acc = Some res.
Proof.
  induction fuel as [|fuel IH]; intros dir acc res;
    rewrite (getFiles_unfold (S _)), getFiles_unfold;
    (destruct (negb _); [trivial|]);
    (destruct (fs_readdirSync host dir) as [files|]; [|trivial]);
    apply server_each_more; cbn [server_nested].
  - discriminate.
  - apply IH.
Qed.

Lemma getFiles_stable fuel fuel' dir acc res :
  fuel <= fuel' ->
  getFiles host fuel publicPath dir acc = Some res ->
  getFiles host fuel' publicPath dir acc = Some res.
Proof.
  induction 1 as [|fuel' _ IH]; [trivial|]. intros H.
  now apply getFiles_more_fuel, IH.
Qed.

Lemma manifest_each_extends recurse dir files :
  (forall name acc res,
      recurse name acc = Done res -> extends (manifest_entry host) acc res) ->
  forall acc res,
    manifest_each host recurse dir files acc = Done res ->
    extends (manifest_entry host) acc res.
Proof.
  intros Hrec. induction files as [|file rest IH]; intros acc res;
    cbn [manifest_each].
  - intros [= <-]. apply extends_refl.
  - destruct (fs_isDirectory host (path_join2 host dir file))
      as [[|]|message] eqn:Ed.
    + destruct (recurse _ acc) as [acc'|e|] eqn:Er; try discriminate.
      intros H. eapply extends_trans; [apply (Hrec _ _ _ Er) | now apply IH].
    + destruct (manifest_accepts file) eqn:Ea; [|apply IH].
      intros H. eapply extends_trans; [|apply (IH _ _ H)].
      apply extends_push. now exists dir, file.
    + discriminate.
Qed.

Lemma manifest_getFiles_unfold fuel dir acc :
  manifest_getFiles host fuel dir acc
  = match fs_readdirSync host dir with
    | inr message => Thrown message
    | inl files =>
        manifest_each host (manifest_nested host fuel) dir files acc
    end.
Proof. destruct fuel; reflexivity. Qed.

Lemma manifest_getFiles_extends fuel :
  forall dir acc res,
    manifest_getFiles host fuel dir acc = Done res ->
    extends (manifest_entry host) acc res.
Proof.
  induction fuel as [|fuel IH]; intros dir acc res;
    rewrite manifest_getFiles_unfold;
    (destruct (fs_readdirSync host dir) as [files|]; [|discriminate]);
    apply manifest_each_extends; cbn [manifest_nested].
  - discriminate.
  - apply IH.
Qed.

End WithHost.

End ListingFacts.

Import Listing ListingFacts.

(** X13: the server's [getFiles] only appends to the array it is given,
    and each entry it appends is the relative path of a file whose name
    ends with [.urdf] or [.xacro], with every backslash turned into a
    slash. *)
Theorem getFiles_appends_listed_files
    (host : DirHost) (fuel : nat) (publicPath dir : string)
    (allFiles result : list string) :
  getFiles host fuel publicPath dir allFiles = Some result ->
  exists added,
    result = (allFiles ++ added)%list
    /\ Forall (fun entry =>
                 server_entry host publicPath entry
                 /\ has_char backslash entry = false) added.
Proof.
  intros H. apply getFiles_extends in H as (added & -> & Hall).
  exists added. split; [reflexivity|].
  apply Forall_forall. intros entry HIn.
  rewrite Forall_forall in Hall. specialize (Hall entry HIn).
  split; [exact Hall|].
  destruct Hall as (d & f & _ & _ & ->). apply to_slashes_clean.
Qed.

Lemma getFiles_appends_listed_files_witness :
  exists added,
    ["seen.urdf"; "arm.urdf"; "robots/g1.xacro"]
    = (["seen.urdf"] ++ added)%list
    /\ Forall (fun entry =>
                 server_entry example_disk "C:pub" entry
                 /\ has_char backslash entry = false) added.
Proof.
  apply (getFiles_appends_listed_files example_disk 2 "C:pub" "C:pub"
           ["seen.urdf"]).
  reflexivity.
Defined.

Lemma example_tree_like : tree_like example_disk example_rank.
Proof.
  intros dir files file Hl HIn Hd.
  cbn [example_disk table_host fs_readdirSync fs_isDirectory path_join2
       List.find fst snd] in Hl, Hd.
  destruct (String.eqb_spec "C:pub" dir) as [<-|_].
  - injection Hl as <-.
    destruct HIn as [<-|[<-|[<-|[]]]]; vm_compute in Hd; try discriminate.
    cbv. lia.
  - destruct (String.eqb_spec
                (String.concat (String "092"%char EmptyString)
                   ["C:pub"; "robots"]) dir) as [<-|_]; [|discriminate].
    injection Hl as <-.
    destruct HIn as [<-|[<-|[]]]; vm_compute in Hd; discriminate.
Qed.

(** X14: on a disk whose directories form a tree, the server's [getFiles]
    ends with a list, the same from some depth of recursion on, whether or
    not listing a directory or inspecting an entry fails on the way. *)
Theorem getFiles_terminates_on_tree
    (host : DirHost) (rank : string -> nat) (publicPath dir : string)
    (allFiles : list string) :
  tree_like host rank ->
  exists result,
    forall fuel,
      rank dir <= fuel ->
      getFiles host fuel publicPath dir allFiles = Some result.
Proof.
  intros Htree.
  destruct (getFiles host (rank dir) publicPath dir allFiles) as [result|]
    eqn:E.
  - exists result. intros fuel Hfuel.
    now apply getFiles_stable with (fuel := rank dir).
  - exfalso. eapply getFiles_ends; [exact Htree | apply Nat.le_refl | exact E].
Qed.

Lemma getFiles_terminates_on_tree_witness :
  exists result,
    forall fuel,
      example_rank "C:pub" <= fuel ->
      getFiles example_disk fuel "C:pub" "C:pub" [] = Some result.
Proof.
  apply (@getFiles_terminates_on_tree example_disk example_rank
           "C:pub" "C:pub" []).
  exact example_tree_like.
Defined.

(** X15: when the manifest script's [getFiles] ends, it has only appended
    to the list, each path appended is that of a file whose lower-cased
    name ends with [.urdf], and the manifest made from a list has one entry
    per path, none of which holds a backslash. *)
Theorem manifest_lists_urdf_files
    (host : DirHost) (fuel : nat) (publicDir dir : string)
    (fileList result : list string) :
  manifest_getFiles host fuel dir fileList = Done result ->
  (exists added,
      result = (fileList ++ added)%list
      /\ Forall (manifest_entry host) added)
  /\ List.length (manifest_of host publicDir result) = List.length result
  /\ Forall (fun entry => has_char backslash entry = false)
            (manifest_of host publicDir result).
Proof.
  intros H. split; [|split].
  - exact (manifest_getFiles_extends _ _ _ _ H).
  - unfold manifest_of. apply List.length_map.
  - unfold manifest_of. apply Forall_forall. intros entry HIn.
    apply List.in_map_iff in HIn as (f & <- & _). apply to_slashes_clean.
Qed.

Lemma manifest_lists_urdf_files_witness :
  List.length
    (manifest_of example_disk "C:pub"
       [ String.concat (String "092"%char EmptyString) ["C:pub"; "arm.urdf"];
         String.concat (String "092"%char EmptyString)
           ["C:pub"; "robots"; "OLD.URDF"] ])
  = 2.
Proof.
  apply (manifest_lists_urdf_files example_disk 1 "C:pub" "C:pub" []).
  reflexivity.
Defined.

(** X16: the two listings agree on lower-case names: every file name that
    the server lists for its [.urdf] ending is also kept by the manifest
    script. *)
Theorem server_urdf_names_are_manifest_names (file : string) :
  endsWith file ".urdf" = true ->
  server_accepts file = true /\ manifest_accepts file = true.
Proof.
  intros H. unfold server_accepts, manifest_accepts. rewrite H.
  split; [reflexivity|].
  apply endsWith_true in H as [pre ->]. apply endsWith_true.
  exists (toLowerCase pre). now rewrite toLowerCase_app.
Qed.

Lemma server_urdf_names_are_manifest_names_witness :
  server_accepts "Arm.urdf" = true /\ manifest_accepts "Arm.urdf" = true.
Proof.
  apply server_urdf_names_are_manifest_names. reflexivity.
Defined.

(** ** The kinematic graph view *)

Module StructureTreeFacts.
Import StructureTree.

Lemma Object3D_nested_ind (P : Object3D -> Prop) :
  (forall uuid name isURDFJoint isURDFLink children,
      Forall P children -> P (Obj uuid name isURDFJoint isURDFLink children)) ->
  forall o, P o.
Proof.
  intros H. fix IH 1. intros [uuid name j l children]. apply H.
  induction children as [|c cs IHcs]; constructor; [apply IH | exact IHcs].
Qed.

Lemma TreeNodeData_nested_ind (P : TreeNodeData -> Prop) :
  (forall id name type object children x y width height collapsed hasChildren,
      Forall P children ->
      P (TreeNode id name type object children x y width height collapsed
                  hasChildren)) ->
  forall n, P n.
Proof.
  intros H. fix IH 1. intros [id name type object children x y w h c hc].
  apply H.
  induction children as [|n ns IHns]; constructor; [apply IH | exact IHns].
Qed.

(** *** Building the tree *)

Lemma map_filter_flat_map (A B C : Type) (f : B -> C) (p : B -> bool)
    (g : A -> list B) (l : list A) :
  List.map f (List.filter p (List.flat_map g l))
  = List.flat_map (fun a => List.map f (List.filter p (g a))) l.
Proof.
  induction l as [|a l IH]; cbn; [reflexivity|].
  now rewrite List.filter_app, List.map_app, IH.
Qed.

Lemma keep_nodes_ids (children : list Object3D) :
  Forall (fun c => tree_ids (buildTreeData c) = urdf_uuids c) children ->
  List.flat_map real_ids (keep_nodes (List.map buildTreeData children))
  = List.flat_map urdf_uuids children.
Proof.
  induction 1 as [|c cs Hc _ IH]; cbn [List.map keep_nodes List.flat_map];
    [reflexivity|].
  rewrite <- Hc, <- IH.
  destruct (buildTreeData c) as [node|]; reflexivity.
Qed.

Lemma urdf_uuids_Obj uuid name j l children :
  urdf_uuids (Obj uuid name j l children)
  = ((if j || l then [uuid] else [])
     ++ List.flat_map urdf_uuids children)%list.
Proof.
  unfold urdf_uuids. cbn [objects List.filter is_urdf isJoint isLink].
  rewrite <- (map_filter_flat_map obj_uuid is_urdf objects children).
  change (is_urdf (Obj uuid name j l children)) with (j || l).
  now destruct (j || l).
Qed.

Lemma real_ids_TreeNode id name type object children x y w h c hc :
  real_ids (TreeNode id name type object children x y w h c hc)
  = ((if is_urdf object then [id] else [])
     ++ List.flat_map real_ids children)%list.
Proof.
  unfold real_ids. cbn [nodes List.filter].
  change (stands_for_urdf
            (TreeNode id name type object children x y w h c hc))
    with (is_urdf object).
  rewrite <- (map_filter_flat_map node_id stands_for_urdf nodes children).
  now destruct (is_urdf object).
Qed.

Lemma buildTreeData_ids (o : Object3D) :
  tree_ids (buildTreeData o) = urdf_uuids o.
Proof.
  induction o as [uuid name j l children IH] using Object3D_nested_ind.
  rewrite urdf_uuids_Obj, <- (keep_nodes_ids IH).
  cbn [buildTreeData].
  destruct (negb j && negb l) eqn:Eg.
  - assert (Hjl : j || l = false) by (now destruct j, l).
    rewrite Hjl. cbn [List.app andb].
    destruct children as [|c cs]; [reflexivity|]. cbn [is_empty].
    destruct (keep_nodes (List.map buildTreeData (c :: cs)))
      as [|n1 [|n2 ns]] eqn:E; cbn [tree_ids List.flat_map List.app].
    + reflexivity.
    + now rewrite List.app_nil_r.
    + rewrite real_ids_TreeNode.
      change (is_urdf (Obj uuid name j l (c :: cs))) with (j || l).
      rewrite Hjl. reflexivity.
  - assert (Hjl : j || l = true) by (now destruct j, l).
    cbn [andb tree_ids]. rewrite real_ids_TreeNode.
    change (is_urdf (Obj uuid name j l children)) with (j || l).
    now rewrite Hjl.
Qed.

Lemma keep_nodes_In (children : list Object3D) (n : TreeNodeData) :
  In n (keep_nodes (List.map buildTreeData children)) ->
  exists c, In c children /\ buildTreeData c = Some n.
Proof.
  induction children as [|c cs IH]; cbn [List.map keep_nodes]; [intros []|].
  destruct (buildTreeData c) as [node|] eqn:E.
  - intros [<- | H].
    + exists c. split; [now left | exact E].
    + destruct (IH H) as (c' & HIn & Hc'). exists c'. split; [now right | exact Hc'].
  - intros H. destruct (IH H) as (c' & HIn & Hc'). exists c'.
    split; [now right | exact Hc'].
Qed.

Lemma buildTreeData_cases uuid name j l children t childNodes :
  childNodes = keep_nodes (List.map buildTreeData children) ->
  buildTreeData (Obj uuid name j l children) = Some t ->
  (j || l = false /\ childNodes = [t])
  \/ (j || l = false /\ 2 <= List.length childNodes
      /\ t = TreeNode "root" "Robot Root" link (Obj uuid name j l children)
               childNodes 0%Q 0%Q 0%Q 0%Q false true)
  \/ (j || l = true
      /\ t = TreeNode uuid
               (if truthy name then name
                else if j then "Unnamed Joint" else "Unnamed Link")
               (if j then joint else link)
               (Obj uuid name j l children) childNodes 0%Q 0%Q 0%Q 0%Q false
               (negb (is_empty childNodes))).
Proof.
  intros -> H. cbn [buildTreeData] in H.
  set (childNodes := keep_nodes (List.map buildTreeData children)) in *.
  destruct (negb j && negb l) eqn:Eg.
  - assert (Hjl : j || l = false) by (now destruct j, l).
    cbn [andb] in H. destruct (is_empty children); [discriminate|].
    destruct childNodes as [|n1 [|n2 ns]]; [discriminate | |].
    + injection H as <-. now left.
    + injection H as <-. right. left. repeat split; [exact Hjl | cbn; lia].
  - assert (Hjl : j || l = true) by (now destruct j, l).
    cbn [andb] in H. injection H as <-. right. right. now split.
Qed.

Lemma buildTreeData_real (o : Object3D) :
  forall t, buildTreeData o = Some t -> real_ids t <> [].
Proof.
  induction o as [uuid name j l children IH] using Object3D_nested_ind.
  intros t H. rewrite Forall_forall in IH.
  assert (Hchild : forall n,
             In n (keep_nodes (List.map buildTreeData children)) ->
             real_ids n <> []).
  { intros n HIn. destruct (keep_nodes_In _ _ HIn) as (c & Hc & Hb).
    exact (IH c Hc n Hb). }
  apply (buildTreeData_cases _ _ _ _ _ eq_refl) in H
    as [(Hjl & Hone) | [(Hjl & Hlen & ->) | (Hjl & ->)]].
  - apply Hchild. rewrite Hone. now left.
  - rewrite real_ids_TreeNode.
    destruct (keep_nodes (List.map buildTreeData children)) as [|n1 ns];
      [cbn in Hlen; lia|].
    cbn [List.flat_map]. intros E.
    apply List.app_eq_nil in E as [_ E]. apply List.app_eq_nil in E as [E _].
    revert E. apply Hchild. now left.
  - rewrite real_ids_TreeNode.
    change (is_urdf (Obj uuid name j l children)) with (j || l).
    rewrite Hjl. discriminate.
Qed.

Lemma buildTreeData_fresh (o : Object3D) :
  forall t, buildTreeData o = Some t -> Forall fresh_node (nodes t).
Proof.
  induction o as [uuid name j l children IH] using Object3D_nested_ind.
  intros t H. rewrite Forall_forall in IH.
  assert (Hchild : Forall (fun n => Forall fresh_node (nodes n))
                     (keep_nodes (List.map buildTreeData children))).
  { apply Forall_forall. intros n HIn.
    destruct (keep_nodes_In _ _ HIn) as (c & Hc & Hb). exact (IH c Hc n Hb). }
  apply (buildTreeData_cases _ _ _ _ _ eq_refl) in H
    as [(Hjl & Hone) | [(Hjl & Hlen & ->) | (Hjl & ->)]].
  - rewrite Hone in Hchild. now inversion Hchild.
  - cbn [nodes]. constructor; [|now apply Forall_flat_map].
    unfold fresh_node. cbn.
    destruct (keep_nodes (List.map buildTreeData children));
      [cbn in Hlen; lia|].
    repeat split; [discriminate | intros _; exact Hlen].
  - cbn [nodes]. constructor; [|now apply Forall_flat_map].
    unfold fresh_node. cbn [node_hasChildren node_children node_collapsed
                            node_name].
    repeat split.
    + destruct name; cbn [truthy]; [destruct j|]; discriminate.
    + unfold stands_for_urdf, is_urdf. cbn [node_object isJoint isLink].
      rewrite Hjl. discriminate.
Qed.

End StructureTreeFacts.

(** *** Laying the tree out *)

Module LayoutFacts.
Import StructureTree StructureTreeFacts.

Lemma calculateLayout_unfold id name type object children x y w h c hc
    depth startX s :
  calculateLayout (TreeNode id name type object children x y w h c hc)
                  depth startX s
  = if is_empty children || set_has id s then
      (TreeNode id name type object children startX (level depth)
         NODE_WIDTH NODE_HEIGHT (set_has id s) hc,
       (startX + NODE_WIDTH + GAP_X)%Q)
    else
      let '(children', currentX) :=
        layout_children children (S depth) startX s in
      (TreeNode id name type object children'
         match children' with
         | [] => x
         | firstChild :: _ =>
             ((node_x firstChild + node_x (List.last children' firstChild))
              / 2)%Q
         end
         (level depth) NODE_WIDTH NODE_HEIGHT (set_has id s) hc,
       currentX).
Proof.
  cbn [calculateLayout].
  destruct (is_empty children || set_has id s); [reflexivity|].
  match goal with
  | |- match ?f children startX with _ => _ end = _ =>
      assert (E : forall cs cur, f cs cur = layout_children cs (S depth) cur s)
  end.
  { induction cs as [|n ns IH]; intros cur; [reflexivity|].
    cbn [layout_children].
    destruct (calculateLayout n (S depth) cur s) as [n' next].
    now rewrite IH. }
  now rewrite E.
Qed.

Lemma level_S d : (level (S d) == level d + NODE_HEIGHT + GAP_Y)%Q.
Proof.
  unfold level, NODE_HEIGHT, GAP_Y.
  rewrite Znat.Nat2Z.inj_succ. unfold Z.succ. rewrite inject_Z_plus. ring.
Qed.

Lemma drawn_head n : exists rest, drawn n = (node_x n, node_y n) :: rest.
Proof. destruct n. cbn. eauto. Qed.

Lemma within_weaken d x r d' x' r' p :
  within d' x' r' p ->
  (level d <= level d')%Q -> (x <= x')%Q -> (r' <= r)%Q ->
  within d x r p.
Proof.
  unfold within. intros (H1 & H2 & H3) Hd Hx Hr. repeat split; lra.
Qed.

Lemma ForallOrdPairs_app (A : Type) (R : A -> A -> Prop) (l1 l2 : list A) :
  ForallOrdPairs R l1 -> ForallOrdPairs R l2 ->
  (forall a b, In a l1 -> In b l2 -> R a b) ->
  ForallOrdPairs R (l1 ++ l2).
Proof.
  induction 1 as [|a l Ha Hl IH]; intros H2 Hc; [exact H2|].
  cbn. constructor.
  - apply Forall_app. split; [exact Ha|].
    apply Forall_forall. intros b Hb. apply Hc; [now left | exact Hb].
  - apply IH; [exact H2|]. intros x y Hx Hy. apply Hc; [now right | exact Hy].
Qed.

Lemma last_In (A : Type) (l : list A) (d : A) : l <> [] -> In (List.last l d) l.
Proof.
  induction l as [|a l IH]; [congruence|]. intros _.
  destruct l as [|b l]; [now left|].
  right. apply IH. discriminate.
Qed.

(** What a call of [calculateLayout] leaves behind. *)
Lemma layout_children_placed (cs : list TreeNodeData) :
  Forall (fun n => forall d x s,
            Forall (within d x (snd (calculateLayout n d x s)))
                   (drawn (fst (calculateLayout n d x s)))
            /\ ForallOrdPairs apart (drawn (fst (calculateLayout n d x s))))
         cs ->
  forall d x s,
    (x <= snd (layout_children cs d x s))%Q
    /\ Forall (fun c => within d x (snd (layout_children cs d x s))
                               (node_x c, node_y c))
              (fst (layout_children cs d x s))
    /\ Forall (within d x (snd (layout_children cs d x s)))
              (List.flat_map drawn (fst (layout_children cs d x s)))
    /\ ForallOrdPairs apart
         (List.flat_map drawn (fst (layout_children cs d x s)))
    /\ (cs <> [] -> fst (layout_children cs d x s) <> []).
Proof.
  induction 1 as [|c rest Hc Hrest IH]; intros d x s.
  - cbn. repeat split; try constructor; [lra | congruence].
  - cbn [layout_children].
    specialize (Hc d x s).
    destruct (calculateLayout c d x s) as [c' next]. cbn [fst snd] in Hc.
    specialize (IH d next s).
    destruct (layout_children rest d next s) as [rest' final].
    cbn [fst snd] in *.
    destruct Hc as [Hw Hp]. destruct IH as (Hle & Hroots & Hin & Hfop & _).
    destruct (drawn_head c') as [tl Etl].
    assert (Hhead : within d x next (node_x c', node_y c')).
    { rewrite Etl in Hw. now inversion Hw. }
    assert (Hnext : (x + NODE_WIDTH + GAP_X <= next)%Q).
    { destruct Hhead as (H1 & H2 & H3). cbn [fst snd] in *. lra. }
    assert (Hx : (x <= next)%Q) by (unfold NODE_WIDTH, GAP_X in Hnext; lra).
    assert (Hlev : (level d <= level d)%Q) by lra.
    repeat split.
    + lra.
    + constructor.
      * eapply within_weaken; [exact Hhead | lra ..].
      * eapply Forall_impl; [|exact Hroots]. intros a Ha.
        eapply within_weaken; [exact Ha | lra ..].
    + cbn [List.flat_map]. apply Forall_app. split.
      * eapply Forall_impl; [|exact Hw]. intros a Ha.
        eapply within_weaken; [exact Ha | lra ..].
      * eapply Forall_impl; [|exact Hin]. intros a Ha.
        eapply within_weaken; [exact Ha | lra ..].
    + cbn [List.flat_map]. apply ForallOrdPairs_app; [exact Hp | exact Hfop |].
      intros a b Ha Hb. left.
      rewrite Forall_forall in Hw, Hin.
      destruct (Hw a Ha) as (_ & H2 & _). destruct (Hin b Hb) as (H1 & _).
      lra.
    + discriminate.
Qed.

Lemma calculateLayout_placed (n : TreeNodeData) :
  forall d x s,
    Forall (within d x (snd (calculateLayout n d x s)))
           (drawn (fst (calculateLayout n d x s)))
    /\ ForallOrdPairs apart (drawn (fst (calculateLayout n d x s))).
Proof.
  induction n as [id name type object children x0 y0 w h c hc IH]
    using TreeNodeData_nested_ind.
  intros d x s. rewrite calculateLayout_unfold.
  destruct (is_empty children || set_has id s) eqn:E.
  - cbn [fst snd drawn].
    assert (Enone : (if negb (set_has id s)
                     then List.flat_map drawn children else []) = []).
    { destruct (set_has id s); [reflexivity|].
      destruct children; [reflexivity | discriminate E]. }
    rewrite Enone. split.
    + constructor; [|constructor]. unfold within. cbn [fst snd].
      repeat split; lra.
    + constructor; constructor.
  - apply orb_false_iff in E as [Ene Ecol].
    pose proof (layout_children_placed IH (S d) x s)
      as (Hle & Hroots & Hin & Hfop & Hne).
    destruct (layout_children children (S d) x s) as [cs' r].
    cbn [fst snd] in *. rewrite Ecol. cbn [drawn negb].
    assert (Hcs : cs' <> []).
    { apply Hne. destruct children; [discriminate Ene | discriminate]. }
    destruct cs' as [|f cs']; [congruence|].
    pose proof (level_S d) as HS. unfold NODE_HEIGHT, GAP_Y in HS.
    rewrite Forall_forall in Hroots.
    destruct (Hroots f (or_introl eq_refl)) as (Hf1 & Hf2 & _).
    destruct (Hroots (List.last (f :: cs') f)
                (@last_In _ (f :: cs') f Hcs)) as (Hl1 & Hl2 & _).
    cbn [fst snd] in *.
    set (mid := ((node_x f + node_x (List.last (f :: cs') f)) / 2)%Q) in *.
    assert (Hmid : (mid * 2 == node_x f + node_x (List.last (f :: cs') f))%Q).
    { unfold mid. field. }
    split.
    + constructor.
      * unfold within. cbn [fst snd]. unfold NODE_WIDTH, GAP_X in *.
        repeat split; lra.
      * eapply Forall_impl; [|exact Hin]. intros a Ha.
        eapply within_weaken; [exact Ha | lra ..].
    + constructor; [|exact Hfop].
      eapply Forall_impl; [|exact Hin]. intros a (_ & _ & Ha).
      right. cbn [fst snd]. unfold NODE_HEIGHT, GAP_Y. lra.
Qed.

Lemma list_sum_cons (a : nat) (l : list nat) :
  list_sum (a :: l) = (a + list_sum l)%nat.
Proof. reflexivity. Qed.

(** The width of a drawing. *)
Lemma layout_children_width (cs : list TreeNodeData) (s : list string) :
  Forall (fun n => forall d x,
            (snd (calculateLayout n d x s)
             == x + inject_Z (Z.of_nat (columns s n))
                    * (NODE_WIDTH + GAP_X))%Q) cs ->
  forall d x,
    (snd (layout_children cs d x s)
     == x + inject_Z (Z.of_nat (list_sum (List.map (columns s) cs)))
            * (NODE_WIDTH + GAP_X))%Q.
Proof.
  induction 1 as [|c rest Hc Hrest IH]; intros d x.
  - cbn. ring.
  - cbn [layout_children List.map]. rewrite list_sum_cons.
    specialize (Hc d x).
    destruct (calculateLayout c d x s) as [c' next]. cbn [snd] in Hc.
    specialize (IH d next).
    destruct (layout_children rest d next s) as [rest' final].
    cbn [snd] in *.
    rewrite Znat.Nat2Z.inj_add, inject_Z_plus, IH, Hc. ring.
Qed.

Lemma calculateLayout_columns (n : TreeNodeData) (s : list string) :
  forall d x,
    (snd (calculateLayout n d x s)
     == x + inject_Z (Z.of_nat (columns s n)) * (NODE_WIDTH + GAP_X))%Q.
Proof.
  induction n as [id name type object children x0 y0 w h c hc IH]
    using TreeNodeData_nested_ind.
  intros d x. rewrite calculateLayout_unfold. cbn [columns].
  destruct (is_empty children || set_has id s).
  - cbn [snd]. unfold NODE_WIDTH, GAP_X. cbn. ring.
  - pose proof (@layout_children_width children s IH (S d) x) as Hw.
    destruct (layout_children children (S d) x s) as [cs' r].
    exact Hw.
Qed.

Lemma columns_pos (s : list string) (n : TreeNodeData) :
  (1 <= columns s n)%nat.
Proof.
  induction n as [id name type object children x0 y0 w h c hc IH]
    using TreeNodeData_nested_ind.
  cbn [columns]. destruct children as [|c1 cs]; [cbn; lia|].
  cbn [is_empty orb]. destruct (set_has id s); [lia|].
  inversion IH as [|? ? H1 _]; subst.
  cbn [List.map]. rewrite list_sum_cons. lia.
Qed.

Lemma columns_mono (s s' : list string) (n : TreeNodeData) :
  (forall k, set_has k s = true -> set_has k s' = true) ->
  (columns s' n <= columns s n)%nat.
Proof.
  intros Hsub.
  induction n as [id name type object children x0 y0 w h c hc IH]
    using TreeNodeData_nested_ind.
  pose proof (columns_pos s (TreeNode id name type object children x0 y0 w h
                                      c hc)) as Hpos.
  cbn [columns] in *. destruct (is_empty children); [cbn; lia|].
  cbn [orb] in *.
  destruct (set_has id s') eqn:E'; [exact Hpos|].
  destruct (set_has id s) eqn:E; [rewrite (Hsub id E) in E'; discriminate|].
  clear Hpos. induction IH as [|c1 cs H1 _ IHcs]; [cbn; lia|].
  cbn [List.map]. rewrite !list_sum_cons. lia.
Qed.

(** A second layout changes nothing. *)
Lemma layout_children_twice (cs : list TreeNodeData) :
  Forall (fun n => forall d x s,
            calculateLayout (fst (calculateLayout n d x s)) d x s
            = calculateLayout n d x s) cs ->
  forall d x s,
    layout_children (fst (layout_children cs d x s)) d x s
    = layout_children cs d x s.
Proof.
  induction 1 as [|c rest Hc Hrest IH]; intros d x s; [reflexivity|].
  cbn [layout_children].
  specialize (Hc d x s).
  destruct (calculateLayout c d x s) as [c' next] eqn:Ec. cbn [fst] in Hc.
  specialize (IH d next s).
  destruct (layout_children rest d next s) as [rest' final] eqn:Er.
  cbn [fst] in *. cbn [layout_children]. now rewrite Hc, IH.
Qed.

Lemma layout_children_is_empty (cs : list TreeNodeData) d x s :
  is_empty (fst (layout_children cs d x s)) = is_empty cs.
Proof.
  destruct cs as [|c rest]; [reflexivity|].
  cbn [layout_children].
  destruct (calculateLayout c d x s) as [c' next].
  destruct (layout_children rest d next s) as [rest' final]. reflexivity.
Qed.

Lemma calculateLayout_again (n : TreeNodeData) :
  forall d x s,
    calculateLayout (fst (calculateLayout n d x s)) d x s
    = calculateLayout n d x s.
Proof.
  induction n as [id name type object children x0 y0 w h c hc IH]
    using TreeNodeData_nested_ind.
  intros d x s. rewrite calculateLayout_unfold.
  destruct (is_empty children || set_has id s) eqn:E.
  - cbn [fst]. rewrite calculateLayout_unfold, E. reflexivity.
  - pose proof (layout_children_twice IH (S d) x s) as Htwice.
    pose proof (layout_children_is_empty children (S d) x s) as Hemp.
    destruct (layout_children children (S d) x s) as [cs' r].
    cbn [fst] in *. rewrite calculateLayout_unfold, Hemp, E, Htwice.
    destruct cs' as [|f cs']; [|reflexivity].
    apply orb_false_iff in E as [E _]. rewrite E in Hemp. discriminate Hemp.
Qed.

(** *** Collapsing *)

Lemma set_has_delete (id k : string) (s : list string) :
  set_has k (set_delete id s)
  = if String.eqb k id then false else set_has k s.
Proof.
  unfold set_has, set_delete.
  induction s as [|a s IH]; [now destruct (String.eqb k id)|].
  cbn [List.filter List.existsb].
  destruct (String.eqb_spec id a) as [->|Hne]; cbn [negb].
  - rewrite IH. destruct (String.eqb k a); reflexivity.
  - cbn [List.existsb]. rewrite IH.
    destruct (String.eqb_spec k id) as [->|Hk]; [|reflexivity].
    destruct (String.eqb_spec id a); [congruence | reflexivity].
Qed.

Lemma set_has_add (id k : string) (s : list string) :
  set_has k (set_add id s) = String.eqb k id || set_has k s.
Proof.
  unfold set_add. destruct (set_has id s) eqn:E.
  - destruct (String.eqb_spec k id) as [->|Hk]; [now rewrite E | reflexivity].
  - unfold set_has. rewrite List.existsb_app. cbn [List.existsb].
    now rewrite orb_false_r, orb_comm.
Qed.

Lemma set_has_In (k : string) (s : list string) :
  set_has k s = true <-> In k s.
Proof.
  unfold set_has. rewrite List.existsb_exists. split.
  - intros (a & Ha & E). apply String.eqb_eq in E. now subst.
  - intros H. exists k. split; [exact H | apply String.eqb_refl].
Qed.

Lemma set_delete_NoDup (id : string) (s : list string) :
  NoDup s -> NoDup (set_delete id s).
Proof. apply List.NoDup_filter. Qed.

Lemma set_add_NoDup (id : string) (s : list string) :
  NoDup s -> NoDup (set_add id s).
Proof.
  intros H. unfold set_add. destruct (set_has id s) eqn:E; [exact H|].
  apply List.NoDup_app; [exact H | constructor; [intros [] | constructor] |].
  intros a Ha [<-|[]]. apply set_has_In in Ha. congruence.
Qed.

End LayoutFacts.

Import StructureTree StructureTreeFacts LayoutFacts.

(** X17 (buildTreeData): the tree keeps every link and joint of the scene
    graph, once and parents first, and nothing else that stands for one;
    the result is null exactly when the scene graph has no link and no
    joint. *)
Theorem buildTreeData_keeps_links_and_joints :
  forall o : Object3D,
    tree_ids (buildTreeData o) = urdf_uuids o
    /\ (buildTreeData o = None <-> urdf_uuids o = []).
Proof.
  intros o. pose proof (buildTreeData_ids o) as Hids.
  split; [exact Hids|]. split.
  - intros E. now rewrite E in Hids.
  - intros E. destruct (buildTreeData o) as [t|] eqn:Eb; [|reflexivity].
    exfalso. apply (buildTreeData_real o Eb).
    cbn [tree_ids] in Hids. congruence.
Qed.

(** X18 (buildTreeData): every node of a built tree is marked as having
    children exactly when it has some, is not collapsed, has a name that
    is not empty, and, when it stands for no link or joint (the made-up
    root), has two children or more. *)
Theorem buildTreeData_nodes_fresh :
  forall (o : Object3D) (t : TreeNodeData),
    buildTreeData o = Some t -> Forall fresh_node (nodes t).
Proof.
  intros o t H. exact (buildTreeData_fresh o H).
Qed.

Lemma buildTreeData_nodes_fresh_witness :
  exists t, buildTreeData example_robot = Some t
            /\ Forall fresh_node (nodes t).
Proof.
  eexists. split; [vm_compute; reflexivity|].
  apply (@buildTreeData_nodes_fresh example_robot). reflexivity.
Defined.

(** X19 (calculateLayout): the number returned is the start plus one
    column, a node width and a gap, for every box drawn side by side
    under the node: its leaves and its collapsed nodes. *)
Theorem calculateLayout_width :
  forall (n : TreeNodeData) (depth : nat) (startX : Q) (s : list string),
    (snd (calculateLayout n depth startX s)
     == startX + inject_Z (Z.of_nat (columns s n)) * (NODE_WIDTH + GAP_X))%Q
    /\ (1 <= columns s n)%nat.
Proof.
  intros n depth startX s. split.
  - apply calculateLayout_columns.
  - apply columns_pos.
Qed.

(** X20 (calculateLayout, renderNodes): after a layout the boxes that are
    drawn lie between the start and the number returned, at the height of
    the depth or lower, and no two of them overlap: of two boxes, the one
    drawn later is a node width and a gap to the right of the other, or a
    node height and a gap below it. *)
Theorem calculateLayout_boxes_apart :
  forall (n : TreeNodeData) (depth : nat) (startX : Q) (s : list string),
    Forall (within depth startX (snd (calculateLayout n depth startX s)))
           (drawn (fst (calculateLayout n depth startX s)))
    /\ ForallOrdPairs apart (drawn (fst (calculateLayout n depth startX s))).
Proof.
  intros n depth startX s. apply calculateLayout_placed.
Qed.

(** X21 (calculateLayout): laying a tree out a second time with the same
    arguments, as the component does to centre the view, changes no node
    and returns the same number. *)
Theorem calculateLayout_twice :
  forall (n : TreeNodeData) (depth : nat) (startX : Q) (s : list string),
    calculateLayout (fst (calculateLayout n depth startX s)) depth startX s
    = calculateLayout n depth startX s.
Proof.
  intros n depth startX s. apply calculateLayout_again.
Qed.

(** X22 (calculateLayout): collapsing more nodes never widens the
    drawing. *)
Theorem collapse_never_widens :
  forall (n : TreeNodeData) (depth : nat) (startX : Q) (s s' : list string),
    List.forallb (fun k => set_has k s') s = true ->
    (snd (calculateLayout n depth startX s')
     <= snd (calculateLayout n depth startX s))%Q.
Proof.
  intros n depth startX s s' Hsub.
  rewrite !calculateLayout_columns.
  assert (Hle : (columns s' n <= columns s n)%nat).
  { apply columns_mono. intros k Hk.
    rewrite List.forallb_forall in Hsub. apply Hsub.
    now apply set_has_In. }
  apply Znat.Nat2Z.inj_le in Hle. rewrite Zle_Qle in Hle.
  unfold NODE_WIDTH, GAP_X. lra.
Qed.

Lemma collapse_never_widens_witness :
  (snd (calculateLayout example_tree 0 50%Q ["t1"])
   <= snd (calculateLayout example_tree 0 50%Q []))%Q.
Proof.
  apply (@collapse_never_widens example_tree 0 50%Q [] ["t1"]). reflexivity.
Defined.

(** X23 (toggleCollapse): a click on a node that has children switches the
    membership of its identifier in the set of collapsed identifiers and
    of no other, and the set stays free of duplicates. *)
Theorem toggleCollapse_flips :
  forall (node : TreeNodeData) (prev : list string),
    node_hasChildren node = true ->
    (forall k,
        set_has k (toggleCollapse node prev)
        = if String.eqb k (node_id node) then negb (set_has k prev)
          else set_has k prev)
    /\ (NoDup prev -> NoDup (toggleCollapse node prev)).
Proof.
  intros node prev Hhc. unfold toggleCollapse. rewrite Hhc. cbn [negb].
  destruct (set_has (node_id node) prev) eqn:E; split.
  - intros k. rewrite set_has_delete.
    destruct (String.eqb_spec k (node_id node)) as [->|Hk];
      [now rewrite E | reflexivity].
  - apply set_delete_NoDup.
  - intros k. rewrite set_has_add.
    destruct (String.eqb_spec k (node_id node)) as [->|Hk];
      [now rewrite E | reflexivity].
  - apply set_add_NoDup.
Qed.

Lemma toggleCollapse_flips_witness :
  (forall k,
      set_has k (toggleCollapse example_tree ["t1"])
      = if String.eqb k "t0" then negb (set_has k ["t1"])
        else set_has k ["t1"])
  /\ (NoDup ["t1"] -> NoDup (toggleCollapse example_tree ["t1"])).
Proof.
  apply (@toggleCollapse_flips example_tree ["t1"]). reflexivity.
Defined.

(** ** The keyboard shortcuts *)

Module ShortcutFacts.
Import Listing Shortcuts.

Lemma lower_char_idem (c : ascii) : lower_char (lower_char c) = lower_char c.
Proof.
  destruct c as [[] [] [] [] [] [] [] []]; vm_compute; reflexivity.
Qed.

Lemma toLowerCase_idem (s : string) :
  toLowerCase (toLowerCase s) = toLowerCase s.
Proof.
  induction s as [|c s IH]; [reflexivity|].
  cbn [toLowerCase]. now rewrite lower_char_idem, IH.
Qed.

Lemma handleKeyDown_switch hasCollision tag key st :
  handleKeyDown hasCollision tag key st
  = switch (switched hasCollision tag key) st.
Proof.
  unfold handleKeyDown, switched.
  destruct (in_input tag); [reflexivity|]. cbv zeta.
  repeat (match goal with
          | |- context [if String.eqb ?a ?b then _ else _] =>
              destruct (String.eqb a b)
          end; try reflexivity).
  destruct hasCollision; reflexivity.
Qed.

Lemma switch_twice o st : switch o (switch o st) = st.
Proof.
  destruct st as [a b c d e f].
  destruct o as [[]|]; cbn; rewrite ?negb_involutive; reflexivity.
Qed.

Lemma switch_comm o1 o2 st :
  switch o1 (switch o2 st) = switch o2 (switch o1 st).
Proof.
  destruct st as [a b c d e f].
  destruct o1 as [[]|], o2 as [[]|]; reflexivity.
Qed.

End ShortcutFacts.

Import Shortcuts ShortcutFacts.

(** X24 (src/src/App.tsx, handleKeyDown): a shortcut is a switch.  The same
    key pressed twice leaves the display options as they were, whatever
    the key, the focus and the presence of collision geometry; and two
    key presses have the same effect in either order. *)
Theorem handleKeyDown_twice_and_order :
  forall hasCollision tag1 key1 tag2 key2 st,
    handleKeyDown hasCollision tag1 key1
      (handleKeyDown hasCollision tag1 key1 st) = st
    /\ handleKeyDown hasCollision tag1 key1
         (handleKeyDown hasCollision tag2 key2 st)
       = handleKeyDown hasCollision tag2 key2
           (handleKeyDown hasCollision tag1 key1 st).
Proof.
  intros hc tag1 key1 tag2 key2 st.
  rewrite !handleKeyDown_switch. split.
  - apply switch_twice.
  - apply switch_comm.
Qed.

(** X25 (src/src/App.tsx, handleKeyDown): while the model has no collision
    geometry, no run of key presses changes whether collisions are
    shown. *)
Theorem shortcuts_keep_collision_setting :
  forall events st,
    showCollision (press_all false events st) = showCollision st.
Proof.
  unfold press_all.
  induction events as [|[tag key] events IH]; intros st; [reflexivity|].
  cbn [List.fold_left fst snd]. rewrite IH, handleKeyDown_switch.
  destruct st as [a b c d e f].
  unfold switched. destruct (in_input tag); [reflexivity|]. cbv zeta.
  repeat (match goal with
          | |- context [if String.eqb ?a ?b then _ else _] =>
              destruct (String.eqb a b)
          end; try reflexivity).
Qed.

(** X26 (src/src/App.tsx, handleKeyDown): the case of the key does not
    matter: a key and its lower-case form do the same. *)
Theorem handleKeyDown_ignores_case :
  forall hasCollision tag key st,
    handleKeyDown hasCollision tag (toLowerCase key) st
    = handleKeyDown hasCollision tag key st.
Proof.
  intros hc tag key st. unfold handleKeyDown.
  now rewrite toLowerCase_idem.
Qed.

